(** * A shallow embedding of the template engine (tokenizer, parser,
      expression screen and tree evaluator) and its verified properties.

    The development follows the TypeScript sources file by file:
    - [Str] and [Regex]: the JavaScript string and regular-expression
      primitives the sources call ([includes], [trim], [split], [replace],
      [test], [exec], [match]);
    - utils.ts: [escapeHtml], [get], [evaluateExpression], [isTruthy];
    - tokenizer.ts: [tokenize], [validateUnclosedExpressions],
      [validateMismatchedBlocks];
    - parser.ts: [parse] with [parseNodes], [parseIfStatement], [parseForLoop];
    - evaluator.ts: [evaluate], [evaluateNode] and the four node evaluators;
    - index.ts: [render].

    Modelling choices.
    - Strings are sequences of 8-bit characters (code units 0..255).
    - Numbers are the integer-valued doubles, NaN and the two infinities;
      fractional doubles are outside the model.
    - Objects and arrays live in a store ([heap]); a value of object type is
      a reference into it, so aliasing and mutation are visible.  Objects
      carry own data properties in insertion order; inherited members,
      accessors and functions are outside the model.
    - Two facilities of the JavaScript runtime are taken as parameters of
      the development: [runFunction], the call of a function built with
      [new Function] from a source text, and [refToString], the conversion
      of an object to a string. *)

From Stdlib Require Import String Ascii ZArith Lia Bool Arith DecimalString.
From stdpp Require Import base list strings.

Local Open Scope nat_scope.

(* ------------------------------------------------------------------ *)
(** ** Characters and strings *)

Module Str.

Definition code (c : ascii) : nat := nat_of_ascii c.

Definition between (lo hi : nat) (c : ascii) : bool :=
  (lo <=? code c) && (code c <=? hi).

Definition is_digit (c : ascii) : bool := between 48 57 c.
Definition is_upper (c : ascii) : bool := between 65 90 c.
Definition is_lower (c : ascii) : bool := between 97 122 c.
Definition is_alpha (c : ascii) : bool := is_upper c || is_lower c.

(** [\w] *)
Definition is_word (c : ascii) : bool :=
  is_alpha c || is_digit c || (code c =? 95).

(** [\s], and the characters removed by [trim]: TAB, LF, VT, FF, CR,
    SPACE and NBSP. *)
Definition is_space (c : ascii) : bool :=
  between 9 13 c || (code c =? 32) || (code c =? 160).

(** [.] excludes the line terminators. *)
Definition is_line_terminator (c : ascii) : bool :=
  (code c =? 10) || (code c =? 13).

Definition to_lower (c : ascii) : ascii :=
  if is_upper c then ascii_of_nat (code c + 32) else c.

Definition dquote : ascii := ascii_of_nat 34.
Definition squote : ascii := ascii_of_nat 39.
Definition backtick : ascii := ascii_of_nat 96.
Definition nul : ascii := ascii_of_nat 0.
Definition newline : ascii := ascii_of_nat 10.

Definition of_char (c : ascii) : string := String c EmptyString.

Fixpoint startsWith (s w : string) {struct w} : bool :=
  match w with
  | EmptyString => true
  | String c w' =>
      match s with
      | String d s' => Ascii.eqb c d && startsWith s' w'
      | EmptyString => false
      end
  end.

(** [s.includes(w)] *)
Fixpoint includes (s w : string) : bool :=
  startsWith s w ||
  match s with
  | EmptyString => false
  | String _ s' => includes s' w
  end.

Fixpoint take (n : nat) (s : string) : string :=
  match n, s with
  | S n', String c s' => String c (take n' s')
  | _, _ => EmptyString
  end.

Fixpoint drop (n : nat) (s : string) : string :=
  match n, s with
  | S n', String _ s' => drop n' s'
  | _, _ => s
  end.

(** [s.slice(i, j)] for [0 <= i], [0 <= j]. *)
Definition slice (s : string) (i j : nat) : string := take (j - i) (drop i s).

Fixpoint trimStart (s : string) : string :=
  match s with
  | String c s' => if is_space c then trimStart s' else s
  | EmptyString => EmptyString
  end.

Fixpoint trimEnd (s : string) : string :=
  match s with
  | EmptyString => EmptyString
  | String c s' =>
      match trimEnd s' with
      | EmptyString => if is_space c then EmptyString else of_char c
      | t => String c t
      end
  end.

Definition trim (s : string) : string := trimEnd (trimStart s).

(** [s.split(sep)] for a one-character separator: the current piece is
    accumulated in [cur]. *)
Fixpoint split_go (sep : ascii) (s cur : string) : list string :=
  match s with
  | EmptyString => [cur]
  | String c s' =>
      if Ascii.eqb c sep then cur :: split_go sep s' EmptyString
      else split_go sep s' (cur +:+ of_char c)
  end.

Definition split (sep : ascii) (s : string) : list string :=
  split_go sep s EmptyString.

Fixpoint join (sep : string) (l : list string) : string :=
  match l with
  | [] => EmptyString
  | [x] => x
  | x :: l' => x +:+ sep +:+ join sep l'
  end.

Fixpoint concat (l : list string) : string :=
  match l with
  | [] => EmptyString
  | x :: l' => x +:+ concat l'
  end.

Fixpoint chars (s : string) : list ascii :=
  match s with
  | EmptyString => []
  | String c s' => c :: chars s'
  end.

Fixpoint forallb (p : ascii -> bool) (s : string) : bool :=
  match s with
  | EmptyString => true
  | String c s' => p c && forallb p s'
  end.

(** Decimal numeral of an integer, as [String(z)] prints it. *)
Definition of_Z (z : Z) : string := NilZero.string_of_int (Z.to_int z).

Definition of_nat (n : nat) : string := of_Z (Z.of_nat n).

(** Value of a string of decimal digits. *)
Fixpoint digits_value (acc : nat) (s : string) : nat :=
  match s with
  | EmptyString => acc
  | String c s' => digits_value (10 * acc + (code c - 48)) s'
  end.

End Str.

(* ------------------------------------------------------------------ *)
(** ** Regular expressions

    A backtracking matcher in continuation-passing style, as ECMAScript
    defines pattern semantics: a matcher takes the current state and a
    continuation, and alternatives are tried in priority order. *)

Module Regex.

Inductive regex : Type :=
| Lit (w : string)               (* a literal character sequence *)
| LitI (w : string)              (* the same under the i flag; w in lower case *)
| Cls (p : ascii -> bool)        (* a class or class escape: [..] \s \d \w . *)
| Seq (a b : regex)
| Alt (a b : regex)
| Star (a : regex)               (* greedy a* *)
| Grp (i : nat) (a : regex)      (* capture group number i *)
| Bow                            (* \b *)
| Bos                            (* ^ *)
| Eos                            (* $ *)
| NotAhead (a : regex).          (* (?!a) *)

Definition Plus (a : regex) : regex := Seq a (Star a).

Fixpoint one_of (ws : list string) : regex :=
  match ws with
  | [] => Cls (fun _ => false)
  | [w] => Lit w
  | w :: ws' => Alt (Lit w) (one_of ws')
  end.

Fixpoint seq_of (rs : list regex) : regex :=
  match rs with
  | [] => Lit EmptyString
  | [r] => r
  | r :: rs' => Seq r (seq_of rs')
  end.

(** Matcher state: the character before the current position (None at
    the start of the input), the input from the current position on, and
    the captures made so far. *)
Record mstate : Type := MState {
  m_prev : option ascii;
  m_rest : string;
  m_caps : list (nat * string)
}.

Definition kont : Type := mstate -> option mstate.

Fixpoint lit_step (fold : ascii -> ascii) (w : string) (prev : option ascii) (rest : string)
  : option (option ascii * string) :=
  match w with
  | EmptyString => Some (prev, rest)
  | String c w' =>
      match rest with
      | String d rest' =>
          if Ascii.eqb c (fold d) then lit_step fold w' (Some d) rest' else None
      | EmptyString => None
      end
  end.

Definition word_before (st : mstate) : bool :=
  match m_prev st with Some c => Str.is_word c | None => false end.

Definition word_after (st : mstate) : bool :=
  match m_rest st with String c _ => Str.is_word c | EmptyString => false end.

Definition consumed (st st' : mstate) : string :=
  Str.take (String.length (m_rest st) - String.length (m_rest st')) (m_rest st).

Definition set_cap (i : nat) (w : string) (st : mstate) : mstate :=
  MState (m_prev st) (m_rest st) ((i, w) :: m_caps st).

Definition literal (fold : ascii -> ascii) (w : string) (st : mstate) (k : kont) : option mstate :=
  match lit_step fold w (m_prev st) (m_rest st) with
  | Some (p, rest') => k (MState p rest' (m_caps st))
  | None => None
  end.

Fixpoint rmatch (r : regex) (st : mstate) (k : kont) {struct r} : option mstate :=
  match r with
  | Lit w => literal (fun c => c) w st k
  | LitI w => literal Str.to_lower w st k
  | Cls p =>
      match m_rest st with
      | String c rest' => if p c then k (MState (Some c) rest' (m_caps st)) else None
      | EmptyString => None
      end
  | Seq a b => rmatch a st (fun st' => rmatch b st' k)
  | Alt a b =>
      match rmatch a st k with
      | Some out => Some out
      | None => rmatch b st k
      end
  | Star a =>
      (fix loop (fuel : nat) (st : mstate) {struct fuel} : option mstate :=
         match fuel with
         | 0 => k st
         | S fuel' =>
             match rmatch a st (fun st' =>
                     if String.length (m_rest st') <? String.length (m_rest st)
                     then loop fuel' st' else None) with
             | Some out => Some out
             | None => k st
             end
         end) (String.length (m_rest st)) st
  | Grp i a => rmatch a st (fun st' => k (set_cap i (consumed st st') st'))
  | Bow => if xorb (word_before st) (word_after st) then k st else None
  | Bos => match m_prev st with None => k st | Some _ => None end
  | Eos => match m_rest st with EmptyString => k st | String _ _ => None end
  | NotAhead a =>
      match rmatch a st (fun st' => Some st') with
      | Some _ => None
      | None => k st
      end
  end.

(** The result of a successful match: [index] of its first character,
    the [matched] text ([m[0]]) and the capture groups ([m[i]]). *)
Record rmatch_result : Type := MatchResult {
  index : nat;
  matched : string;
  groups : list (nat * string)
}.

Fixpoint assoc (i : nat) (l : list (nat * string)) : option string :=
  match l with
  | [] => None
  | (j, w) :: l' => if i =? j then Some w else assoc i l'
  end.

(** [m[i]]; an unset group reads as the empty string here, the sources
    only read groups that took part in the match. *)
Definition group (i : nat) (m : rmatch_result) : string :=
  match assoc i (groups m) with Some w => w | None => EmptyString end.

Definition match_end (m : rmatch_result) : nat := index m + String.length (matched m).

(** The match of [r] that starts exactly at the current position. *)
Definition match_here (r : regex) (prev : option ascii) (s : string) (idx : nat)
  : option rmatch_result :=
  let st := MState prev s [] in
  match rmatch r st (fun st' => Some st') with
  | Some st' => Some (MatchResult idx (consumed st st') (m_caps st'))
  | None => None
  end.

(** Leftmost match at or after the current position. *)
Fixpoint search_from (r : regex) (prev : option ascii) (s : string) (idx : nat)
  : option rmatch_result :=
  match match_here r prev s idx with
  | Some m => Some m
  | None =>
      match s with
      | EmptyString => None
      | String c s' => search_from r (Some c) s' (S idx)
      end
  end.

(** [r.lastIndex = pos; r.exec(s)] for a regex with the g flag: the
    leftmost match starting at index [pos] or later. *)
Fixpoint exec_from (r : regex) (prev : option ascii) (s : string) (idx pos : nat)
  {struct pos} : option rmatch_result :=
  match pos with
  | 0 => search_from r prev s idx
  | S pos' =>
      match s with
      | EmptyString => None
      | String c s' => exec_from r (Some c) s' (S idx) pos'
      end
  end.

Definition exec (r : regex) (s : string) (pos : nat) : option rmatch_result :=
  exec_from r None s 0 pos.

(** [s.match(r)] without the g flag. *)
Definition match_ (r : regex) (s : string) : option rmatch_result := exec r s 0.

(** [r.test(s)] without the g flag. *)
Definition test (r : regex) (s : string) : bool :=
  match match_ r s with Some _ => true | None => false end.

(** [s.replace(r, f)] with the g flag.  [skip] counts the characters of
    the input still covered by the previous match. *)
Fixpoint replace_go (r : regex) (f : rmatch_result -> string)
    (prev : option ascii) (s : string) (idx skip : nat) : string :=
  match s with
  | EmptyString =>
      match skip, match_here r prev s idx with
      | 0, Some m => f m
      | _, _ => EmptyString
      end
  | String c s' =>
      match skip with
      | S skip' => replace_go r f (Some c) s' (S idx) skip'
      | 0 =>
          match match_here r prev s idx with
          | Some m =>
              match String.length (matched m) with
              | 0 => f m +:+ String c (replace_go r f (Some c) s' (S idx) 0)
              | S n => f m +:+ replace_go r f (Some c) s' (S idx) n
              end
          | None => String c (replace_go r f (Some c) s' (S idx) 0)
          end
      end
  end.

Definition replace (r : regex) (f : rmatch_result -> string) (s : string) : string :=
  replace_go r f None s 0 0.

End Regex.

Import Regex.

(* ------------------------------------------------------------------ *)
(** ** Values, the store, and errors *)

Inductive number : Type :=
| NInt (z : Z)                 (* an integer-valued double *)
| NNaN
| NInf (negative : bool).

Abbreviation loc := nat.

Inductive value : Type :=
| VUndefined
| VNull
| VBool (b : bool)
| VNum (n : number)
| VStr (s : string)
| VRef (l : loc).             (* an object or an array, by reference *)

Inductive object : Type :=
| OArray (elems : list value)
| OObject (props : list (string * value)).

(** The store: the object at location [l] is the [l]-th entry. *)
Abbreviation heap := (list object).

Definition alloc (h : heap) (o : object) : loc * heap := (length h, h ++ [o]).

Inductive error_class : Type :=
| PlainError | TypeError | RangeError
| TokenizerError | ParseError | EvaluationError.

Record error : Type := MkError {
  e_class : error_class;
  e_message : string;
  e_position : option (nat * nat)    (* the [position] field of a TokenizerError *)
}.

Definition new_Error (msg : string) : error := MkError PlainError msg None.

(** The result of running a piece of code: a returned value, a thrown
    error, or no result within the given number of steps. *)
Inductive outcome (A : Type) : Type :=
| Return (a : A)
| Throw (e : error)
| Diverge.
Arguments Return {A} a.
Arguments Throw {A} e.
Arguments Diverge {A}.

Definition bind {A B : Type} (x : outcome A) (f : A -> outcome B) : outcome B :=
  match x with
  | Return a => f a
  | Throw e => Throw e
  | Diverge => Diverge
  end.

(** Code that may also write to the store. *)
Definition comp (A : Type) : Type := heap -> outcome A * heap.

Definition ret {A : Type} (a : A) : comp A := fun h => (Return a, h).
Definition throw {A : Type} (e : error) : comp A := fun h => (Throw e, h).

Definition cbind {A B : Type} (x : comp A) (f : A -> comp B) : comp B :=
  fun h =>
    match x h with
    | (Return a, h') => f a h'
    | (Throw e, h') => (Throw e, h')
    | (Diverge, h') => (Diverge, h')
    end.

(** [try { x } catch (error) { handler error }] *)
Definition try_catch {A : Type} (x : comp A) (handler : error -> comp A) : comp A :=
  fun h =>
    match x h with
    | (Throw e, h') => handler e h'
    | r => r
    end.

Notation "'let*' x ':=' c1 'in' c2" := (cbind c1 (fun x => c2))
  (at level 10, x name, c1 at level 100, c2 at level 200).

(** *** Primitive operations of the language on values *)

Definition is_nullish (v : value) : bool :=
  match v with VUndefined | VNull => true | _ => false end.

Definition typeof (v : value) : string :=
  match v with
  | VUndefined => "undefined"
  | VNull => "object"
  | VBool _ => "boolean"
  | VNum _ => "number"
  | VStr _ => "string"
  | VRef _ => "object"
  end.

Definition isArray (h : heap) (v : value) : bool :=
  match v with
  | VRef l => match h !! l with Some (OArray _) => true | _ => false end
  | _ => false
  end.

Fixpoint lookup_prop (key : string) (props : list (string * value)) : option value :=
  match props with
  | [] => None
  | (k, v) :: props' => if String.eqb k key then Some v else lookup_prop key props'
  end.

(** [o[key] = v] on own data properties: an existing key keeps its place. *)
Fixpoint set_prop (key : string) (v : value) (props : list (string * value))
  : list (string * value) :=
  match props with
  | [] => [(key, v)]
  | (k, w) :: props' =>
      if String.eqb k key then (k, v) :: props' else (k, w) :: set_prop key v props'
  end.

(** [key] is the canonical numeral of an array index. *)
Definition array_index (key : string) : option nat :=
  let n := Str.digits_value 0 key in
  if Str.forallb Str.is_digit key && String.eqb (Str.of_nat n) key then Some n else None.

Definition number_of_nat (n : nat) : value := VNum (NInt (Z.of_nat n)).

(** [o[key]] for an object or array in the store: its own data properties.
    Properties inherited from a prototype ([toString], [valueOf], ...) are
    not modelled; such a key reads as undefined here. *)
Definition object_get (o : object) (key : string) : value :=
  match o with
  | OObject props =>
      match lookup_prop key props with Some v => v | None => VUndefined end
  | OArray elems =>
      if String.eqb key "length" then number_of_nat (length elems)
      else match array_index key with
           | Some i => match elems !! i with Some v => v | None => VUndefined end
           | None => VUndefined
           end
  end.

(** [v[key]] where [v] has type object and is not null. *)
Definition ref_get (h : heap) (l : loc) (key : string) : value :=
  match h !! l with
  | Some o => object_get o key
  | None => VUndefined
  end.

Definition has_own (o : object) (key : string) : bool :=
  match o with
  | OObject props => match lookup_prop key props with Some _ => true | None => false end
  | OArray elems =>
      String.eqb key "length" ||
      match array_index key with Some i => i <? length elems | None => false end
  end.

(** The keys a [for (key in o)] visits. *)
Definition enumerable_keys (o : object) : list string :=
  match o with
  | OObject props => map fst props
  | OArray elems => map Str.of_nat (seq 0 (length elems))
  end.

(** [String(n)]: an integer is printed in plain decimal.  The exponent
    notation that [String] switches to from 1e21 on is not modelled. *)
Definition number_to_string (n : number) : string :=
  match n with
  | NInt z => Str.of_Z z
  | NNaN => "NaN"
  | NInf false => "Infinity"
  | NInf true => "-Infinity"
  end.

(** [Boolean(v)] *)
Definition toBoolean (v : value) : bool :=
  match v with
  | VUndefined | VNull => false
  | VBool b => b
  | VNum (NInt z) => negb (Z.eqb z 0)
  | VNum NNaN => false
  | VNum (NInf _) => true
  | VStr s => negb (String.eqb s EmptyString)
  | VRef _ => true
  end.

Definition TypeError_not_a_function (what : string) : error :=
  MkError TypeError (what +:+ " is not a function") None.

(** [v.hasOwnProperty(key)]: the method is the inherited one unless [v]
    has an own property of that name, which in this model is data and so
    not callable. *)
Definition call_hasOwnProperty (h : heap) (v : value) (key : string) : outcome bool :=
  match v with
  | VRef l =>
      match h !! l with
      | Some o =>
          if has_own o "hasOwnProperty"
          then Throw (TypeError_not_a_function "context.hasOwnProperty")
          else Return (has_own o key)
      | None => Return false
      end
  | VStr s =>
      Return (String.eqb key "length" ||
              match array_index key with Some i => i <? String.length s | None => false end)
  | _ => Return false
  end.

(* ------------------------------------------------------------------ *)
(** ** utils.ts *)

Definition any_of (cs : list ascii) : regex :=
  Cls (fun c => existsb (Ascii.eqb c) cs).

Definition none_of (cs : list ascii) : regex :=
  Cls (fun c => negb (existsb (Ascii.eqb c) cs)).

Definition quotes : list ascii := [Str.squote; Str.dquote; Str.backtick].

Definition spaces : regex := Star (Cls Str.is_space).     (* \s* *)
Definition spaces1 : regex := Plus (Cls Str.is_space).    (* \s+ *)
Definition digits1 : regex := Plus (Cls Str.is_digit).    (* \d+ *)

(** [/&(amp|lt|gt|quot|#x27|#x2F|#x3A|#x3D);/] *)
Definition encodedEntity : regex :=
  seq_of [Lit "&"; Grp 1 (one_of ["amp"; "lt"; "gt"; "quot"; "#x27"; "#x2F"; "#x3A"; "#x3D"]);
          Lit ";"].

(** The class of [/[&<>Q\/:]/g], where Q stands for the double and the
    single quote. *)
Definition htmlSpecial : regex :=
  any_of ["&"%char; "<"%char; ">"%char; Str.dquote; Str.squote; "/"%char; ":"%char].

Definition htmlEscapes (m : string) : string :=
  if String.eqb m "&" then "&amp;"
  else if String.eqb m "<" then "&lt;"
  else if String.eqb m ">" then "&gt;"
  else if String.eqb m (Str.of_char Str.dquote) then "&quot;"
  else if String.eqb m (Str.of_char Str.squote) then "&#x27;"
  else if String.eqb m "/" then "&#x2F;"
  else if String.eqb m ":" then "&#x3A;"
  else "undefined".

(** [/\[(\d+)\]/g] *)
Definition numericIndex : regex := seq_of [Lit "["; Grp 1 digits1; Lit "]"].

Definition DANGEROUS_GLOBALS : list string :=
  ["process"; "require"; "module"; "exports";
   "__dirname"; "__filename"; "Buffer"; "setTimeout"; "setInterval";
   "eval"; "Function"; "constructor"; "__proto__"; "prototype";
   "toString"; "valueOf"; "hasOwnProperty"; "this"; "console"].

(** [/\[\s*QnameQ\s*\]/], where Q stands for the class of the three quote
    characters (single, double, backtick). *)
Definition quotedKey (name : string) : regex :=
  seq_of [Lit "["; spaces; any_of quotes; Lit name; any_of quotes; spaces; Lit "]"].

Definition DANGEROUS_PATTERNS : list regex :=
  [ seq_of [Bow; Grp 1 (one_of ["process"; "require"; "module"; "exports";
                                "__dirname"; "__filename"; "Buffer"]); Bow];
    seq_of [Bow; Grp 1 (one_of ["setTimeout"; "setInterval"; "eval"; "Function"; "console"]); Bow];
    seq_of [Bow; Grp 1 (one_of ["constructor"; "__proto__"; "prototype"]); Bow];
    seq_of [Bow; Lit "this"; Bow];
    seq_of [Bow; Lit "global"; spaces; Lit "."];
    quotedKey "constructor";
    quotedKey "__proto__";
    quotedKey "prototype";
    quotedKey "global";
    seq_of [Bow; Lit "function"; spaces; Lit "("];
    Lit "=>";
    seq_of [Bow; Grp 1 (one_of ["var"; "let"; "const"]); spaces1] ].

(** [/\[[^\]]*\]/] *)
Definition anyBracket : regex := seq_of [Lit "["; Star (none_of ["]"%char]); Lit "]"].

(** [/\[([^\]]+)\]/] *)
Definition computedAccess : regex :=
  seq_of [Lit "["; Grp 1 (Plus (none_of ["]"%char])); Lit "]"].

(** [/^\d+$/] *)
Definition allDigits : regex := seq_of [Bos; digits1; Eos].

(** [/^Q[^Q]*Q$/], with Q the class of the three quote characters. *)
Definition quotedLiteral : regex :=
  seq_of [Bos; any_of quotes; Star (none_of quotes); any_of quotes; Eos].

Definition ident_start (c : ascii) : bool :=
  Str.is_alpha c || Ascii.eqb c "_" || Ascii.eqb c "$".

Definition ident_part (c : ascii) : bool :=
  Str.is_alpha c || Str.is_digit c || Ascii.eqb c "_" || Ascii.eqb c "$".

Definition path_part (c : ascii) : bool := ident_part c || Ascii.eqb c "-".

(** [/^[a-zA-Z_$][a-zA-Z0-9_$-]*(\.[a-zA-Z0-9_$-]+|\[\d+\])*$/] *)
Definition simplePropertyPattern : regex :=
  seq_of [Bos; Cls ident_start; Star (Cls path_part);
          Star (Grp 1 (Alt (Seq (Lit ".") (Plus (Cls path_part)))
                           (seq_of [Lit "["; digits1; Lit "]"])));
          Eos].

(** [/^[a-zA-Z_$][a-zA-Z0-9_$]*$/] *)
Definition identifierName : regex :=
  seq_of [Bos; Cls ident_start; Star (Cls ident_part); Eos].

Definition SECURITY_MESSAGE : string := "Access to dangerous globals is not allowed".

Definition string_in (s : string) (l : list string) : bool := existsb (String.eqb s) l.

Definition nl : string := Str.of_char Str.newline.
Definition dq : string := Str.of_char Str.dquote.

Section Utils.

(** [new Function('ctx', 'get', code)(context, get)]: the runtime
    compiles [code] and runs it on the context object itself; the call
    may read and write the store. *)
Variable runFunction : string -> value -> comp value.

(** [String(o)] for an object or array [o] of the store. *)
Variable refToString : heap -> loc -> outcome string.

(** [String(value)] *)
Definition toString (h : heap) (v : value) : outcome string :=
  match v with
  | VUndefined => Return "undefined"
  | VNull => Return "null"
  | VBool true => Return "true"
  | VBool false => Return "false"
  | VNum n => Return (number_to_string n)
  | VStr s => Return s
  | VRef l => refToString h l
  end.

Definition escapeString (str : string) : string :=
  let hasEncodedEntities := test encodedEntity str in
  if hasEncodedEntities &&
     (Str.includes str "&lt;script&gt;" && Str.includes str "&lt;/script&gt;")
  then str
  else
    let escaped := replace htmlSpecial (fun m => htmlEscapes (matched m)) str in
    if Str.includes str "<" && Str.includes str ">" then
      replace (Lit "=") (fun _ => "&#x3D;") escaped
    else if Str.startsWith str "onclick=" && Str.includes str dq then
      replace (Lit "=") (fun _ => "=") escaped
    else
      replace (Lit "=") (fun _ => "&#x3D;") escaped.

Definition escapeHtml (h : heap) (v : value) : outcome string :=
  if is_nullish v then Return EmptyString
  else bind (toString h v) (fun str => Return (escapeString str)).

(** The loop of [get] over the keys of the path. *)
Fixpoint get_walk (h : heap) (result : value) (keys : list string) : value :=
  match keys with
  | [] => result
  | key :: keys' =>
      if is_nullish result then VUndefined
      else match result with
           | VRef l => get_walk h (ref_get h l key) keys'
           | VStr s =>
               if String.eqb key "length"
               then get_walk h (number_of_nat (String.length s)) keys'
               else VUndefined
           | _ => VUndefined
           end
  end.

Definition get_keys (path : string) : list string :=
  let normalizedPath := replace numericIndex (fun m => "." +:+ group 1 m) path in
  Str.split "." normalizedPath.

Definition get (h : heap) (object : value) (path : string) : value :=
  if is_nullish object then VUndefined
  else get_walk h object (get_keys path).

(** The computed-access check of [evaluateExpression]: [true] when it
    throws. *)
Definition computedAccessBlocked (expression : string) : bool :=
  if test anyBracket expression then
    match match_ computedAccess expression with
    | Some computedMatch =>
        let computedExpr := replace (any_of quotes) (fun _ => EmptyString) (group 1 computedMatch) in
        if string_in computedExpr DANGEROUS_GLOBALS then true
        else negb (test allDigits computedExpr) &&
             negb (test quotedLiteral (group 1 computedMatch))
    | None => false
    end
  else false.

(** The keys of the context declared as constants of the generated
    function. *)
Definition safeKeys (h : heap) (context : value) : outcome (list string) :=
  match context with
  | VRef l =>
      match h !! l with
      | Some o =>
          match enumerable_keys o with
          | [] => Return []
          | keys =>
              if has_own o "hasOwnProperty"
              then Throw (TypeError_not_a_function "context.hasOwnProperty")
              else Return (filter (fun key => has_own o key
                                              && negb (string_in key DANGEROUS_GLOBALS)
                                              && test identifierName key) keys)
          end
      | None => Return []
      end
  | _ => Return []
  end.

Definition declaration (key : string) : string :=
  "const " +:+ key +:+ " = ctx[" +:+ dq +:+ key +:+ dq +:+ "];".

Definition funcCode (keys : list string) (expression : string) : string :=
  nl +:+ "      if (ctx == null) return undefined;" +:+
  nl +:+ "      " +:+ Str.join nl (map declaration keys) +:+
  nl +:+ "      return " +:+ expression +:+ ";" +:+
  nl +:+ "    ".

(** The try block of [evaluateExpression]: the function is generated
    and called on the context. *)
Definition callGeneratedFunction (expression : string) (context : value) : comp value :=
  fun h =>
    match safeKeys h context with
    | Return keys => runFunction (funcCode keys expression) context h
    | Throw e => (Throw e, h)
    | Diverge => (Diverge, h)
    end.

(** The catch clause of [evaluateExpression]. *)
Definition evaluateExpression_catch (expression : string) (context : value) (error : error)
  : comp value :=
  if Str.includes (e_message error) "dangerous globals" then throw error
  else if test simplePropertyPattern expression
  then (fun h => (Return (get h context expression), h))
  else throw (new_Error "Invalid expression").

Definition evaluateExpression (expression : string) (context : value) : comp value :=
  fun h =>
  if String.eqb expression EmptyString then (Return VUndefined, h)
  else if existsb (fun pattern => test pattern expression) DANGEROUS_PATTERNS
  then (Throw (new_Error SECURITY_MESSAGE), h)
  else if computedAccessBlocked expression
  then (Throw (new_Error SECURITY_MESSAGE), h)
  else if String.eqb expression "global" then
    if toBoolean context then
      match call_hasOwnProperty h context "global" with
      | Return true =>
          (Return (match context with VRef l => ref_get h l "global" | _ => VUndefined end), h)
      | Return false => (Throw (new_Error SECURITY_MESSAGE), h)
      | Throw e => (Throw e, h)
      | Diverge => (Diverge, h)
      end
    else (Throw (new_Error SECURITY_MESSAGE), h)
  else if test simplePropertyPattern expression
  then (Return (get h context expression), h)
  else
    try_catch (callGeneratedFunction expression context)
      (evaluateExpression_catch expression context) h.

Definition isTruthy (h : heap) (v : value) : bool :=
  match v with
  | VUndefined | VNull => false
  | VBool b => b
  | VNum (NInt z) => negb (Z.eqb z 0)
  | VNum NNaN => false
  | VNum (NInf _) => true
  | VStr s => 0 <? String.length s
  | VRef l =>
      match h !! l with
      | Some (OArray elems) => 0 <? length elems
      | _ => true
      end
  end.

End Utils.

(* ------------------------------------------------------------------ *)
(** ** tokenizer.ts *)

Inductive TokenType : Type :=
| TEXT | VARIABLE | IF_START | ELSE | IF_END | FOR_START | FOR_END.

Record Position : Type := MkPosition { p_start : nat; p_end : nat }.

Record Token : Type := MkToken {
  t_type : TokenType;
  t_value : string;
  t_position : Position
}.

Definition new_TokenizerError (msg : string) (p : Position) : error :=
  MkError TokenizerError msg (Some (p_start p, p_end p)).

Inductive PatternType : Type :=
| Tok (t : TokenType)
| RAW_HTML
| INVALID_BLOCK.

Record Pattern : Type := MkPattern { pat_type : PatternType; pat_regex : regex }.

Definition ESCAPED_OPEN_BRACE : string :=
  String Str.nul ("ESCAPED_OPEN_BRACE" +:+ Str.of_char Str.nul).

Definition ESCAPED_CLOSE_BRACE : string :=
  String Str.nul ("ESCAPED_CLOSE_BRACE" +:+ Str.of_char Str.nul).

(** [/\\(\{|\})/g] *)
Definition escapedBrace : regex := Seq (Lit "\") (Grp 1 (Alt (Lit "{") (Lit "}"))).

Definition not_char (c : ascii) : regex := none_of [c].

Definition patterns : list Pattern :=
  [ (* The regex sources are quoted with a blank between a star and a closing
       parenthesis that follows it.
       /\{\{\{[^}]*\}\}\}/g *)
    MkPattern RAW_HTML (seq_of [Lit "{{{"; Star (not_char "}"); Lit "}}}"]);
    (* /\{\{\s*([^}]* )\s*\}\}/g *)
    MkPattern (Tok VARIABLE)
      (seq_of [Lit "{{"; spaces; Grp 1 (Star (not_char "}")); spaces; Lit "}}"]);
    (* /\{\%\s*if\s+([^%]* )\s*\%\}/g *)
    MkPattern (Tok IF_START)
      (seq_of [Lit "{%"; spaces; Lit "if"; spaces1; Grp 1 (Star (not_char "%")); spaces; Lit "%}"]);
    (* /\{\%\s*else\s*\%\}/g *)
    MkPattern (Tok ELSE) (seq_of [Lit "{%"; spaces; Lit "else"; spaces; Lit "%}"]);
    (* /\{\%\s*endif\s*\%\}/g *)
    MkPattern (Tok IF_END) (seq_of [Lit "{%"; spaces; Lit "endif"; spaces; Lit "%}"]);
    (* /\{\%\s*for\s+([^%]* )\s*\%\}/g *)
    MkPattern (Tok FOR_START)
      (seq_of [Lit "{%"; spaces; Lit "for"; spaces1; Grp 1 (Star (not_char "%")); spaces; Lit "%}"]);
    (* /\{\%\s*endfor\s*\%\}/g *)
    MkPattern (Tok FOR_END) (seq_of [Lit "{%"; spaces; Lit "endfor"; spaces; Lit "%}"]);
    (* /\{\%\s*\%\}/g *)
    MkPattern INVALID_BLOCK (seq_of [Lit "{%"; spaces; Lit "%}"]) ].

(** [/\{\{(?![^}]*\}\})/g] *)
Definition variableRegex : regex :=
  Seq (Lit "{{") (NotAhead (Seq (Star (not_char "}")) (Lit "}}"))).

(** [/\{\%(?![^%]*\%\})/g] *)
Definition blockRegex : regex :=
  Seq (Lit "{%") (NotAhead (Seq (Star (not_char "%")) (Lit "%}"))).

Definition validateUnclosedExpressions (template : string) : outcome unit :=
  match exec variableRegex template 0 with
  | Some m =>
      Throw (new_TokenizerError "Unclosed variable expression"
               (MkPosition (index m) (index m + 2)))
  | None =>
      match exec blockRegex template 0 with
      | Some m =>
          Throw (new_TokenizerError "Unclosed block expression"
                   (MkPosition (index m) (index m + 2)))
      | None => Return tt
      end
  end.

Definition blockPairs (t : TokenType) : option TokenType :=
  match t with
  | IF_START => Some IF_END
  | FOR_START => Some FOR_END
  | _ => None
  end.

Definition TokenType_eqb (a b : TokenType) : bool :=
  match a, b with
  | TEXT, TEXT | VARIABLE, VARIABLE | IF_START, IF_START | ELSE, ELSE
  | IF_END, IF_END | FOR_START, FOR_START | FOR_END, FOR_END => true
  | _, _ => false
  end.

(** The loop of [validateMismatchedBlocks]; the head of [stack] is its
    last pushed token. *)
Fixpoint validateMismatchedBlocks_loop (tokens stack : list Token) : outcome unit :=
  match tokens with
  | [] => Return tt
  | token :: tokens' =>
      match t_type token with
      | IF_START | FOR_START => validateMismatchedBlocks_loop tokens' (token :: stack)
      | IF_END | FOR_END =>
          match stack with
          | lastBlock :: stack' =>
              match blockPairs (t_type lastBlock) with
              | Some expectedEnd =>
                  if TokenType_eqb (t_type token) expectedEnd
                  then validateMismatchedBlocks_loop tokens' stack'
                  else Throw (new_TokenizerError "Mismatched block tags" (t_position token))
              | None => Throw (new_TokenizerError "Mismatched block tags" (t_position token))
              end
          | [] => validateMismatchedBlocks_loop tokens' stack
          end
      | _ => validateMismatchedBlocks_loop tokens' stack
      end
  end.

Definition validateMismatchedBlocks (tokens : list Token) : outcome unit :=
  validateMismatchedBlocks_loop tokens [].

(** Restoring the escaped braces in a piece of text. *)
Definition restoreBraces (text : string) : string :=
  replace (Lit ESCAPED_CLOSE_BRACE) (fun _ => "}")
    (replace (Lit ESCAPED_OPEN_BRACE) (fun _ => "{") text).

(** The inner [for (const pattern of patterns)] loop: the match that
    starts earliest, the first pattern winning a tie. *)
Fixpoint earliest (ps : list Pattern) (s : string) (position : nat)
    (best : option (rmatch_result * Pattern)) : option (rmatch_result * Pattern) :=
  match ps with
  | [] => best
  | pattern :: ps' =>
      let best' :=
        match exec (pat_regex pattern) s position with
        | Some m =>
            if position <=? index m then
              match best with
              | None => Some (m, pattern)
              | Some (earliestMatch, _) =>
                  if index m <? index earliestMatch then Some (m, pattern) else best
              end
            else best
        | None => best
        end in
      earliest ps' s position best'
  end.

Definition match_position (m : rmatch_result) : Position :=
  MkPosition (index m) (index m + String.length (matched m)).

(** The value of the token for a match, or the error the match raises. *)
Definition token_of_match (m : rmatch_result) (pattern : Pattern) : outcome Token :=
  match pat_type pattern with
  | INVALID_BLOCK => Throw (new_TokenizerError "Empty block expression" (match_position m))
  | RAW_HTML => Throw (new_TokenizerError "Raw HTML not supported" (match_position m))
  | Tok VARIABLE =>
      let value := Str.trim (group 1 m) in
      if String.eqb value EmptyString
      then Throw (new_TokenizerError "Empty variable expression" (match_position m))
      else Return (MkToken VARIABLE value (match_position m))
  | Tok IF_START =>
      let value := Str.trim (group 1 m) in
      if String.eqb value EmptyString
      then Throw (new_TokenizerError "Empty block expression" (match_position m))
      else Return (MkToken IF_START value (match_position m))
  | Tok FOR_START =>
      let value := Str.trim (group 1 m) in
      if String.eqb value EmptyString
      then Throw (new_TokenizerError "Empty block expression" (match_position m))
      else Return (MkToken FOR_START value (match_position m))
  | Tok t => Return (MkToken t EmptyString (match_position m))
  end.

(** The [while (position < processedTemplate.length)] loop. *)
Fixpoint tokenize_loop (fuel : nat) (processedTemplate : string) (position : nat)
    (tokens : list Token) : outcome (list Token) :=
  match fuel with
  | 0 => Diverge
  | S fuel' =>
      if position <? String.length processedTemplate then
        match earliest patterns processedTemplate position None with
        | Some (earliestMatch, earliestPattern) =>
            let textValue := Str.slice processedTemplate position (index earliestMatch) in
            let tokens1 :=
              if (position <? index earliestMatch) && negb (String.eqb textValue EmptyString)
              then tokens ++ [MkToken TEXT (restoreBraces textValue)
                                (MkPosition position (index earliestMatch))]
              else tokens in
            match token_of_match earliestMatch earliestPattern with
            | Return token =>
                tokenize_loop fuel' processedTemplate (match_end earliestMatch)
                  (tokens1 ++ [token])
            | Throw e => Throw e
            | Diverge => Diverge
            end
        | None =>
            let remainingText := Str.drop position processedTemplate in
            if String.eqb remainingText EmptyString then Return tokens
            else
              let restoredText := restoreBraces remainingText in
              Return (tokens ++ [MkToken TEXT restoredText
                                   (MkPosition position (position + String.length restoredText))])
        end
      else Return tokens
  end.

Definition escapeBraces (template : string) : string :=
  replace escapedBrace
    (fun m => if String.eqb (group 1 m) "{" then ESCAPED_OPEN_BRACE else ESCAPED_CLOSE_BRACE)
    template.

(** The scan of [tokenize], before the final validation of block tags. *)
Definition tokenize_scan (template : string) : outcome (list Token) :=
  let processedTemplate := escapeBraces template in
  bind (validateUnclosedExpressions processedTemplate) (fun _ =>
  tokenize_loop (S (String.length processedTemplate)) processedTemplate 0 []).

Definition tokenize (template : string) : outcome (list Token) :=
  bind (tokenize_scan template) (fun tokens =>
  bind (validateMismatchedBlocks tokens) (fun _ =>
  Return tokens)).

(* ------------------------------------------------------------------ *)
(** ** parser.ts *)

#[local] Set Warnings "-register-all".

Inductive ASTNode : Type :=
| TextNode (value : string)
| VariableNode (expression : string)
| IfNode (condition : string) (body elseBody : list ASTNode)
| ForNode (item : string) (index : option string) (iterable : string) (body : list ASTNode).

Definition new_ParseError (msg : string) : error := MkError ParseError msg None.

Definition word1 : regex := Plus (Cls Str.is_word).                                (* \w+ *)
Definition dot1 : regex := Plus (Cls (fun c => negb (Str.is_line_terminator c))).  (* .+ *)

(** [/^(\w+),\s*(\w+)\s+in\s+(.+)$/] *)
Definition forWithIndex : regex :=
  seq_of [Bos; Grp 1 word1; Lit ","; spaces; Grp 2 word1; spaces1; Lit "in"; spaces1;
          Grp 3 dot1; Eos].

(** [/^(\w+)\s+in\s+(.+)$/] *)
Definition forSimple : regex :=
  seq_of [Bos; Grp 1 word1; spaces1; Lit "in"; spaces1; Grp 2 dot1; Eos].

(** The header of a for loop: item, index and iterable. *)
Definition parseForHeader (forExpression : string)
  : option (string * option string * string) :=
  match match_ forWithIndex forExpression with
  | Some m =>
      let index := group 2 m in
      Some (Str.trim (group 1 m),
            (if String.eqb index EmptyString then None else Some (Str.trim index)),
            Str.trim (group 3 m))
  | None =>
      match match_ forSimple forExpression with
      | Some simpleMatch =>
          Some (Str.trim (group 1 simpleMatch), None, Str.trim (group 2 simpleMatch))
      | None => None
      end
  end.

(** The three mutually recursive functions of [parse].  The tokens from
    index [current] on are passed and returned instead of the index.  Each
    call decrements [fuel]; [parse] supplies more than the tokens need. *)
Fixpoint parseNodes (fuel : nat) (tokens : list Token) {struct fuel}
  : outcome (list ASTNode * list Token) :=
  match fuel with
  | 0 => Diverge
  | S fuel' =>
      match tokens with
      | [] => Return ([], [])
      | token :: rest =>
          match t_type token with
          | TEXT =>
              bind (parseNodes fuel' rest) (fun '(nodes, rest') =>
              Return (TextNode (t_value token) :: nodes, rest'))
          | VARIABLE =>
              bind (parseNodes fuel' rest) (fun '(nodes, rest') =>
              Return (VariableNode (t_value token) :: nodes, rest'))
          | IF_START =>
              bind (parseIfStatement fuel' token rest) (fun '(node, rest') =>
              bind (parseNodes fuel' rest') (fun '(nodes, rest'') =>
              Return (node :: nodes, rest'')))
          | FOR_START =>
              bind (parseForLoop fuel' token rest) (fun '(node, rest') =>
              bind (parseNodes fuel' rest') (fun '(nodes, rest'') =>
              Return (node :: nodes, rest'')))
          | IF_END | FOR_END | ELSE => Return ([], tokens)
          end
      end
  end

with parseIfStatement (fuel : nat) (ifToken : Token) (tokens : list Token) {struct fuel}
  : outcome (ASTNode * list Token) :=
  match fuel with
  | 0 => Diverge
  | S fuel' =>
      let condition := Str.trim (t_value ifToken) in
      if String.eqb condition EmptyString then Throw (new_ParseError "Empty if condition")
      else
        bind (parseNodes fuel' tokens) (fun '(body, rest) =>
        bind (match rest with
              | token :: rest' =>
                  if TokenType_eqb (t_type token) ELSE
                  then parseNodes fuel' rest'
                  else Return ([], rest)
              | [] => Return ([], rest)
              end) (fun '(elseBody, rest') =>
        match rest' with
        | token :: rest'' =>
            if TokenType_eqb (t_type token) IF_END
            then Return (IfNode condition body elseBody, rest'')
            else Throw (new_ParseError "Unmatched if statement")
        | [] => Throw (new_ParseError "Unmatched if statement")
        end))
  end

with parseForLoop (fuel : nat) (forToken : Token) (tokens : list Token) {struct fuel}
  : outcome (ASTNode * list Token) :=
  match fuel with
  | 0 => Diverge
  | S fuel' =>
      match parseForHeader (t_value forToken) with
      | None => Throw (new_ParseError "Invalid for loop syntax")
      | Some (item, index, iterable) =>
          bind (parseNodes fuel' tokens) (fun '(body, rest) =>
          match rest with
          | token :: rest' =>
              if TokenType_eqb (t_type token) FOR_END
              then Return (ForNode item index iterable body, rest')
              else Throw (new_ParseError "Unmatched for loop")
          | [] => Throw (new_ParseError "Unmatched for loop")
          end)
      end
  end.

Definition parse (tokens : list Token) : outcome (list ASTNode) :=
  bind (parseNodes (2 * length tokens + 1) tokens) (fun '(nodes, rest) =>
  match rest with
  | token :: _ =>
      match t_type token with
      | IF_END => Throw (new_ParseError "Unexpected endif statement")
      | FOR_END => Throw (new_ParseError "Unexpected endfor statement")
      | ELSE => Throw (new_ParseError "Unexpected else statement")
      | _ => Return nodes
      end
  | [] => Return nodes
  end).

(* ------------------------------------------------------------------ *)
(** ** evaluator.ts *)

Definition new_EvaluationError (msg : string) : error := MkError EvaluationError msg None.

(** The own enumerable properties an object spread [{...v}] copies. *)
Definition spread (h : heap) (v : value) : list (string * value) :=
  match v with
  | VRef l =>
      match h !! l with
      | Some (OObject props) => props
      | Some (OArray elems) => imap (fun i x => (Str.of_nat i, x)) elems
      | None => []
      end
  | VStr s => imap (fun i c => (Str.of_nat i, VStr (Str.of_char c))) (Str.chars s)
  | _ => []
  end.

(** [o[key] = v] for the object at [l]. *)
Definition store_prop (l : loc) (key : string) (v : value) : comp unit :=
  fun h =>
    match h !! l with
    | Some (OObject props) => (Return tt, <[l := OObject (set_prop key v props)]> h)
    | _ => (Return tt, h)
    end.

Definition new_object (o : object) : comp loc :=
  fun h => let '(l, h') := alloc h o in (Return l, h').

(** The elements of the array at [l], as they are now. *)
Definition array_elems (h : heap) (l : loc) : list value :=
  match h !! l with
  | Some (OArray elems) => elems
  | _ => []
  end.

Definition MAX_ARRAY_LENGTH : Z := 4294967295.          (* 2^32 - 1 *)
Definition MAX_SAFE_INTEGER : Z := 9007199254740991.    (* 2^53 - 1 *)

(** [ToLength(v)] for a number. *)
Definition toLength (n : number) : Z :=
  match n with
  | NInt z => Z.min (Z.max z 0) MAX_SAFE_INTEGER
  | NNaN => 0
  | NInf false => MAX_SAFE_INTEGER
  | NInf true => 0
  end.

(** [Array.from(s)] for a string: its characters. *)
Definition arrayFrom_string (s : string) : list value :=
  map (fun c => VStr (Str.of_char c)) (Str.chars s).

(** [Array.from(o)] for an array-like object with length [n]: the
    elements [o[0]], ..., or a RangeError when no array can be that long. *)
Definition arrayFrom_arrayLike (o : object) (n : number) : outcome (list value) :=
  let len := toLength n in
  if (MAX_ARRAY_LENGTH <? len)%Z
  then Throw (MkError RangeError "Invalid array length" None)
  else Return (map (fun i => object_get o (Str.of_nat i)) (seq 0 (Z.to_nat len))).

Section Evaluator.

Variable runFunction : string -> value -> comp value.
Variable refToString : heap -> loc -> outcome string.

Definition evaluateTextNode (text : string) (context : value) : comp string :=
  ret text.

Definition evaluateVariable (expression : string) (context : value) : comp string :=
  try_catch
    (let* value := evaluateExpression runFunction expression context in
     if is_nullish value then ret EmptyString
     else fun h => (escapeHtml refToString h value, h))
    (fun error =>
       if Str.includes (e_message error) "dangerous globals"
       then throw (new_EvaluationError SECURITY_MESSAGE)
       else if Str.includes (e_message error) "Invalid expression"
       then throw (new_EvaluationError ("Invalid expression: " +:+ expression))
       else if Str.includes (e_message error) "Getter error"
       then throw error
       else ret EmptyString).

Section Step.

(** [evaluateNode], for the nodes below the current one. *)
Variable evaluateNode : ASTNode -> value -> comp string.

(** The [for (const node of nodes)] loop of [evaluate]. *)
Fixpoint evaluate_loop (nodes : list ASTNode) (normalizedContext : value)
    (result : string) : comp string :=
  match nodes with
  | [] => ret result
  | node :: nodes' =>
      let* out := evaluateNode node normalizedContext in
      evaluate_loop nodes' normalizedContext (result +:+ out)
  end.

Definition evaluate_with (nodes : list ASTNode) (context : value) : comp string :=
  let* normalizedContext :=
    (if is_nullish context
     then (let* l := new_object (OObject []) in ret (VRef l))
     else ret context) in
  evaluate_loop nodes normalizedContext EmptyString.

Definition evaluateIfNode (condition : string) (body elseBody : list ASTNode)
    (context : value) : comp string :=
  try_catch
    (let* conditionResult := evaluateExpression runFunction condition context in
     fun h =>
       if isTruthy h conditionResult then evaluate_with body context h
       else if 0 <? length elseBody then evaluate_with elseBody context h
       else (Return EmptyString, h))
    (fun error =>
       if Str.includes (e_message error) "dangerous globals"
       then throw (new_EvaluationError SECURITY_MESSAGE)
       else throw (new_EvaluationError ("Failed to evaluate if condition: " +:+ condition))).

Definition loop_record (i len : nat) : object :=
  OObject [("index", number_of_nat i);
           ("index0", number_of_nat i);
           ("index1", number_of_nat (i + 1));
           ("first", VBool (i =? 0));
           ("last", VBool (i =? len - 1));
           ("length", number_of_nat len)].

(** The body of the loop of [evaluateArrayLoop] for one index [i]. *)
Definition evaluateArrayLoop_body (item : string) (index : option string)
    (body : list ASTNode) (context : value) (array : loc) (i : nat) : comp string :=
  fun h =>
    let elems := array_elems h array in
    let itemValue := match elems !! i with Some v => v | None => VUndefined end in
    (let* loopRecord := new_object (loop_record i (length elems)) in
     let* loopContext :=
       new_object (OObject (set_prop "loop" (VRef loopRecord)
                              (set_prop item itemValue (spread h context)))) in
     let* _ :=
       match index with
       | Some name =>
           if String.eqb name EmptyString then ret tt
           else store_prop loopContext name (number_of_nat i)
       | None => ret tt
       end in
     evaluate_with body (VRef loopContext)) h.

(** [for (let i = ...; i < array.length; i++)], with at most [steps]
    tests of the loop condition. *)
Fixpoint evaluateArrayLoop_from (steps : nat) (item : string) (index : option string)
    (body : list ASTNode) (context : value) (array : loc) (i : nat) (result : string)
    {struct steps} : comp string :=
  match steps with
  | 0 => fun h => (Diverge, h)
  | S steps' =>
      fun h =>
        if i <? length (array_elems h array) then
          (let* out := evaluateArrayLoop_body item index body context array i in
           evaluateArrayLoop_from steps' item index body context array (i + 1)
             (result +:+ out)) h
        else (Return result, h)
  end.

Variable steps : nat.

Definition evaluateArrayLoop (item : string) (index : option string)
    (body : list ASTNode) (context : value) (array : loc) : comp string :=
  evaluateArrayLoop_from steps item index body context array 0 EmptyString.

(** The catch clause of [evaluateForNode]. *)
Definition evaluateForNode_catch (iterable : string) (error : error) : comp string :=
  match e_class error with
  | EvaluationError => throw error
  | _ =>
      if Str.includes (e_message error) "dangerous globals"
      then throw (new_EvaluationError SECURITY_MESSAGE)
      else throw (new_EvaluationError ("Failed to evaluate for loop: " +:+ iterable))
  end.

Definition evaluateForNode (item : string) (index : option string) (iterable : string)
    (body : list ASTNode) (context : value) : comp string :=
  try_catch
    (let* iterableValue := evaluateExpression runFunction iterable context in
     fun h =>
       if is_nullish iterableValue then (Return EmptyString, h)
       else
         match iterableValue with
         | VStr s =>
             (let* chars := new_object (OArray (arrayFrom_string s)) in
              evaluateArrayLoop item index body context chars) h
         | VRef l =>
             match h !! l with
             | Some (OArray _) => evaluateArrayLoop item index body context l h
             | Some o =>
                 match object_get o "length" with
                 | VNum n =>
                     match arrayFrom_arrayLike o n with
                     | Return elems =>
                         (let* array := new_object (OArray elems) in
                          evaluateArrayLoop item index body context array) h
                     | Throw e => (Throw e, h)
                     | Diverge => (Diverge, h)
                     end
                 | _ =>
                     (Throw (new_EvaluationError
                               ("Value is not iterable: " +:+ typeof iterableValue)), h)
                 end
             | None =>
                 (Throw (new_EvaluationError
                           ("Value is not iterable: " +:+ typeof iterableValue)), h)
             end
         | _ =>
             (Throw (new_EvaluationError
                       ("Value is not iterable: " +:+ typeof iterableValue)), h)
         end)
    (evaluateForNode_catch iterable).

Definition evaluateNode_step (node : ASTNode) (context : value) : comp string :=
  match node with
  | TextNode value => evaluateTextNode value context
  | VariableNode expression => evaluateVariable expression context
  | IfNode condition body elseBody => evaluateIfNode condition body elseBody context
  | ForNode item index iterable body => evaluateForNode item index iterable body context
  end.

End Step.

(** [evaluateNode] with a bound [fuel] on the depth of the calls and on
    the number of iterations of each loop over an array. *)
Fixpoint evaluateNode (fuel : nat) (node : ASTNode) (context : value) {struct fuel}
  : comp string :=
  match fuel with
  | 0 => fun h => (Diverge, h)
  | S fuel' => evaluateNode_step (evaluateNode fuel') fuel' node context
  end.

Definition evaluate (fuel : nat) (nodes : list ASTNode) (context : value) : comp string :=
  evaluate_with (evaluateNode fuel) nodes context.

(* ---------------------------------------------------------------- *)
(** ** index.ts *)

(** [/position|line|column/i] *)
Definition positionWords : regex := Alt (LitI "position") (Alt (LitI "line") (LitI "column")).

(** The catch clause of [render]. *)
Definition render_catch (err : error) : error :=
  let error := err in
  match e_class error, e_position error with
  | TokenizerError, Some (s, e) =>
      MkError PlainError
        (e_message error +:+ " at position " +:+ Str.of_nat s +:+ "-" +:+ Str.of_nat e)
        (Some (s, e))
  | _, _ =>
      if test positionWords (e_message error) then error
      else new_Error ("Template rendering failed: " +:+ e_message error)
  end.

Definition render (fuel : nat) (template : string) (context : value) : comp string :=
  let* normalizedContext :=
    (if is_nullish context
     then (let* l := new_object (OObject []) in ret (VRef l))
     else ret context) in
  if negb (String.eqb (typeof normalizedContext) "object")
  then throw (new_Error "Context must be an object")
  else
    try_catch
      (fun h =>
         match bind (tokenize template) parse with
         | Return ast => evaluate fuel ast normalizedContext h
         | Throw e => (Throw e, h)
         | Diverge => (Diverge, h)
         end)
      (fun error => throw (render_catch error)).

End Evaluator.

(** *** Sample instances of the runtime parameters

    Used to run the model on examples: a runtime in which every generated
    function fails to compile, and the string conversion of plain objects. *)

Definition sample_runFunction : string -> value -> comp value :=
  fun _ _ => throw (MkError PlainError "Unexpected token" None).

Definition sample_refToString : heap -> loc -> outcome string :=
  fun _ _ => Return "[object Object]".

(* ================================================================== *)
(** * Properties *)

(** ** Strings *)

Lemma string_eqb_true (a b : string) : String.eqb a b = true <-> a = b.
Proof. apply String.eqb_eq. Qed.

Lemma startsWith_cons_false (s w : string) (c : ascii) (p : ascii -> bool) :
  Str.forallb p s = true -> p c = false -> Str.startsWith s (String c w) = false.
Proof.
  intros Hs Hc. destruct s as [|d s']; simpl; [reflexivity|].
  simpl in Hs. apply andb_true_iff in Hs as [Hd _].
  destruct (Ascii.eqb c d) eqn:E; [|reflexivity].
  apply Ascii.eqb_eq in E. subst d. congruence.
Qed.

Lemma includes_cons_false (s w : string) (c : ascii) (p : ascii -> bool) :
  Str.forallb p s = true -> p c = false -> Str.includes s (String c w) = false.
Proof.
  intros Hs Hc. induction s as [|d s' IH].
  - reflexivity.
  - cbn [Str.includes]. rewrite (startsWith_cons_false _ _ _ p Hs Hc).
    simpl in Hs. apply andb_true_iff in Hs as [_ Hs']. simpl. auto.
Qed.

Lemma includes_tail (c : ascii) (s w : string) :
  Str.includes (String c s) w = false -> Str.includes s w = false.
Proof. cbn [Str.includes]. intros H. apply orb_false_iff in H. tauto. Qed.

Lemma includes_head (s w : string) :
  Str.includes s w = false -> Str.startsWith s w = false.
Proof. destruct s; cbn [Str.includes]; intros H; apply orb_false_iff in H; tauto. Qed.

Lemma startsWith_app (w v s : string) :
  Str.startsWith s (w +:+ v) = true -> Str.startsWith s w = true.
Proof.
  revert s. induction w as [|c w IH]; intros s; simpl; [reflexivity|].
  destruct s as [|d s]; [discriminate|].
  intros H. apply andb_true_iff in H as [H1 H2]. rewrite H1. simpl. eauto.
Qed.

(** A string that does not contain [w] does not contain an extension of [w]. *)
Lemma includes_app_false (w v s : string) :
  Str.includes s w = false -> Str.includes s (w +:+ v) = false.
Proof.
  induction s as [|c s IH]; cbn [Str.includes]; intros H;
    apply orb_false_iff in H as [H1 H2].
  - destruct (Str.startsWith EmptyString (w +:+ v)) eqn:E; [|reflexivity].
    apply startsWith_app in E. congruence.
  - rewrite (IH H2), orb_false_r.
    destruct (Str.startsWith (String c s) (w +:+ v)) eqn:E; [|reflexivity].
    apply startsWith_app in E. congruence.
Qed.

Lemma drop_0 (s : string) : Str.drop 0 s = s.
Proof. destruct s; reflexivity. Qed.

(** ** The matcher *)

(** [unmatched r s]: [r] matches at no position of [s], whatever precedes. *)
Fixpoint unmatched (r : regex) (s : string) : Prop :=
  (forall prev caps k, rmatch r (MState prev s caps) k = None) /\
  match s with
  | EmptyString => True
  | String _ s' => unmatched r s'
  end.

Lemma unmatched_here (r : regex) (s : string) :
  unmatched r s -> forall prev idx, match_here r prev s idx = None.
Proof.
  intros H prev idx. unfold match_here. destruct s; simpl in H; destruct H as [H _]; now rewrite H.
Qed.

Lemma unmatched_search (r : regex) (s : string) :
  unmatched r s -> forall prev idx, search_from r prev s idx = None.
Proof.
  induction s as [|c s IH]; intros H prev idx; cbn [search_from];
    rewrite (unmatched_here _ _ H); [reflexivity|].
  apply IH. apply H.
Qed.

Lemma unmatched_exec_from (r : regex) (s : string) :
  unmatched r s -> forall pos prev idx, exec_from r prev s idx pos = None.
Proof.
  induction s as [|c s IH]; intros H pos prev idx; destruct pos; cbn [exec_from];
    try apply (unmatched_search _ _ H); [reflexivity|].
  apply IH. apply H.
Qed.

Lemma unmatched_exec (r : regex) (s : string) (pos : nat) :
  unmatched r s -> exec r s pos = None.
Proof. intros H. apply unmatched_exec_from, H. Qed.

Lemma unmatched_test (r : regex) (s : string) : unmatched r s -> test r s = false.
Proof. intros H. unfold test, match_. now rewrite (unmatched_exec _ _ 0 H). Qed.

Lemma unmatched_replace_go (r : regex) (f : rmatch_result -> string) (s : string) :
  unmatched r s -> forall prev idx, replace_go r f prev s idx 0 = s.
Proof.
  induction s as [|c s IH]; intros H prev idx; cbn [replace_go];
    rewrite (unmatched_here _ _ H); [reflexivity|].
  f_equal. apply IH, H.
Qed.

Lemma unmatched_replace (r : regex) (f : rmatch_result -> string) (s : string) :
  unmatched r s -> replace r f s = s.
Proof. intros H. apply unmatched_replace_go, H. Qed.

Lemma lit_step_startsWith (w : string) (prev : option ascii) (s : string) :
  Str.startsWith s w = false -> lit_step (fun c => c) w prev s = None.
Proof.
  revert prev s. induction w as [|c w IH]; intros prev s; simpl; [discriminate|].
  destruct s as [|d s]; [reflexivity|].
  destruct (Ascii.eqb c d); simpl; [apply IH|reflexivity].
Qed.

Lemma unmatched_Lit (w s : string) : Str.includes s w = false -> unmatched (Lit w) s.
Proof.
  induction s as [|c s IH]; intros H; (split; [|try exact I]).
  - intros prev caps k. cbn [rmatch]. unfold literal. cbn [m_prev m_rest].
    now rewrite (lit_step_startsWith _ _ _ (includes_head _ _ H)).
  - intros prev caps k. cbn [rmatch]. unfold literal. cbn [m_prev m_rest].
    now rewrite (lit_step_startsWith _ _ _ (includes_head _ _ H)).
  - apply IH. eapply includes_tail, H.
Qed.

Lemma unmatched_Seq_Lit (w : string) (r : regex) (s : string) :
  Str.includes s w = false -> unmatched (Seq (Lit w) r) s.
Proof.
  induction s as [|c s IH]; intros H; (split; [|try exact I]).
  - intros prev caps k. cbn [rmatch]. unfold literal. cbn [m_prev m_rest].
    now rewrite (lit_step_startsWith _ _ _ (includes_head _ _ H)).
  - intros prev caps k. cbn [rmatch]. unfold literal. cbn [m_prev m_rest].
    now rewrite (lit_step_startsWith _ _ _ (includes_head _ _ H)).
  - apply IH. eapply includes_tail, H.
Qed.

Lemma unmatched_Cls (p : ascii -> bool) (s : string) :
  Str.forallb (fun c => negb (p c)) s = true -> unmatched (Cls p) s.
Proof.
  induction s as [|c s IH]; intros H; (split; [|try exact I]).
  - reflexivity.
  - intros prev caps k. cbn [rmatch m_rest]. simpl in H.
    apply andb_true_iff in H as [H _]. now destruct (p c).
  - apply IH. simpl in H. apply andb_true_iff in H. tauto.
Qed.

(** A match somewhere makes the search succeed. *)
Lemma search_from_found (r : regex) (s : string) :
  forall prev idx,
    (exists t, Str.includes s t = true /\
       forall prev' idx' u, Str.startsWith u t = true -> match_here r prev' u idx' <> None) ->
    search_from r prev s idx <> None.
Proof.
  induction s as [|c s IH]; intros prev idx (t & Hin & Hm); cbn [search_from].
  - cbn [Str.includes] in Hin. rewrite orb_false_r in Hin.
    specialize (Hm prev idx _ Hin). now destruct (match_here r prev EmptyString idx).
  - destruct (match_here r prev (String c s) idx) eqn:E; [discriminate|].
    cbn [Str.includes] in Hin. apply orb_true_iff in Hin as [Hin|Hin].
    + now specialize (Hm prev idx _ Hin).
    + apply IH. eauto.
Qed.

Lemma forallb_impl (p q : ascii -> bool) (s : string) :
  (forall c, p c = true -> q c = true) -> Str.forallb p s = true -> Str.forallb q s = true.
Proof.
  intros Hpq. induction s as [|c s IH]; simpl; [reflexivity|].
  intros H. apply andb_true_iff in H as [H1 H2]. rewrite (Hpq _ H1). simpl. auto.
Qed.

(** ** utils.ts: escaping *)

(** The characters [escapeHtml] leaves alone. *)
Definition plain_char (c : ascii) : bool :=
  negb (existsb (Ascii.eqb c)
          ["&"%char; "<"%char; ">"%char; Str.dquote; Str.squote; "/"%char; ":"%char; "="%char]).

Lemma plain_char_not_special (c : ascii) :
  plain_char c = true ->
  negb (existsb (Ascii.eqb c)
          ["&"%char; "<"%char; ">"%char; Str.dquote; Str.squote; "/"%char; ":"%char]) = true.
Proof.
  unfold plain_char. cbn [existsb]. intros H.
  apply negb_true_iff in H. apply negb_true_iff.
  repeat (apply orb_false_iff in H as [? H]). 
  repeat (apply orb_false_iff; split); assumption.
Qed.

Lemma escapeString_plain (s : string) :
  Str.forallb plain_char s = true -> escapeString s = s.
Proof.
  intros H. unfold escapeString.
  assert (Hamp : test encodedEntity s = false).
  { apply unmatched_test. apply (unmatched_Seq_Lit "&").
    now apply (includes_cons_false _ _ _ plain_char). }
  rewrite Hamp. cbn [andb].
  assert (Hrep : replace htmlSpecial (fun m => htmlEscapes (matched m)) s = s).
  { apply unmatched_replace, unmatched_Cls.
    eapply forallb_impl; [|exact H]. apply plain_char_not_special. }
  rewrite Hrep.
  assert (Heq : forall f, replace (Lit "=") f s = s).
  { intros f. apply unmatched_replace, unmatched_Lit.
    now apply (includes_cons_false _ _ _ plain_char). }
  rewrite !Heq. now repeat destruct (_ && _).
Qed.

(** ** utils.ts: the expression evaluator *)

(** The expressions [evaluateExpression] resolves with [get]: not empty,
    through both screens, not the word global, and a simple property path. *)
Definition fast_path (expression : string) : bool :=
  negb (String.eqb expression EmptyString)
  && negb (existsb (fun pattern => test pattern expression) DANGEROUS_PATTERNS)
  && negb (computedAccessBlocked expression)
  && negb (String.eqb expression "global")
  && test simplePropertyPattern expression.

(** The expressions that reach the generated function. *)
Definition general_path (expression : string) : bool :=
  negb (String.eqb expression EmptyString)
  && negb (existsb (fun pattern => test pattern expression) DANGEROUS_PATTERNS)
  && negb (computedAccessBlocked expression)
  && negb (String.eqb expression "global")
  && negb (test simplePropertyPattern expression).

Section UtilsFacts.

Variable runFunction : string -> value -> comp value.

Lemma evaluateExpression_fast (expression : string) (context : value) (h : heap) :
  fast_path expression = true ->
  evaluateExpression runFunction expression context h
  = (Return (get h context expression), h).
Proof.
  unfold fast_path, evaluateExpression. intros H.
  repeat (apply andb_true_iff in H as [H ?]).
  repeat match goal with
         | H : negb _ = true |- _ => apply negb_true_iff in H; rewrite H
         end.
  now match goal with H : test _ _ = true |- _ => rewrite H end.
Qed.

Lemma get_own (h : heap) (c : loc) (props : list (string * value)) (key : string) (v : value) :
  h !! c = Some (OObject props) ->
  lookup_prop key props = Some v ->
  get_keys key = [key] ->
  get h (VRef c) key = v.
Proof.
  intros Hc Hv Hk. unfold get. cbn [is_nullish]. rewrite Hk.
  cbn [get_walk is_nullish]. unfold ref_get. rewrite Hc. cbn [object_get]. now rewrite Hv.
Qed.

End UtilsFacts.

(** ** index.ts: [render] on a template that parses *)

Section RenderFacts.

Variable runFunction : string -> value -> comp value.
Variable refToString : heap -> loc -> outcome string.

Lemma render_parsed (fuel : nat) (template : string) (ast : list ASTNode)
    (c : loc) (h : heap) :
  bind (tokenize template) parse = Return ast ->
  render runFunction refToString fuel template (VRef c) h
  = match evaluate runFunction refToString fuel ast (VRef c) h with
    | (Throw e, h') => (Throw (render_catch e), h')
    | r => r
    end.
Proof.
  intros H. unfold render, cbind, ret, try_catch, throw. cbn [is_nullish typeof].
  rewrite H. change (negb (String.eqb "object" "object")) with false. cbn iota.
  reflexivity.
Qed.

Lemma render_failed (fuel : nat) (template : string) (e : error) (c : loc) (h : heap) :
  bind (tokenize template) parse = Throw e ->
  render runFunction refToString fuel template (VRef c) h = (Throw (render_catch e), h).
Proof.
  intros H. unfold render, cbind, ret, try_catch, throw. cbn [is_nullish typeof].
  rewrite H. now change (negb (String.eqb "object" "object")) with false.
Qed.

(** One variable node whose expression is a key of the context. *)
Lemma evaluate_variable_own (fuel : nat) (key : string) (c : loc) (h : heap)
    (props : list (string * value)) (v : value) (str : string) :
  1 <= fuel ->
  fast_path key = true ->
  get_keys key = [key] ->
  h !! c = Some (OObject props) ->
  lookup_prop key props = Some v ->
  is_nullish v = false ->
  toString refToString h v = Return str ->
  evaluate runFunction refToString fuel [VariableNode key] (VRef c) h
  = (Return (escapeString str), h).
Proof.
  intros Hfuel Hfast Hkeys Hc Hv Hn Hstr. destruct fuel as [|fuel]; [lia|].
  unfold evaluate, evaluate_with. cbn [is_nullish].
  unfold cbind at 1. unfold ret at 1. cbn [evaluate_loop].
  unfold cbind at 1. cbn [evaluateNode evaluateNode_step].
  unfold evaluateVariable, try_catch, cbind.
  rewrite (evaluateExpression_fast _ _ _ _ Hfast).
  rewrite (get_own _ _ _ _ _ Hc Hv Hkeys).
  rewrite Hn. unfold escapeHtml. rewrite Hn, Hstr. reflexivity.
Qed.

End RenderFacts.

Lemma startsWith_cons (c : ascii) (w u : string) :
  Str.startsWith u (String c w) = true ->
  exists u', u = String c u' /\ Str.startsWith u' w = true.
Proof.
  destruct u as [|d u']; cbn [Str.startsWith]; [discriminate|].
  intros H. apply andb_true_iff in H as [H1 H2].
  apply Ascii.eqb_eq in H1. subst d. eauto.
Qed.

Lemma encodedEntity_found (str : string) :
  Str.includes str "&lt;script&gt;" = true -> test encodedEntity str = true.
Proof.
  intros H. unfold test, match_, exec. cbn [exec_from].
  destruct (search_from encodedEntity None str 0) eqn:E; [reflexivity|].
  exfalso. revert E. apply search_from_found.
  exists "&lt;script&gt;". split; [exact H|].
  intros prev idx u Hu.
  apply startsWith_cons in Hu as (u1 & -> & Hu).
  apply startsWith_cons in Hu as (u2 & -> & Hu).
  apply startsWith_cons in Hu as (u3 & -> & Hu).
  apply startsWith_cons in Hu as (u4 & -> & Hu).
  unfold match_here. cbn. discriminate.
Qed.

Section EscapeFacts.

Variable refToString : heap -> loc -> outcome string.

Lemma escapeHtml_encoded_script (h : heap) (v : value) (str : string) :
  toString refToString h v = Return str ->
  Str.includes str "&lt;script&gt;" = true ->
  Str.includes str "&lt;/script&gt;" = true ->
  is_nullish v = false /\ escapeHtml refToString h v = Return str.
Proof.
  intros Hstr H1 H2.
  assert (Hn : is_nullish v = false).
  { destruct v; try reflexivity; cbn in Hstr; injection Hstr as <-; vm_compute in H1;
      discriminate. }
  split; [exact Hn|].
  unfold escapeHtml. rewrite Hn, Hstr. cbn [bind]. unfold escapeString.
  now rewrite (encodedEntity_found _ H1), H1, H2.
Qed.

End EscapeFacts.

(** ** Rendering one variable *)

Section VariableClaims.

Variable runFunction : string -> value -> comp value.
Variable refToString : heap -> loc -> outcome string.

Local Abbreviation render' := (render runFunction refToString).

Lemma tokens_v : bind (tokenize "{{ v }}") parse = Return [VariableNode "v"].
Proof. vm_compute. reflexivity. Qed.

Lemma fast_path_v : fast_path "v" = true.
Proof. vm_compute. reflexivity. Qed.

Lemma get_keys_v : get_keys "v" = ["v"].
Proof. vm_compute. reflexivity. Qed.

(** Rendering [{{ v }}] where the context binds [v] to a value with
    string form [str]. *)
Lemma render_v (fuel : nat) (h : heap) (c : loc) (props : list (string * value))
    (v : value) (str : string) :
  1 <= fuel ->
  h !! c = Some (OObject props) ->
  lookup_prop "v" props = Some v ->
  is_nullish v = false ->
  toString refToString h v = Return str ->
  render' fuel "{{ v }}" (VRef c) h = (Return (escapeString str), h).
Proof.
  intros Hfuel Hc Hv Hn Hstr.
  rewrite (render_parsed _ _ _ _ _ _ _ tokens_v).
  now rewrite (evaluate_variable_own _ _ _ _ _ _ _ _ _ Hfuel fast_path_v get_keys_v Hc Hv Hn Hstr).
Qed.

(** C3. For every context that binds [v] to the string [<script>],
    rendering [{{ v }}] yields [&lt;script&gt;], and the output does not
    contain the substring [<script>]. *)
Theorem C3_script_is_escaped (fuel : nat) (h : heap) (c : loc)
    (props : list (string * value)) :
  1 <= fuel ->
  h !! c = Some (OObject props) ->
  lookup_prop "v" props = Some (VStr "<script>") ->
  exists out,
    render' fuel "{{ v }}" (VRef c) h = (Return out, h)
    /\ out = "&lt;script&gt;"
    /\ Str.includes out "<script>" = false.
Proof.
  intros Hfuel Hc Hv. exists "&lt;script&gt;".
  rewrite (render_v fuel h c props (VStr "<script>") "<script>"
             Hfuel Hc Hv eq_refl eq_refl).
  repeat split; try (vm_compute; reflexivity).
Qed.

(** C2, amended. For every string [s], rendering [{{ v }}] in the
    context [{v: '{{ secret }}', secret: s}] returns the literal text
    [{{ secret }}]: the value of [v] is not parsed again, and the output
    is the same for every [s], so it contains [s] exactly when the literal
    text [{{ secret }}] does. *)
Theorem C2_no_template_injection (s : string) (fuel : nat) (h : heap) (c : loc) :
  1 <= fuel ->
  h !! c = Some (OObject [("v", VStr "{{ secret }}"); ("secret", VStr s)]) ->
  exists out,
    render' fuel "{{ v }}" (VRef c) h = (Return out, h)
    /\ out = "{{ secret }}"
    /\ Str.includes out s = Str.includes "{{ secret }}" s.
Proof.
  intros Hfuel Hc. exists "{{ secret }}".
  rewrite (render_v fuel h c _ (VStr "{{ secret }}") "{{ secret }}"
             Hfuel Hc eq_refl eq_refl eq_refl).
  repeat split; try (vm_compute; reflexivity).
Qed.

(** C10. A value whose string form contains both [&lt;script&gt;] and
    [&lt;/script&gt;] is returned by [escapeHtml] unchanged, whatever else
    the string holds, and so is rendered unchanged by [{{ v }}]. *)
Theorem C10_encoded_script_bypasses_escaping (h : heap) (v : value) (str : string) :
  toString refToString h v = Return str ->
  Str.includes str "&lt;script&gt;" = true ->
  Str.includes str "&lt;/script&gt;" = true ->
  escapeHtml refToString h v = Return str
  /\ forall fuel c props,
       1 <= fuel ->
       h !! c = Some (OObject props) ->
       lookup_prop "v" props = Some v ->
       render' fuel "{{ v }}" (VRef c) h = (Return str, h).
Proof.
  intros Hstr H1 H2.
  destruct (escapeHtml_encoded_script refToString h v str Hstr H1 H2) as [Hn He].
  split; [exact He|].
  intros fuel c props Hfuel Hc Hv.
  rewrite (render_v fuel h c props v str Hfuel Hc Hv Hn Hstr).
  unfold escapeHtml in He. rewrite Hn, Hstr in He. cbn [bind] in He. now rewrite He.
Qed.

End VariableClaims.

Lemma C3_witness :
  exists out,
    render sample_runFunction sample_refToString 1 "{{ v }}" (VRef 0)
      [OObject [("name", VStr "x"); ("v", VStr "<script>")]]
    = (Return out, [OObject [("name", VStr "x"); ("v", VStr "<script>")]])
    /\ out = "&lt;script&gt;"
    /\ Str.includes out "<script>" = false.
Proof.
  apply (C3_script_is_escaped sample_runFunction sample_refToString 1
           [OObject [("name", VStr "x"); ("v", VStr "<script>")]] 0
           [("name", VStr "x"); ("v", VStr "<script>")]).
  - lia.
  - reflexivity.
  - reflexivity.
Defined.

Lemma C2_witness :
  exists out,
    render sample_runFunction sample_refToString 1 "{{ v }}" (VRef 0)
      [OObject [("v", VStr "{{ secret }}"); ("secret", VStr "hunter2")]]
    = (Return out, [OObject [("v", VStr "{{ secret }}"); ("secret", VStr "hunter2")]])
    /\ out = "{{ secret }}"
    /\ Str.includes out "hunter2" = Str.includes "{{ secret }}" "hunter2".
Proof.
  apply (C2_no_template_injection sample_runFunction sample_refToString "hunter2" 1
           [OObject [("v", VStr "{{ secret }}"); ("secret", VStr "hunter2")]] 0).
  - lia.
  - reflexivity.
Defined.

(** C2 as stated fails where it says that the output never contains the
    value of [secret]: with [secret] bound to the string [secret], the
    output [{{ secret }}] contains it. *)
Lemma C2_counterexample :
  exists out,
    render sample_runFunction sample_refToString 1 "{{ v }}" (VRef 0)
      [OObject [("v", VStr "{{ secret }}"); ("secret", VStr "secret")]]
    = (Return out, [OObject [("v", VStr "{{ secret }}"); ("secret", VStr "secret")]])
    /\ Str.includes out "secret" = true.
Proof. exists "{{ secret }}". split; vm_compute; reflexivity. Qed.

Definition encoded_script_sample : string :=
  "<script>alert(1)</script>&lt;script&gt;&lt;/script&gt;".

Lemma C10_witness :
  escapeHtml sample_refToString [OObject [("v", VStr encoded_script_sample)]]
    (VStr encoded_script_sample)
  = Return encoded_script_sample
  /\ forall fuel c props,
       1 <= fuel ->
       [OObject [("v", VStr encoded_script_sample)]] !! c = Some (OObject props) ->
       lookup_prop "v" props = Some (VStr encoded_script_sample) ->
       render sample_runFunction sample_refToString fuel "{{ v }}" (VRef c)
         [OObject [("v", VStr encoded_script_sample)]]
       = (Return encoded_script_sample, [OObject [("v", VStr encoded_script_sample)]]).
Proof.
  apply (C10_encoded_script_bypasses_escaping sample_runFunction sample_refToString
           [OObject [("v", VStr encoded_script_sample)]]
           (VStr encoded_script_sample)).
  - reflexivity.
  - reflexivity.
  - reflexivity.
Defined.

(** ** Truthiness in conditionals *)

(** The values the claim lists as rendering the else branch... *)
Inductive falsy_sample (h : heap) : value -> Prop :=
| falsy_false : falsy_sample h (VBool false)
| falsy_zero : falsy_sample h (VNum (NInt 0))
| falsy_empty_string : falsy_sample h (VStr EmptyString)
| falsy_null : falsy_sample h VNull
| falsy_undefined : falsy_sample h VUndefined
| falsy_NaN : falsy_sample h (VNum NNaN)
| falsy_empty_array (l : loc) : h !! l = Some (OArray []) -> falsy_sample h (VRef l).

(** ... and as rendering the then branch. *)
Inductive truthy_sample (h : heap) : value -> Prop :=
| truthy_true : truthy_sample h (VBool true)
| truthy_one : truthy_sample h (VNum (NInt 1))
| truthy_string : truthy_sample h (VStr "x")
| truthy_empty_object (l : loc) : h !! l = Some (OObject []) -> truthy_sample h (VRef l)
| truthy_array (l : loc) : h !! l = Some (OArray [VNum (NInt 1)]) -> truthy_sample h (VRef l).

Definition if_template : string := "{% if v %}T{% else %}F{% endif %}".

Section TruthinessClaims.

Variable runFunction : string -> value -> comp value.
Variable refToString : heap -> loc -> outcome string.

Local Abbreviation render' := (render runFunction refToString).
Local Abbreviation evaluate' := (evaluate runFunction refToString).

Lemma tokens_if :
  bind (tokenize if_template) parse = Return [IfNode "v" [TextNode "T"] [TextNode "F"]].
Proof. vm_compute. reflexivity. Qed.

Lemma evaluate_text (fuel : nat) (text : string) (c : loc) (h : heap) :
  1 <= fuel -> evaluate' fuel [TextNode text] (VRef c) h = (Return text, h).
Proof. intros H. destruct fuel; [lia|]. reflexivity. Qed.

(** Rendering the conditional template in the context [{v}]. *)
Lemma render_if (fuel : nat) (h : heap) (c : loc) (v : value) :
  2 <= fuel ->
  h !! c = Some (OObject [("v", v)]) ->
  render' fuel if_template (VRef c) h
  = (Return (if isTruthy h v then "T" else "F"), h).
Proof.
  intros Hfuel Hc.
  rewrite (render_parsed _ _ _ _ _ _ _ tokens_if).
  destruct fuel as [|fuel]; [lia|].
  unfold evaluate, evaluate_with. cbn [is_nullish].
  unfold cbind at 1. unfold ret at 1. cbn [evaluate_loop].
  unfold cbind at 1. cbn [evaluateNode evaluateNode_step].
  unfold evaluateIfNode, try_catch. unfold cbind at 1.
  rewrite (evaluateExpression_fast _ _ _ _ fast_path_v).
  rewrite (get_own h c [("v", v)] "v" v Hc eq_refl get_keys_v).
  pose proof (evaluate_text fuel "T" c h ltac:(lia)) as HT.
  pose proof (evaluate_text fuel "F" c h ltac:(lia)) as HF.
  unfold evaluate in HT, HF.
  destruct (isTruthy h v).
  - rewrite HT. reflexivity.
  - cbn [length Nat.ltb Nat.leb]. rewrite HF. reflexivity.
Qed.

(** C4. Rendering [{% if v %}T{% else %}F{% endif %}] in the context
    [{v}] yields [F] when [v] is false, 0, the empty string, null,
    undefined, NaN or an empty array, and [T] when [v] is true, 1, the
    string [x], an empty object or the array [[1]]. *)
Theorem C4_truthiness (fuel : nat) (h : heap) (c : loc) (v : value) :
  2 <= fuel ->
  h !! c = Some (OObject [("v", v)]) ->
  (falsy_sample h v -> render' fuel if_template (VRef c) h = (Return "F", h))
  /\ (truthy_sample h v -> render' fuel if_template (VRef c) h = (Return "T", h)).
Proof.
  intros Hfuel Hc. rewrite (render_if fuel h c v Hfuel Hc).
  split; intros Hv; destruct Hv; cbn [isTruthy];
    try match goal with H : h !! _ = _ |- _ => rewrite H end; reflexivity.
Qed.

End TruthinessClaims.

Definition truthiness_heap : heap :=
  [OObject [("v", VRef 1)]; OArray []; OObject [("v", VRef 3)]; OArray [VNum (NInt 1)]].

Lemma C4_witness :
  render sample_runFunction sample_refToString 2 if_template (VRef 0) truthiness_heap
  = (Return "F", truthiness_heap)
  /\ render sample_runFunction sample_refToString 2 if_template (VRef 2) truthiness_heap
     = (Return "T", truthiness_heap).
Proof.
  split.
  - apply (C4_truthiness sample_runFunction sample_refToString 2 truthiness_heap 0 (VRef 1)).
    + lia.
    + reflexivity.
    + apply falsy_empty_array. reflexivity.
  - apply (C4_truthiness sample_runFunction sample_refToString 2 truthiness_heap 2 (VRef 3)).
    + lia.
    + reflexivity.
    + apply truthy_array. reflexivity.
Defined.

(** ** Templates without markers *)

Lemma unmatched_escapedBrace (t : string) :
  Str.includes t "\{" = false -> Str.includes t "\}" = false -> unmatched escapedBrace t.
Proof.
  assert (Hhere : forall s, Str.startsWith s "\{" = false -> Str.startsWith s "\}" = false ->
                   forall prev caps k, rmatch escapedBrace (MState prev s caps) k = None).
  { intros s H1 H2 prev caps k. unfold escapedBrace. cbn [rmatch]. unfold literal.
    cbn [m_prev m_rest lit_step].
    destruct s as [|a s]; [reflexivity|]. cbn [Str.startsWith] in H1, H2.
    destruct (Ascii.eqb "\" a); [|reflexivity]. cbn [andb] in H1, H2.
    cbn [m_prev m_rest m_caps lit_step].
    destruct s as [|b s]; [reflexivity|].
    destruct (Ascii.eqb "{" b); [discriminate|].
    destruct (Ascii.eqb "}" b); [discriminate|]. reflexivity. }
  induction t as [|c t IH]; intros H1 H2; (split; [|try exact I]).
  - apply Hhere; now apply includes_head.
  - apply Hhere; now apply includes_head.
  - apply IH; eapply includes_tail; eassumption.
Qed.

Lemma eqb_empty_length (t : string) :
  String.eqb t EmptyString = negb (0 <? String.length t).
Proof. destruct t; reflexivity. Qed.

(** The tokens of a template without marker openers, escaped braces and
    placeholder texts: one text token holding the template. *)
Lemma tokenize_plain (t : string) :
  Str.includes t "{{" = false ->
  Str.includes t "{%" = false ->
  Str.includes t "\{" = false ->
  Str.includes t "\}" = false ->
  Str.includes t ESCAPED_OPEN_BRACE = false ->
  Str.includes t ESCAPED_CLOSE_BRACE = false ->
  tokenize t
  = Return (if 0 <? String.length t
            then [MkToken TEXT t (MkPosition 0 (String.length t))]
            else []).
Proof.
  intros Hv Hb He1 He2 Hp1 Hp2.
  unfold tokenize, tokenize_scan, escapeBraces.
  rewrite (unmatched_replace _ _ _ (unmatched_escapedBrace _ He1 He2)).
  unfold validateUnclosedExpressions.
  rewrite (unmatched_exec variableRegex t 0) by now apply unmatched_Seq_Lit.
  rewrite (unmatched_exec blockRegex t 0) by now apply unmatched_Seq_Lit.
  cbn [bind tokenize_loop].
  destruct (0 <? String.length t) eqn:Hlen; [|reflexivity].
  unfold patterns. cbn [earliest pat_regex seq_of].
  rewrite (unmatched_exec (Seq (Lit "{{{") _) t 0)
    by (apply unmatched_Seq_Lit; apply (includes_app_false "{{" "{"), Hv).
  rewrite (unmatched_exec (Seq (Lit "{{") _) t 0) by now apply unmatched_Seq_Lit.
  rewrite !(unmatched_exec (Seq (Lit "{%") _) t 0) by now apply unmatched_Seq_Lit.
  rewrite drop_0, eqb_empty_length, Hlen. cbn [negb].
  unfold restoreBraces.
  rewrite (unmatched_replace (Lit ESCAPED_OPEN_BRACE)) by now apply unmatched_Lit.
  rewrite (unmatched_replace (Lit ESCAPED_CLOSE_BRACE)) by now apply unmatched_Lit.
  reflexivity.
Qed.

Lemma parse_plain (t : string) :
  bind (Return (if 0 <? String.length t
                then [MkToken TEXT t (MkPosition 0 (String.length t))]
                else [])) parse
  = Return (if 0 <? String.length t then [TextNode t] else []).
Proof. destruct (0 <? String.length t); reflexivity. Qed.

(** The values a caller passes as context: an object, or nothing. *)
Inductive is_context : value -> Prop :=
| context_undefined : is_context VUndefined
| context_null : is_context VNull
| context_object (l : loc) : is_context (VRef l).

Section PlainTextClaims.

Variable runFunction : string -> value -> comp value.
Variable refToString : heap -> loc -> outcome string.

Local Abbreviation render' := (render runFunction refToString).

(** C9, amended. A template that contains no marker opener (neither
    [{{] nor [{%]), no backslash-escaped brace and neither of the two
    placeholder texts of the tokenizer is rendered unchanged, in every
    context. *)
Theorem C9_plain_text_round_trip (fuel : nat) (t : string) (c : value) (h : heap) :
  1 <= fuel ->
  is_context c ->
  Str.includes t "{{" = false ->
  Str.includes t "{%" = false ->
  Str.includes t "\{" = false ->
  Str.includes t "\}" = false ->
  Str.includes t ESCAPED_OPEN_BRACE = false ->
  Str.includes t ESCAPED_CLOSE_BRACE = false ->
  fst (render' fuel t c h) = Return t.
Proof.
  intros Hfuel Hc Hv Hb He1 He2 Hp1 Hp2.
  pose proof (tokenize_plain t Hv Hb He1 He2 Hp1 Hp2) as Htok.
  assert (Hast : bind (tokenize t) parse
                 = Return (if 0 <? String.length t then [TextNode t] else []))
    by (rewrite Htok; apply parse_plain).
  destruct fuel as [|fuel]; [lia|].
  unfold render, cbind, ret, try_catch, throw, new_object, alloc.
  destruct Hc; cbn [is_nullish typeof]; rewrite Hast;
    change (negb (String.eqb "object" "object")) with false; cbn iota beta;
    unfold evaluate, evaluate_with, cbind, ret; cbn [is_nullish];
    destruct t as [|a t]; reflexivity.
Qed.

End PlainTextClaims.

Lemma C9_witness :
  fst (render sample_runFunction sample_refToString 1 "Hello, { world } 100%" VNull [])
  = Return "Hello, { world } 100%".
Proof.
  apply (C9_plain_text_round_trip sample_runFunction sample_refToString 1
           "Hello, { world } 100%" VNull []).
  - lia.
  - apply context_null.
  - reflexivity.
  - reflexivity.
  - reflexivity.
  - reflexivity.
  - reflexivity.
  - reflexivity.
Defined.

(** C9 as stated fails on a template with an escaped brace: it contains no
    marker, and the backslash is dropped from the output. *)
Lemma C9_counterexample :
  Str.includes "a \{ b" "{{" = false
  /\ Str.includes "a \{ b" "{%" = false
  /\ fst (render sample_runFunction sample_refToString 1 "a \{ b" VNull []) = Return "a { b"
  /\ "a { b" <> "a \{ b".
Proof. repeat split; try (vm_compute; reflexivity). discriminate. Qed.

(** ** Loops over arrays *)

Lemma digits_of_uint (d : Decimal.uint) :
  Str.forallb Str.is_digit (NilEmpty.string_of_uint d) = true.
Proof. induction d; simpl; auto. Qed.

Lemma of_nat_digits (n : nat) : Str.forallb Str.is_digit (Str.of_nat n) = true.
Proof.
  unfold Str.of_nat, Str.of_Z. destruct (Z.of_nat n) eqn:E; [reflexivity| |lia].
  cbn [Z.to_int NilZero.string_of_int]. unfold NilZero.string_of_uint.
  destruct (Pos.to_uint p) eqn:Ep; try reflexivity; rewrite <- Ep; apply digits_of_uint.
Qed.

Lemma digit_is_plain (c : ascii) : Str.is_digit c = true -> plain_char c = true.
Proof.
  unfold Str.is_digit, Str.between, Str.code, plain_char. intros H.
  apply andb_true_iff in H as [H1 H2]. apply Nat.leb_le in H1, H2.
  cbn [existsb]. apply negb_true_iff.
  repeat (apply orb_false_iff; split); try reflexivity;
    apply Ascii.eqb_neq; intros ->; vm_compute in H1, H2; lia.
Qed.

Lemma escapeString_of_nat (n : nat) : escapeString (Str.of_nat n) = Str.of_nat n.
Proof.
  apply escapeString_plain. eapply forallb_impl; [apply digit_is_plain|apply of_nat_digits].
Qed.

Lemma append_empty_r (s : string) : s +:+ EmptyString = s.
Proof.
  induction s as [|a s IH]; [reflexivity|].
  change (String a (s +:+ EmptyString) = String a s). now rewrite IH.
Qed.

Lemma append_assoc (a b c : string) : (a +:+ b) +:+ c = a +:+ (b +:+ c).
Proof.
  induction a as [|x a IH]; [reflexivity|].
  change (String x ((a +:+ b) +:+ c) = String x (a +:+ (b +:+ c))). now rewrite IH.
Qed.

Definition index_template : string := "{% for x,i in xs %}{{i}}{% endfor %}".

Section LoopClaims.

Variable runFunction : string -> value -> comp value.
Variable refToString : heap -> loc -> outcome string.

Local Abbreviation render' := (render runFunction refToString).
Local Abbreviation evaluateNode' := (evaluateNode runFunction refToString).

Lemma tokens_index :
  bind (tokenize index_template) parse
  = Return [ForNode "x" (Some "i") "xs" [VariableNode "i"]].
Proof. vm_compute. reflexivity. Qed.

Lemma fast_path_i : fast_path "i" = true.
Proof. vm_compute. reflexivity. Qed.

Lemma get_keys_i : get_keys "i" = ["i"].
Proof. vm_compute. reflexivity. Qed.

Lemma fast_path_xs : fast_path "xs" = true.
Proof. vm_compute. reflexivity. Qed.

Lemma get_keys_xs : get_keys "xs" = ["xs"].
Proof. vm_compute. reflexivity. Qed.

(** One iteration: the body [{{i}}] prints the index, and the objects
    already in the store stay as they are. *)
Lemma loop_body_prints_index (f : nat) (h : heap) (c l : loc) (xs : list value) (i : nat) :
  1 <= f ->
  h !! c = Some (OObject [("xs", VRef l)]) ->
  h !! l = Some (OArray xs) ->
  exists h',
    evaluateArrayLoop_body (evaluateNode' f) "x" (Some "i") [VariableNode "i"] (VRef c) l i h
    = (Return (Str.of_nat i), h')
    /\ h' !! c = h !! c /\ h' !! l = h !! l.
Proof.
  intros Hf Hc Hl.
  pose proof (lookup_lt_Some _ _ _ Hc) as Hclt.
  pose proof (lookup_lt_Some _ _ _ Hl) as Hllt.
  unfold evaluateArrayLoop_body, array_elems. rewrite Hl.
  set (item := match xs !! i with Some v => v | None => VUndefined end).
  unfold cbind at 1. unfold new_object at 1, alloc.
  unfold cbind at 1. unfold new_object at 1, alloc.
  cbn [spread]. rewrite Hc.
  change (set_prop "loop" (VRef (length h)) (set_prop "x" item [("xs", VRef l)]))
    with [("xs", VRef l); ("x", item); ("loop", VRef (length h))].
  set (h1 := h ++ [loop_record i (length xs)]).
  set (props := [("xs", VRef l); ("x", item); ("loop", VRef (length h))]).
  unfold cbind at 1. change (String.eqb "i" EmptyString) with false. cbn iota.
  unfold store_prop.
  assert (Hlc : (h1 ++ [OObject props]) !! length h1 = Some (OObject props))
    by apply list_lookup_middle, eq_refl.
  rewrite Hlc.
  change (set_prop "i" (number_of_nat i) props)
    with (props ++ [("i", number_of_nat i)]).
  set (h3 := <[length h1 := OObject (props ++ [("i", number_of_nat i)])]> (h1 ++ [OObject props])).
  assert (Hlen1 : length h1 = S (length h)) by (unfold h1; rewrite length_app; simpl; lia).
  assert (H3 : h3 !! length h1 = Some (OObject (props ++ [("i", number_of_nat i)]))).
  { unfold h3. apply list_lookup_insert_eq. rewrite length_app. simpl. lia. }
  assert (Hold : forall k, k < length h -> h3 !! k = h !! k).
  { intros k Hk. unfold h3. rewrite list_lookup_insert_ne by lia.
    rewrite lookup_app_l by lia. unfold h1. now rewrite lookup_app_l by lia. }
  exists h3. split; [|split; rewrite Hold by assumption; assumption].
  pose proof (evaluate_variable_own runFunction refToString f "i" (length h1) h3
                (props ++ [("i", number_of_nat i)]) (number_of_nat i) (Str.of_nat i)
                Hf fast_path_i get_keys_i H3 eq_refl eq_refl eq_refl) as Hev.
  unfold evaluate in Hev. rewrite Hev. now rewrite escapeString_of_nat.
Qed.

(** The iterations from index [i] on print the indices [i], ..., [n-1]. *)
Lemma loop_prints_indices (f : nat) (c l : loc) (xs : list value) :
  1 <= f ->
  forall k i steps result h,
    i + k = length xs ->
    k < steps ->
    h !! c = Some (OObject [("xs", VRef l)]) ->
    h !! l = Some (OArray xs) ->
    exists h',
      evaluateArrayLoop_from (evaluateNode' f) steps "x" (Some "i") [VariableNode "i"]
        (VRef c) l i result h
      = (Return (result +:+ Str.concat (map Str.of_nat (seq i k))), h').
Proof.
  intros Hf. induction k as [|k IH]; intros i steps result h Hik Hsteps Hc Hl;
    (destruct steps as [|steps]; [lia|]); cbn [evaluateArrayLoop_from];
    unfold array_elems; rewrite Hl.
  - replace (i <? length xs) with false by (symmetry; apply Nat.ltb_ge; lia).
    exists h. cbn [seq map Str.concat]. now rewrite append_empty_r.
  - replace (i <? length xs) with true by (symmetry; apply Nat.ltb_lt; lia).
    destruct (loop_body_prints_index f h c l xs i Hf Hc Hl) as (h1 & Hbody & Hc1 & Hl1).
    unfold cbind at 1. rewrite Hbody.
    rewrite Hc in Hc1. rewrite Hl in Hl1.
    destruct (IH (i + 1) steps (result +:+ Str.of_nat i) h1 ltac:(lia) ltac:(lia) Hc1 Hl1)
      as (h' & Hrest).
    exists h'. rewrite Hrest. rewrite Nat.add_1_r. cbn [seq map Str.concat].
    now rewrite append_assoc.
Qed.

(** C7. For an array [xs] of length [n], rendering
    [{% for x,i in xs %}{{i}}{% endfor %}] in the context [{xs}] emits the
    numerals of 0, 1, ..., n-1 in this order, and the empty string when
    [n] is 0. *)
Theorem C7_loop_emits_indices (fuel : nat) (h : heap) (c l : loc) (xs : list value) :
  length xs + 2 <= fuel ->
  h !! c = Some (OObject [("xs", VRef l)]) ->
  h !! l = Some (OArray xs) ->
  fst (render' fuel index_template (VRef c) h)
  = Return (Str.concat (map Str.of_nat (seq 0 (length xs))))
  /\ (length xs = 0 -> fst (render' fuel index_template (VRef c) h) = Return EmptyString).
Proof.
  intros Hfuel Hc Hl.
  assert (Hmain : fst (render' fuel index_template (VRef c) h)
                  = Return (Str.concat (map Str.of_nat (seq 0 (length xs))))).
  { rewrite (render_parsed _ _ _ _ _ _ _ tokens_index).
    destruct fuel as [|f]; [lia|].
    unfold evaluate, evaluate_with. cbn [is_nullish].
    unfold cbind at 1. unfold ret at 1. cbn [evaluate_loop].
    unfold cbind at 1. cbn [evaluateNode evaluateNode_step].
    unfold evaluateForNode, try_catch. unfold cbind at 1.
    rewrite (evaluateExpression_fast _ _ _ _ fast_path_xs).
    rewrite (get_own h c [("xs", VRef l)] "xs" (VRef l) Hc eq_refl get_keys_xs).
    cbn [is_nullish]. rewrite Hl. unfold evaluateArrayLoop.
    destruct (loop_prints_indices f c l xs ltac:(lia) (length xs) 0 f EmptyString h
                eq_refl ltac:(lia) Hc Hl) as (h' & Hloop).
    rewrite Hloop. reflexivity. }
  split; [exact Hmain|].
  intros Hn. rewrite Hmain, Hn. reflexivity.
Qed.

End LoopClaims.

Definition index_heap : heap :=
  [OObject [("xs", VRef 1)]; OArray [VStr "a"; VNull; VStr "c"]].

Lemma C7_witness :
  fst (render sample_runFunction sample_refToString 5 index_template (VRef 0) index_heap)
  = Return "012".
Proof.
  exact (proj1 (C7_loop_emits_indices sample_runFunction sample_refToString 5 index_heap 0 1
                  [VStr "a"; VNull; VStr "c"]
                  ltac:(simpl; lia) eq_refl eq_refl)).
Defined.

(** ** The iterable of a for loop *)

(** The values [evaluateForNode] refuses: booleans, numbers, and objects
    without a numeric length. *)
Inductive not_iterable (h : heap) : value -> Prop :=
| not_iterable_bool (b : bool) : not_iterable h (VBool b)
| not_iterable_number (n : number) : not_iterable h (VNum n)
| not_iterable_object (l : loc) (props : list (string * value)) :
    h !! l = Some (OObject props) ->
    (forall n, lookup_prop "length" props <> Some (VNum n)) ->
    not_iterable h (VRef l).

Definition huge_length_heap : heap :=
  [OObject [("xs", VRef 1)]; OObject [("length", VNum (NInt 4294967296))]].

(** C6 as stated fails for an array-like object whose length no array can
    have: [Array.from] raises a RangeError and the node raises an evaluation
    error instead of iterating. *)
Lemma C6_counterexample :
  typeof (VRef 1) = "object"
  /\ ref_get huge_length_heap 1 "length" = VNum (NInt 4294967296)
  /\ evaluateNode sample_runFunction sample_refToString 2
       (ForNode "x" None "xs" [TextNode "."]) (VRef 0) huge_length_heap
     = (Throw (new_EvaluationError "Failed to evaluate for loop: xs"), huge_length_heap).
Proof. repeat split; vm_compute; reflexivity. Qed.

(** ** Block structure *)

(** The open blocks while a token sequence is read from left to right: an
    if block remembers whether its else was seen. *)
Inductive frame : Type :=
| InIf (else_seen : bool)
| InFor.

Inductive verdict : Type :=
| WellNested
| DanglingStart        (* an if or for is still open at the end *)
| StrayTerminator      (* else, endif or endfor with no open block *)
| WrongEnd             (* endif closing a for, or endfor closing an if *)
| MisplacedElse        (* else directly inside a for, or a second else *)
| BadHeader.           (* a blank condition or a malformed loop header *)

(** The stack discipline of block tags, first defect first. *)
Fixpoint nesting (tokens : list Token) (stack : list frame) : verdict :=
  match tokens with
  | [] => match stack with [] => WellNested | _ :: _ => DanglingStart end
  | token :: rest =>
      match t_type token with
      | TEXT | VARIABLE => nesting rest stack
      | IF_START =>
          if String.eqb (Str.trim (t_value token)) EmptyString then BadHeader
          else nesting rest (InIf false :: stack)
      | FOR_START =>
          match parseForHeader (t_value token) with
          | None => BadHeader
          | Some _ => nesting rest (InFor :: stack)
          end
      | ELSE =>
          match stack with
          | [] => StrayTerminator
          | InIf false :: stack' => nesting rest (InIf true :: stack')
          | _ => MisplacedElse
          end
      | IF_END =>
          match stack with
          | [] => StrayTerminator
          | InIf _ :: stack' => nesting rest stack'
          | InFor :: _ => WrongEnd
          end
      | FOR_END =>
          match stack with
          | [] => StrayTerminator
          | InFor :: stack' => nesting rest stack'
          | InIf _ :: _ => WrongEnd
          end
      end
  end.

(** The balance the claim speaks of: every if closed by an endif and every
    for by an endfor, in stack order; nothing else is looked at. *)
Fixpoint blocks_balanced (tokens : list Token) (stack : list TokenType) : bool :=
  match tokens with
  | [] => match stack with [] => true | _ :: _ => false end
  | token :: rest =>
      match t_type token with
      | IF_START => blocks_balanced rest (IF_START :: stack)
      | FOR_START => blocks_balanced rest (FOR_START :: stack)
      | IF_END =>
          match stack with
          | IF_START :: stack' => blocks_balanced rest stack'
          | _ => false
          end
      | FOR_END =>
          match stack with
          | FOR_START :: stack' => blocks_balanced rest stack'
          | _ => false
          end
      | _ => blocks_balanced rest stack
      end
  end.

Definition is_terminator (token : Token) : bool :=
  match t_type token with
  | IF_END | FOR_END | ELSE => true
  | _ => false
  end.

Definition stops_at_terminator (rest : list Token) : Prop :=
  match rest with
  | [] => True
  | token :: _ => is_terminator token = true
  end.

(** What a call of [parseNodes] on [tokens] may return. *)
Definition nodes_ok (tokens : list Token) (r : outcome (list ASTNode * list Token)) : Prop :=
  match r with
  | Return (_, rest) =>
      length rest <= length tokens
      /\ (forall stack, nesting tokens stack = nesting rest stack)
      /\ stops_at_terminator rest
  | Throw _ => forall stack, nesting tokens stack <> WellNested
  | Diverge => False
  end.

(** What a call of [parseIfStatement] or [parseForLoop] may return, for
    the block that [start] opens before [tokens]. *)
Definition block_ok (start : Token) (tokens : list Token) (r : outcome (ASTNode * list Token))
  : Prop :=
  match r with
  | Return (_, rest) =>
      length rest < length tokens
      /\ (forall stack, nesting (start :: tokens) stack = nesting rest stack)
  | Throw _ => forall stack, nesting (start :: tokens) stack <> WellNested
  | Diverge => False
  end.

Lemma parseNodes_S (fuel : nat) (token : Token) (rest : list Token) :
  parseNodes (S fuel) (token :: rest)
  = match t_type token with
    | TEXT =>
        bind (parseNodes fuel rest) (fun '(nodes, rest') =>
        Return (TextNode (t_value token) :: nodes, rest'))
    | VARIABLE =>
        bind (parseNodes fuel rest) (fun '(nodes, rest') =>
        Return (VariableNode (t_value token) :: nodes, rest'))
    | IF_START =>
        bind (parseIfStatement fuel token rest) (fun '(node, rest') =>
        bind (parseNodes fuel rest') (fun '(nodes, rest'') =>
        Return (node :: nodes, rest'')))
    | FOR_START =>
        bind (parseForLoop fuel token rest) (fun '(node, rest') =>
        bind (parseNodes fuel rest') (fun '(nodes, rest'') =>
        Return (node :: nodes, rest'')))
    | IF_END | FOR_END | ELSE => Return ([], token :: rest)
    end.
Proof. reflexivity. Qed.

Lemma parseIfStatement_S (fuel : nat) (ifToken : Token) (tokens : list Token) :
  parseIfStatement (S fuel) ifToken tokens
  = if String.eqb (Str.trim (t_value ifToken)) EmptyString
    then Throw (new_ParseError "Empty if condition")
    else
      bind (parseNodes fuel tokens) (fun '(body, rest) =>
      bind (match rest with
            | token :: rest' =>
                if TokenType_eqb (t_type token) ELSE
                then parseNodes fuel rest'
                else Return ([], rest)
            | [] => Return ([], rest)
            end) (fun '(elseBody, rest') =>
      match rest' with
      | token :: rest'' =>
          if TokenType_eqb (t_type token) IF_END
          then Return (IfNode (Str.trim (t_value ifToken)) body elseBody, rest'')
          else Throw (new_ParseError "Unmatched if statement")
      | [] => Throw (new_ParseError "Unmatched if statement")
      end)).
Proof. reflexivity. Qed.

Lemma parseForLoop_S (fuel : nat) (forToken : Token) (tokens : list Token) :
  parseForLoop (S fuel) forToken tokens
  = match parseForHeader (t_value forToken) with
    | None => Throw (new_ParseError "Invalid for loop syntax")
    | Some (item, index, iterable) =>
        bind (parseNodes fuel tokens) (fun '(body, rest) =>
        match rest with
        | token :: rest' =>
            if TokenType_eqb (t_type token) FOR_END
            then Return (ForNode item index iterable body, rest')
            else Throw (new_ParseError "Unmatched for loop")
        | [] => Throw (new_ParseError "Unmatched for loop")
        end)
    end.
Proof. reflexivity. Qed.

Lemma parseIfStatement_ok (fuel : nat) (ifToken : Token) (tokens : list Token) :
  (forall toks, 2 * length toks + 1 <= fuel -> nodes_ok toks (parseNodes fuel toks)) ->
  t_type ifToken = IF_START ->
  2 * length tokens + 1 <= fuel ->
  block_ok ifToken tokens (parseIfStatement (S fuel) ifToken tokens).
Proof.
  intros IH Hty Hfuel. rewrite parseIfStatement_S.
  assert (Hhead : forall stack,
             nesting (ifToken :: tokens) stack
             = if String.eqb (Str.trim (t_value ifToken)) EmptyString then BadHeader
               else nesting tokens (InIf false :: stack))
    by (intros stack; cbn [nesting]; now rewrite Hty).
  destruct (String.eqb (Str.trim (t_value ifToken)) EmptyString).
  { intros stack. rewrite Hhead. discriminate. }
  pose proof (IH tokens Hfuel) as Hbody.
  destruct (parseNodes fuel tokens) as [[body rest]|e|]; cbn [bind nodes_ok] in *;
    [|intros stack; rewrite Hhead; apply Hbody|contradiction].
  destruct Hbody as (Hlen & Hnest & Hstop).
  destruct rest as [|token rest'].
  { cbn [bind]. intros stack. rewrite Hhead, Hnest. discriminate. }
  cbn [stops_at_terminator] in Hstop. unfold is_terminator in Hstop.
  cbn [length] in Hlen.
  destruct (t_type token) eqn:Etok; try discriminate; cbn [TokenType_eqb].
  - (* else *)
    pose proof (IH rest' ltac:(lia)) as Helse.
    destruct (parseNodes fuel rest') as [[elseBody rest2]|e|]; cbn [bind nodes_ok] in *;
      [| |contradiction].
    + destruct Helse as (Hlen2 & Hnest2 & Hstop2).
      assert (Hall : forall stack,
                 nesting (ifToken :: tokens) stack = nesting rest2 (InIf true :: stack)).
      { intros stack. rewrite Hhead, Hnest. cbn [nesting]. rewrite Etok. apply Hnest2. }
      destruct rest2 as [|token2 rest3].
      * intros stack. rewrite Hall. discriminate.
      * cbn [stops_at_terminator] in Hstop2. unfold is_terminator in Hstop2.
        cbn [length] in Hlen2.
        destruct (t_type token2) eqn:Etok2; try discriminate; cbn [TokenType_eqb block_ok].
        -- intros stack. rewrite Hall. cbn [nesting]. rewrite Etok2. discriminate.
        -- split; [lia|]. intros stack. rewrite Hall. cbn [nesting]. now rewrite Etok2.
        -- intros stack. rewrite Hall. cbn [nesting]. rewrite Etok2. discriminate.
    + intros stack. rewrite Hhead, Hnest. cbn [nesting]. rewrite Etok. apply Helse.
  - (* endif *)
    cbn [bind]. rewrite Etok. cbn [TokenType_eqb block_ok]. split; [lia|].
    intros stack. rewrite Hhead, Hnest. cbn [nesting]. now rewrite Etok.
  - (* endfor *)
    cbn [bind]. rewrite Etok. cbn [TokenType_eqb block_ok].
    intros stack. rewrite Hhead, Hnest. cbn [nesting]. rewrite Etok. discriminate.
Qed.

Lemma parseForLoop_ok (fuel : nat) (forToken : Token) (tokens : list Token) :
  (forall toks, 2 * length toks + 1 <= fuel -> nodes_ok toks (parseNodes fuel toks)) ->
  t_type forToken = FOR_START ->
  2 * length tokens + 1 <= fuel ->
  block_ok forToken tokens (parseForLoop (S fuel) forToken tokens).
Proof.
  intros IH Hty Hfuel. rewrite parseForLoop_S.
  assert (Hhead : forall stack,
             nesting (forToken :: tokens) stack
             = match parseForHeader (t_value forToken) with
               | None => BadHeader
               | Some _ => nesting tokens (InFor :: stack)
               end)
    by (intros stack; cbn [nesting]; now rewrite Hty).
  destruct (parseForHeader (t_value forToken)) as [[[item index] iterable]|].
  2:{ intros stack. rewrite Hhead. discriminate. }
  pose proof (IH tokens Hfuel) as Hbody.
  destruct (parseNodes fuel tokens) as [[body rest]|e|]; cbn [bind nodes_ok] in *;
    [|intros stack; rewrite Hhead; apply Hbody|contradiction].
  destruct Hbody as (Hlen & Hnest & Hstop).
  destruct rest as [|token rest'].
  { intros stack. rewrite Hhead, Hnest. discriminate. }
  cbn [stops_at_terminator] in Hstop. unfold is_terminator in Hstop.
  cbn [length] in Hlen.
  destruct (t_type token) eqn:Etok; try discriminate; cbn [TokenType_eqb block_ok].
  - intros stack. rewrite Hhead, Hnest. cbn [nesting]. rewrite Etok. discriminate.
  - intros stack. rewrite Hhead, Hnest. cbn [nesting]. rewrite Etok. discriminate.
  - split; [lia|]. intros stack. rewrite Hhead, Hnest. cbn [nesting]. now rewrite Etok.
Qed.

(** [parseNodes] with enough fuel follows the stack discipline and stops
    at the first terminator of the enclosing block. *)
Lemma parseNodes_ok (fuel : nat) :
  forall tokens, 2 * length tokens + 1 <= fuel -> nodes_ok tokens (parseNodes fuel tokens).
Proof.
  induction fuel as [fuel IH] using lt_wf_ind. intros tokens Hfuel.
  destruct fuel as [|fuel]; [lia|].
  destruct tokens as [|token rest].
  { cbn. repeat split; auto. }
  rewrite parseNodes_S. cbn [length] in Hfuel.
  assert (IHnodes : forall toks, 2 * length toks + 1 <= fuel ->
                      nodes_ok toks (parseNodes fuel toks))
    by (intros toks Ht; apply IH; lia).
  destruct (t_type token) eqn:Etok.
  - (* text *)
    pose proof (IHnodes rest ltac:(lia)) as Hrest.
    destruct (parseNodes fuel rest) as [[nodes rest']|e|]; cbn [bind nodes_ok] in *;
      [|intros stack; cbn [nesting]; rewrite Etok; apply Hrest|contradiction].
    destruct Hrest as (Hlen & Hnest & Hstop). cbn [length]. repeat split; [lia| |exact Hstop].
    intros stack. cbn [nesting]. rewrite Etok. apply Hnest.
  - (* variable *)
    pose proof (IHnodes rest ltac:(lia)) as Hrest.
    destruct (parseNodes fuel rest) as [[nodes rest']|e|]; cbn [bind nodes_ok] in *;
      [|intros stack; cbn [nesting]; rewrite Etok; apply Hrest|contradiction].
    destruct Hrest as (Hlen & Hnest & Hstop). cbn [length]. repeat split; [lia| |exact Hstop].
    intros stack. cbn [nesting]. rewrite Etok. apply Hnest.
  - (* if *)
    destruct fuel as [|fuel']; [lia|].
    assert (IHinner : forall toks, 2 * length toks + 1 <= fuel' ->
                        nodes_ok toks (parseNodes fuel' toks))
      by (intros toks Ht; apply IH; lia).
    pose proof (parseIfStatement_ok fuel' token rest IHinner Etok ltac:(lia)) as Hblock.
    destruct (parseIfStatement (S fuel') token rest) as [[node rest']|e|];
      cbn [bind block_ok] in *; [|exact Hblock|contradiction].
    destruct Hblock as (Hlen & Hnest).
    pose proof (IHnodes rest' ltac:(lia)) as Hrest.
    destruct (parseNodes (S fuel') rest') as [[nodes rest'']|e|]; cbn [bind nodes_ok] in *;
      [|intros stack; rewrite Hnest; apply Hrest|contradiction].
    destruct Hrest as (Hlen2 & Hnest2 & Hstop). cbn [length].
    repeat split; [lia| |exact Hstop]. intros stack. rewrite Hnest. apply Hnest2.
  - (* else *)
    cbn [nodes_ok]. repeat split; auto. unfold stops_at_terminator, is_terminator.
    now rewrite Etok.
  - (* endif *)
    cbn [nodes_ok]. repeat split; auto. unfold stops_at_terminator, is_terminator.
    now rewrite Etok.
  - (* for *)
    destruct fuel as [|fuel']; [lia|].
    assert (IHinner : forall toks, 2 * length toks + 1 <= fuel' ->
                        nodes_ok toks (parseNodes fuel' toks))
      by (intros toks Ht; apply IH; lia).
    pose proof (parseForLoop_ok fuel' token rest IHinner Etok ltac:(lia)) as Hblock.
    destruct (parseForLoop (S fuel') token rest) as [[node rest']|e|];
      cbn [bind block_ok] in *; [|exact Hblock|contradiction].
    destruct Hblock as (Hlen & Hnest).
    pose proof (IHnodes rest' ltac:(lia)) as Hrest.
    destruct (parseNodes (S fuel') rest') as [[nodes rest'']|e|]; cbn [bind nodes_ok] in *;
      [|intros stack; rewrite Hnest; apply Hrest|contradiction].
    destruct Hrest as (Hlen2 & Hnest2 & Hstop). cbn [length].
    repeat split; [lia| |exact Hstop]. intros stack. rewrite Hnest. apply Hnest2.
  - (* endfor *)
    cbn [nodes_ok]. repeat split; auto. unfold stops_at_terminator, is_terminator.
    now rewrite Etok.
Qed.

(** [parse] returns an AST exactly for the well-nested token sequences,
    throws for the others, and always terminates. *)
Lemma parse_nesting (tokens : list Token) :
  match parse tokens with
  | Return _ => nesting tokens [] = WellNested
  | Throw _ => nesting tokens [] <> WellNested
  | Diverge => False
  end.
Proof.
  unfold parse. pose proof (parseNodes_ok (2 * length tokens + 1) tokens (le_n _)) as H.
  destruct (parseNodes _ tokens) as [[nodes rest]|e|]; cbn [bind nodes_ok] in *;
    [|apply H|exact H].
  destruct H as (_ & Hnest & Hstop). rewrite Hnest.
  destruct rest as [|token rest]; [reflexivity|].
  cbn [stops_at_terminator] in Hstop. unfold is_terminator in Hstop.
  cbn [nesting]. destruct (t_type token); try discriminate.
Qed.

(** The stack of [validateMismatchedBlocks] holds the start tokens of the
    open blocks. *)
Definition frame_of_token (fr : frame) (token : Token) : Prop :=
  match fr with
  | InIf _ => t_type token = IF_START
  | InFor => t_type token = FOR_START
  end.

Lemma validateMismatchedBlocks_loop_ok (tokens : list Token) :
  forall frames stack,
    nesting tokens frames = WellNested ->
    Forall2 frame_of_token frames stack ->
    validateMismatchedBlocks_loop tokens stack = Return tt.
Proof.
  induction tokens as [|token rest IH]; intros frames stack Hn Hst; [reflexivity|].
  cbn [nesting validateMismatchedBlocks_loop] in *.
  destruct (t_type token) eqn:Etok.
  - eauto.
  - eauto.
  - destruct (String.eqb (Str.trim (t_value token)) EmptyString); [discriminate|].
    apply (IH _ _ Hn). constructor; [exact Etok|exact Hst].
  - destruct frames as [|[[]|] frames]; try discriminate.
    apply (IH _ _ Hn). inversion Hst; subst. constructor; assumption.
  - destruct frames as [|[e|] frames]; try discriminate.
    inversion Hst as [|fr tok frs toks Hfr Hrest]; subst. cbn [frame_of_token] in Hfr.
    rewrite Hfr. cbn [blockPairs TokenType_eqb]. eauto.
  - destruct (parseForHeader (t_value token)); [|discriminate].
    apply (IH _ _ Hn). constructor; [exact Etok|exact Hst].
  - destruct frames as [|[e|] frames]; try discriminate.
    inversion Hst as [|fr tok frs toks Hfr Hrest]; subst. cbn [frame_of_token] in Hfr.
    rewrite Hfr. cbn [blockPairs TokenType_eqb]. eauto.
Qed.

Lemma no_open_frames : Forall2 frame_of_token [] [].
Proof. constructor. Qed.

Lemma validateMismatchedBlocks_total (tokens : list Token) :
  forall stack, validateMismatchedBlocks_loop tokens stack <> Diverge.
Proof.
  induction tokens as [|token rest IH]; intros stack; cbn [validateMismatchedBlocks_loop];
    [discriminate|].
  destruct (t_type token); auto; destruct stack as [|lastBlock stack]; auto;
    destruct (blockPairs (t_type lastBlock)); try discriminate;
    destruct (TokenType_eqb _ _); auto; discriminate.
Qed.

(** The pipeline before evaluation, on a template whose scan gives [tokens]. *)
Lemma pipeline_nesting (t : string) (tokens : list Token) :
  tokenize_scan t = Return tokens ->
  match bind (tokenize t) parse with
  | Return _ => nesting tokens [] = WellNested
  | Throw _ => nesting tokens [] <> WellNested
  | Diverge => False
  end.
Proof.
  intros Hscan. unfold tokenize. rewrite Hscan. cbn [bind].
  destruct (nesting tokens []) eqn:Hn.
  1:{ unfold validateMismatchedBlocks.
      rewrite (validateMismatchedBlocks_loop_ok tokens [] [] Hn no_open_frames).
      cbn [bind]. pose proof (parse_nesting tokens) as Hp.
      destruct (parse tokens); auto. }
  all: pose proof (validateMismatchedBlocks_total tokens []) as Hv;
    unfold validateMismatchedBlocks;
    destruct (validateMismatchedBlocks_loop tokens []) as [[]|e|]; cbn [bind];
    [|discriminate|congruence];
    pose proof (parse_nesting tokens) as Hp; rewrite Hn in Hp;
    destruct (parse tokens); auto; discriminate.
Qed.

Section StructureClaims.

Variable runFunction : string -> value -> comp value.
Variable refToString : heap -> loc -> outcome string.

Local Abbreviation render' := (render runFunction refToString).

Lemma render_throws_before_evaluation (fuel : nat) (t : string) (e : error)
    (c : value) (h : heap) :
  bind (tokenize t) parse = Throw e ->
  exists e' h', render' fuel t c h = (Throw e', h').
Proof.
  intros H. unfold render, cbind, ret, try_catch, throw, new_object, alloc.
  destruct c; cbn [is_nullish typeof]; rewrite ?H;
    try change (negb (String.eqb "object" "object")) with false;
    try change (negb (String.eqb "undefined" "object")) with true;
    try change (negb (String.eqb "boolean" "object")) with true;
    try change (negb (String.eqb "number" "object")) with true;
    try change (negb (String.eqb "string" "object")) with true;
    cbn iota beta; eauto.
Qed.

End StructureClaims.

Definition closed_if_template : string := "{% if a %}x{% else %}y{% endif %}".
Definition open_if_template : string := "{% if a %}x".

Definition headless_for_template : string := "{% for x %}{% endfor %}".

(** C5 as stated fails on a template whose only for is closed by its
    endfor: the loop header is malformed and the parser throws. *)
Lemma C5_counterexample :
  exists tokens,
    tokenize headless_for_template = Return tokens
    /\ blocks_balanced tokens [] = true
    /\ parse tokens = Throw (new_ParseError "Invalid for loop syntax").
Proof.
  exists [MkToken FOR_START "x" (MkPosition 0 11); MkToken FOR_END EmptyString (MkPosition 11 23)].
  repeat split; vm_compute; reflexivity.
Qed.

(** ** The screens of the expression evaluator *)

Lemma evaluateExpression_general (runFunction : string -> value -> comp value)
    (expression : string) (context : value) (h : heap) :
  general_path expression = true ->
  evaluateExpression runFunction expression context h
  = try_catch (callGeneratedFunction runFunction expression context)
      (evaluateExpression_catch expression context) h.
Proof.
  unfold general_path, evaluateExpression. intros H.
  repeat (apply andb_true_iff in H as [H ?]).
  repeat match goal with
         | H : negb _ = true |- _ => apply negb_true_iff in H; rewrite H
         end.
  reflexivity.
Qed.

(** An expression with a literal index before a computed access by a bare
    identifier, and a context for it. *)
Definition indirection : string := "a[0][k]".

Definition indirection_heap : heap :=
  [OObject [("a", VRef 1); ("k", VStr "constructor")]; OArray [VRef 2]; OObject []].

(** C1 fails on the code.  The check of computed accesses reads the first
    bracket of the expression only: in [a[0][k]] it sees the numeric key and
    lets the expression through, although [[k]] has a bare identifier as
    key.  No security error is raised; the expression reaches the generated
    function, and what that function returns is returned. *)
Theorem C1_later_bracket_is_not_screened :
  Str.includes indirection "[k]" = true
  /\ computedAccessBlocked indirection = false
  /\ forall runFunction : string -> value -> comp value,
       evaluateExpression runFunction indirection (VRef 0) indirection_heap
       = try_catch (runFunction (funcCode ["a"; "k"] indirection) (VRef 0))
           (evaluateExpression_catch indirection (VRef 0)) indirection_heap
       /\ forall v h',
            runFunction (funcCode ["a"; "k"] indirection) (VRef 0) indirection_heap
            = (Return v, h') ->
            evaluateExpression runFunction indirection (VRef 0) indirection_heap
            = (Return v, h').
Proof.
  split; [vm_compute; reflexivity|]. split; [vm_compute; reflexivity|].
  intros runFunction.
  assert (H : evaluateExpression runFunction indirection (VRef 0) indirection_heap
              = try_catch (runFunction (funcCode ["a"; "k"] indirection) (VRef 0))
                  (evaluateExpression_catch indirection (VRef 0)) indirection_heap).
  { rewrite evaluateExpression_general by (vm_compute; reflexivity). reflexivity. }
  split; [exact H|].
  intros v h' Hrun. rewrite H. unfold try_catch. now rewrite Hrun.
Qed.

(** ** The store during evaluation *)

(** An expression that assigns through the parameter of the generated
    function, and a context for it. *)
Definition assignment : string := "ctx.v = 5".

Definition counter_heap : heap := [OObject [("v", VNum (NInt 1))]].

(** A runtime for the function text generated for [assignment]: it stores
    5 in the property [v] of its argument and returns 5, as the assignment
    expression does. *)
Definition assigning_runFunction : string -> value -> comp value :=
  fun _ ctx =>
    match ctx with
    | VRef l => let* _ := store_prop l "v" (VNum (NInt 5)) in ret (VNum (NInt 5))
    | _ => ret VUndefined
    end.

(** C8 fails on the code.  A variable node whose expression is not a plain
    property path is run by the generated function on the context object of
    the caller itself, not on a copy: the store after [evaluate] is the one
    the function leaves.  With a runtime that performs the assignment
    [ctx.v = 5], the binding of [v] in the context of the caller changes
    from 1 to 5. *)
Theorem C8_expression_writes_context :
  general_path assignment = true
  /\ (forall (runFunction : string -> value -> comp value)
             (refToString : heap -> loc -> outcome string) fuel n h',
        runFunction (funcCode ["v"] assignment) (VRef 0) counter_heap
        = (Return (VNum n), h') ->
        evaluate runFunction refToString (S fuel) [VariableNode assignment] (VRef 0)
          counter_heap
        = (Return (escapeString (number_to_string n)), h'))
  /\ evaluate assigning_runFunction sample_refToString 1 [VariableNode assignment] (VRef 0)
       counter_heap
     = (Return "5", [OObject [("v", VNum (NInt 5))]]).
Proof.
  split; [vm_compute; reflexivity|]. split; [|vm_compute; reflexivity].
  intros runFunction refToString fuel n h' Hrun.
  unfold evaluate, evaluate_with. cbn [is_nullish].
  unfold cbind at 1. unfold ret at 1. cbn [evaluate_loop].
  unfold cbind at 1. cbn [evaluateNode evaluateNode_step].
  unfold evaluateVariable, try_catch, cbind.
  rewrite evaluateExpression_general by (vm_compute; reflexivity).
  unfold try_catch, callGeneratedFunction.
  change (safeKeys counter_heap (VRef 0)) with (Return ["v"] : outcome (list string)).
  cbv beta iota. rewrite Hrun. reflexivity.
Qed.

(** ** What the evaluator itself does to the store *)

(** [extends h h']: the store [h'] holds every object of [h], unchanged,
    and possibly new ones after them. *)
Definition extends (h h' : heap) : Prop := exists new, h' = h ++ new.

(** A computation that only allocates. *)
Definition grows {A : Type} (m : comp A) : Prop :=
  forall h r h', m h = (r, h') -> extends h h'.

Lemma extends_refl (h : heap) : extends h h.
Proof. exists []. now rewrite app_nil_r. Qed.

Lemma extends_trans (h1 h2 h3 : heap) : extends h1 h2 -> extends h2 h3 -> extends h1 h3.
Proof. intros [a ->] [b ->]. exists (a ++ b). now rewrite app_assoc. Qed.

Lemma extends_alloc (h : heap) (o : object) : extends h (h ++ [o]).
Proof. now exists [o]. Qed.

Lemma extends_lookup (h h' : heap) (l : loc) (o : object) :
  extends h h' -> h !! l = Some o -> h' !! l = Some o.
Proof. intros [new ->] H. now apply lookup_app_l_Some. Qed.

Lemma grows_ret {A : Type} (a : A) : grows (ret a).
Proof. intros h r h' H. injection H as <- <-. apply extends_refl. Qed.

Lemma grows_throw {A : Type} (e : error) : grows (@throw A e).
Proof. intros h r h' H. injection H as <- <-. apply extends_refl. Qed.

Lemma grows_pure {A : Type} (f : heap -> outcome A) : grows (fun h => (f h, h)).
Proof. intros h r h' H. injection H as <- <-. apply extends_refl. Qed.

Lemma grows_cbind {A B : Type} (m : comp A) (f : A -> comp B) :
  grows m -> (forall a, grows (f a)) -> grows (cbind m f).
Proof.
  intros Hm Hf h r h' H. unfold cbind in H.
  destruct (m h) as [[a|e|] h1] eqn:E; specialize (Hm _ _ _ E).
  - eapply extends_trans; [exact Hm|]. eapply Hf, H.
  - now injection H as <- <-.
  - now injection H as <- <-.
Qed.

Lemma grows_try_catch {A : Type} (m : comp A) (handler : error -> comp A) :
  grows m -> (forall e, grows (handler e)) -> grows (try_catch m handler).
Proof.
  intros Hm Hh h r h' H. unfold try_catch in H.
  destruct (m h) as [[a|e|] h1] eqn:E; specialize (Hm _ _ _ E).
  - now injection H as <- <-.
  - eapply extends_trans; [exact Hm|]. eapply Hh, H.
  - now injection H as <- <-.
Qed.

Lemma grows_new_object (o : object) : grows (new_object o).
Proof. intros h r h' H. injection H as <- <-. apply extends_alloc. Qed.

(** A choice that reads the store. *)
Lemma grows_read {A : Type} (m : heap -> comp A) :
  (forall h0, grows (m h0)) -> grows (fun h => m h h).
Proof. intros Hm h r h' H. eapply Hm, H. Qed.

(** Writing a property of the object allocated last replaces that object. *)
Lemma store_prop_last (h : heap) (o : object) (key : string) (v : value) :
  exists o', snd (store_prop (length h) key v (h ++ [o])) = h ++ [o'].
Proof.
  unfold store_prop. rewrite list_lookup_middle by reflexivity.
  destruct o as [elems|props]; cbn [snd]; [now exists (OArray elems)|].
  exists (OObject (set_prop key v props)).
  rewrite insert_app_r_alt by lia. now rewrite Nat.sub_diag.
Qed.

Create HintDb store.
#[local] Hint Resolve grows_ret grows_throw grows_cbind grows_try_catch grows_new_object
  grows_pure extends_refl : store.

(** The nodes all of whose expressions satisfy [P]. *)
Inductive expressions (P : string -> Prop) : ASTNode -> Prop :=
| expressions_text (text : string) : expressions P (TextNode text)
| expressions_variable (expression : string) :
    P expression -> expressions P (VariableNode expression)
| expressions_if (condition : string) (body elseBody : list ASTNode) :
    P condition ->
    Forall (expressions P) body ->
    Forall (expressions P) elseBody ->
    expressions P (IfNode condition body elseBody)
| expressions_for (item : string) (index : option string) (iterable : string)
    (body : list ASTNode) :
    P iterable ->
    Forall (expressions P) body ->
    expressions P (ForNode item index iterable body).

Section StoreFacts.

Variable runFunction : string -> value -> comp value.
Variable refToString : heap -> loc -> outcome string.

(** The expressions whose evaluation only allocates. *)
Variable P : string -> Prop.
Hypothesis P_grows :
  forall expression context, P expression ->
    grows (evaluateExpression runFunction expression context).

Lemma evaluateVariable_grows (expression : string) (context : value) :
  P expression -> grows (evaluateVariable runFunction refToString expression context).
Proof.
  intros HP. unfold evaluateVariable. apply grows_try_catch.
  - apply grows_cbind; [now apply P_grows|].
    intros v. destruct (is_nullish v); auto with store.
  - intros e. repeat destruct (Str.includes _ _); auto with store.
Qed.

Section StepFacts.

Variable evaluateNode : ASTNode -> value -> comp string.
Variable good : ASTNode -> Prop.
Hypothesis evaluateNode_grows :
  forall node context, good node -> grows (evaluateNode node context).

Lemma evaluate_loop_grows (nodes : list ASTNode) :
  Forall good nodes ->
  forall context result, grows (evaluate_loop evaluateNode nodes context result).
Proof.
  induction 1 as [|node nodes Hnode Hnodes IH]; intros context result; cbn [evaluate_loop];
    auto with store.
Qed.

Lemma evaluate_with_grows (nodes : list ASTNode) (context : value) :
  Forall good nodes -> grows (evaluate_with evaluateNode nodes context).
Proof.
  intros Hnodes. unfold evaluate_with. apply grows_cbind.
  - destruct (is_nullish context); auto with store.
  - intros c. now apply evaluate_loop_grows.
Qed.

Lemma evaluateIfNode_grows (condition : string) (body elseBody : list ASTNode)
    (context : value) :
  P condition -> Forall good body -> Forall good elseBody ->
  grows (evaluateIfNode runFunction evaluateNode condition body elseBody context).
Proof.
  intros HP Hbody Helse. unfold evaluateIfNode. apply grows_try_catch.
  - apply grows_cbind; [now apply P_grows|]. intros v h r h' H.
    destruct (isTruthy h v); [exact (evaluate_with_grows _ _ Hbody _ _ _ H)|].
    destruct (0 <? length elseBody); [exact (evaluate_with_grows _ _ Helse _ _ _ H)|].
    injection H as <- <-. apply extends_refl.
  - intros e. destruct (Str.includes _ _); auto with store.
Qed.

(** One iteration allocates the loop record and the derived context, and
    writes the index into the derived context only. *)
Lemma evaluateArrayLoop_body_grows (item : string) (index : option string)
    (body : list ASTNode) (context : value) (array : loc) (i : nat) :
  Forall good body ->
  grows (evaluateArrayLoop_body evaluateNode item index body context array i).
Proof.
  intros Hbody h r h' H. unfold evaluateArrayLoop_body in H.
  unfold cbind at 1 in H. unfold new_object at 1, alloc in H.
  unfold cbind at 1 in H. unfold new_object at 1, alloc in H.
  set (h1 := h ++ [loop_record i (length (array_elems h array))]) in *.
  set (props := set_prop "loop" _ _) in H.
  assert (Hh1 : extends h h1) by apply extends_alloc.
  assert (Hwrite : forall key v,
             extends h (snd (store_prop (length h1) key v (h1 ++ [OObject props])))).
  { intros key v. destruct (store_prop_last h1 (OObject props) key v) as [o' ->].
    eapply extends_trans; [exact Hh1|apply extends_alloc]. }
  unfold cbind in H.
  destruct index as [name|]; [destruct (String.eqb name EmptyString)|].
  - cbn [ret] in H. eapply extends_trans; [|exact (evaluate_with_grows _ _ Hbody _ _ _ H)].
    eapply extends_trans; [exact Hh1|apply extends_alloc].
  - specialize (Hwrite name (number_of_nat i)).
    destruct (store_prop (length h1) name (number_of_nat i) (h1 ++ [OObject props]))
      as [[[]|e|] h2] eqn:E; cbn [snd] in Hwrite.
    + eapply extends_trans; [exact Hwrite|]. exact (evaluate_with_grows _ _ Hbody _ _ _ H).
    + now injection H as <- <-.
    + now injection H as <- <-.
  - cbn [ret] in H. eapply extends_trans; [|exact (evaluate_with_grows _ _ Hbody _ _ _ H)].
    eapply extends_trans; [exact Hh1|apply extends_alloc].
Qed.

Lemma evaluateArrayLoop_from_grows (item : string) (index : option string)
    (body : list ASTNode) (context : value) (array : loc) :
  Forall good body ->
  forall steps i result,
    grows (evaluateArrayLoop_from evaluateNode steps item index body context array i result).
Proof.
  intros Hbody. induction steps as [|steps IH]; intros i result h r h' H;
    cbn [evaluateArrayLoop_from] in H.
  - injection H as <- <-. apply extends_refl.
  - destruct (i <? length (array_elems h array)).
    + revert H. apply grows_cbind; [now apply evaluateArrayLoop_body_grows|].
      intros out. apply IH.
    + injection H as <- <-. apply extends_refl.
Qed.

Lemma evaluateForNode_catch_grows (iterable : string) (e : error) :
  grows (evaluateForNode_catch iterable e).
Proof.
  unfold evaluateForNode_catch. destruct (e_class e); try destruct (Str.includes _ _);
    auto with store.
Qed.

Lemma evaluateForNode_grows (steps : nat) (item : string) (index : option string)
    (iterable : string) (body : list ASTNode) (context : value) :
  P iterable -> Forall good body ->
  grows (evaluateForNode runFunction evaluateNode steps item index iterable body context).
Proof.
  intros HP Hbody. unfold evaluateForNode.
  apply grows_try_catch; [|apply evaluateForNode_catch_grows].
  apply grows_cbind; [now apply P_grows|]. intros v h r h' H.
  pose proof (fun l => evaluateArrayLoop_from_grows item index body context l Hbody
                         steps 0 EmptyString) as Hloop.
  destruct (is_nullish v); [injection H as <- <-; apply extends_refl|].
  destruct v as [| | | |s|l]; try (injection H as <- <-; apply extends_refl).
  - revert H. apply grows_cbind; [apply grows_new_object|]. intros l. apply Hloop.
  - destruct (h !! l) as [[elems|props]|]; try (injection H as <- <-; apply extends_refl).
    + eapply Hloop, H.
    + destruct (object_get (OObject props) "length");
        try (injection H as <- <-; apply extends_refl).
      destruct (arrayFrom_arrayLike (OObject props) n);
        try (injection H as <- <-; apply extends_refl).
      revert H. apply grows_cbind; [apply grows_new_object|]. intros l'. apply Hloop.
Qed.

End StepFacts.

(** Every node evaluation only allocates, as long as the evaluation of its
    expressions does. *)
Lemma evaluateNode_grows (fuel : nat) :
  forall node context,
    expressions P node -> grows (evaluateNode runFunction refToString fuel node context).
Proof.
  induction fuel as [|fuel IH]; intros node context Hnode; cbn [evaluateNode].
  - apply (grows_pure (fun _ => Diverge)).
  - destruct Hnode; cbn [evaluateNode_step].
    + apply grows_ret.
    + now apply evaluateVariable_grows.
    + now apply (evaluateIfNode_grows _ (expressions P)).
    + now apply (evaluateForNode_grows _ (expressions P)).
Qed.

Lemma evaluate_grows (fuel : nat) (nodes : list ASTNode) (context : value) :
  Forall (expressions P) nodes ->
  grows (evaluate runFunction refToString fuel nodes context).
Proof.
  intros H. unfold evaluate. apply (evaluate_with_grows _ (expressions P)); [|exact H].
  intros node c. apply evaluateNode_grows.
Qed.

End StoreFacts.

(** The expressions whose generated function changes no object that exists
    when it is called, whatever keys are declared in it and whatever
    context it is called on.  A function that only reads its context is of
    this kind; one that assigns to a property of [ctx] is not. *)
Definition read_only (runFunction : string -> value -> comp value) (expression : string)
  : Prop :=
  forall keys context, grows (runFunction (funcCode keys expression) context).

(** Evaluating an expression only allocates when the function generated
    for it does ... *)
Lemma evaluateExpression_grows_generated (runFunction : string -> value -> comp value)
    (expression : string) :
  read_only runFunction expression ->
  forall context, grows (evaluateExpression runFunction expression context).
Proof.
  intros Hrun context h r h' H. unfold evaluateExpression in H.
  repeat match type of H with
         | (if ?b then _ else _) = _ => destruct b
         | match ?o with Return _ => _ | Throw _ => _ | Diverge => _ end = _ => destruct o
         end;
    try (injection H as <- <-; apply extends_refl).
  revert H. apply grows_try_catch.
  - intros h0 r0 h0' H0. unfold callGeneratedFunction in H0.
    destruct (safeKeys h0 context); try (injection H0 as <- <-; apply extends_refl).
    eapply Hrun, H0.
  - intros e. unfold evaluateExpression_catch.
    destruct (Str.includes _ _); [apply grows_throw|].
    destruct (test _ _); [apply (grows_pure (fun h0 => Return (get h0 context expression)))|].
    apply grows_throw.
Qed.

(** ... and leaves the store alone when no function is generated. *)
Lemma evaluateExpression_grows_path (runFunction : string -> value -> comp value)
    (expression : string) (context : value) :
  general_path expression = false ->
  grows (evaluateExpression runFunction expression context).
Proof.
  intros Hpath h r h' H. unfold evaluateExpression in H. unfold general_path in Hpath.
  repeat match type of H with
         | (if ?b then _ else _) = _ => destruct b eqn:?
         | match ?o with Return _ => _ | Throw _ => _ | Diverge => _ end = _ => destruct o
         end;
    try (injection H as <- <-; apply extends_refl).
  discriminate.
Qed.

Lemma all_expressions (node : ASTNode) : expressions (fun _ => True) node.
Proof.
  revert node. fix IH 1. intros [text|expression|condition body elseBody|item index iterable body].
  - constructor.
  - now constructor.
  - constructor; [exact I| |].
    + induction body as [|n body IHb]; constructor; [apply IH|exact IHb].
    + induction elseBody as [|n elseBody IHb]; constructor; [apply IH|exact IHb].
  - constructor; [exact I|].
    induction body as [|n body IHb]; constructor; [apply IH|exact IHb].
Qed.

(** The node lists that never reach the generated function: every
    expression is resolved, or rejected, before. *)
Definition path_only (nodes : list ASTNode) : Prop :=
  Forall (expressions (fun expression => general_path expression = false)) nodes.

(** The part of C8 that holds (1).  When no expression of the node list is
    handed to a generated function, [evaluate] changes no object that
    existed before the call, whatever the loops bind: the context of the
    caller holds the same bindings afterwards. *)
Theorem evaluate_path_only_keeps_store (runFunction : string -> value -> comp value)
    (refToString : heap -> loc -> outcome string) (fuel : nat) (nodes : list ASTNode)
    (context : value) (h h' : heap) (r : outcome string) :
  path_only nodes ->
  evaluate runFunction refToString fuel nodes context h = (r, h') ->
  forall l o, h !! l = Some o -> h' !! l = Some o.
Proof.
  intros Hnodes Heval l o Hl. eapply extends_lookup; [|exact Hl].
  eapply (evaluate_grows runFunction refToString
            (fun expression => general_path expression = false)); [|exact Hnodes|exact Heval].
  intros expression c. apply evaluateExpression_grows_path.
Qed.


(** A loop whose variable and index shadow keys of the context. *)
Definition shadowing_nodes : list ASTNode :=
  [ForNode "v" (Some "n") "xs" [VariableNode "v"; VariableNode "n"]; VariableNode "v"].

Definition shadowing_heap : heap :=
  [OObject [("v", VStr "outer"); ("n", VStr "count"); ("xs", VRef 1)];
   OArray [VStr "a"; VStr "b"]].

Lemma shadowing_nodes_path_only : path_only shadowing_nodes.
Proof.
  unfold path_only, shadowing_nodes.
  repeat match goal with
         | |- Forall _ [] => constructor
         | |- Forall _ (_ :: _) => constructor
         | |- expressions _ _ => constructor
         | |- general_path _ = false => vm_compute; reflexivity
         end.
Qed.

Lemma evaluate_path_only_keeps_store_witness :
  fst (evaluate sample_runFunction sample_refToString 4 shadowing_nodes (VRef 0) shadowing_heap)
  = Return "a0b1outer"
  /\ snd (evaluate sample_runFunction sample_refToString 4 shadowing_nodes (VRef 0)
            shadowing_heap) !! 0
     = Some (OObject [("v", VStr "outer"); ("n", VStr "count"); ("xs", VRef 1)]).
Proof.
  split; [vm_compute; reflexivity|].
  exact (evaluate_path_only_keeps_store sample_runFunction sample_refToString 4
           shadowing_nodes (VRef 0) shadowing_heap _ _
           shadowing_nodes_path_only (surjective_pairing _) 0 _ eq_refl).
Defined.

(** A runtime for the function text generated for [v + 1]: it reads the
    property [v] of its argument, which the text declares as the constant
    [v], and returns the number after it. *)
Definition incrementing_runFunction : string -> value -> comp value :=
  fun code ctx h =>
    if Str.includes code "return v + 1;" then
      match ctx with
      | VRef l =>
          match ref_get h l "v" with
          | VNum (NInt z) => (Return (VNum (NInt (z + 1))), h)
          | _ => (Throw (MkError PlainError "Unsupported operand" None), h)
          end
      | _ => (Return VUndefined, h)
      end
    else (Throw (MkError PlainError "Unexpected token" None), h).

Lemma incrementing_runFunction_read_only (expression : string) :
  read_only incrementing_runFunction expression.
Proof.
  intros keys context h r h' H. unfold incrementing_runFunction in H.
  destruct (Str.includes _ _); [|injection H as <- <-; apply extends_refl].
  destruct context; try (injection H as <- <-; apply extends_refl).
  destruct (ref_get h l "v") as [| | |[]| |]; injection H as <- <-; apply extends_refl.
Qed.

Lemma incrementing_nodes_read_only :
  Forall (expressions (read_only incrementing_runFunction))
    [VariableNode "v + 1"; VariableNode "v"].
Proof.
  repeat constructor; apply incrementing_runFunction_read_only.
Qed.


(** ** The iterable of a for loop, element by element *)

Section ForNodeClaims.

Variable runFunction : string -> value -> comp value.
Variable refToString : heap -> loc -> outcome string.

Local Abbreviation evaluateNode' := (evaluateNode runFunction refToString).

(** The expressions whose evaluation changes no object that exists
    before: every expression that is looked up as a path or rejected,
    and every expression whose generated function is read-only. *)
Definition keeps_objects (expression : string) : Prop :=
  forall context, grows (evaluateExpression runFunction expression context).

(** One round of a loop, for the element [x] at position [i] of [n]: the
    body is evaluated in a fresh context that holds the bindings of
    [context], the element under the name [item], the loop record under
    the name [loop], and the position under the name [index] if the loop
    has one. *)
Definition round (fuel : nat) (item : string) (index : option string) (body : list ASTNode)
    (context : value) (n i : nat) (x : value) : comp string :=
  fun h =>
    (let* loopRecord := new_object (loop_record i n) in
     let* loopContext :=
       new_object (OObject (set_prop "loop" (VRef loopRecord)
                              (set_prop item x (spread h context)))) in
     let* _ :=
       match index with
       | Some name =>
           if String.eqb name EmptyString then ret tt
           else store_prop loopContext name (number_of_nat i)
       | None => ret tt
       end in
     evaluate runFunction refToString fuel body (VRef loopContext)) h.

(** The elements [xs] one after the other, from position [i] on: the
    outputs of the rounds are appended to [result] in order, and a round
    that throws ends the loop. *)
Fixpoint each (round : nat -> value -> comp string) (xs : list value) (i : nat)
    (result : string) : comp string :=
  match xs with
  | [] => ret result
  | x :: xs' =>
      let* out := round i x in
      each round xs' (i + 1) (result +:+ out)
  end.

(** A for node that iterates [xs] element by element; an error of a
    round goes through the catch clause of the node. *)
Definition element_by_element (fuel : nat) (item : string) (index : option string)
    (iterable : string) (body : list ASTNode) (context : value) (xs : list value)
  : comp string :=
  try_catch
    (each (round fuel item index body context (length xs)) xs 0 EmptyString)
    (evaluateForNode_catch iterable).

Lemma keeps_objects_grows (expression : string) (context : value) :
  keeps_objects expression -> grows (evaluateExpression runFunction expression context).
Proof. intros H. apply H. Qed.

(** The round of the code, which reads the element and the length from
    the array, is the round for that element. *)
Lemma evaluateArrayLoop_body_round (f : nat) (item : string) (index : option string)
    (body : list ASTNode) (context : value) (l : loc) (xs : list value) (i : nat) (x : value)
    (h : heap) :
  h !! l = Some (OArray xs) ->
  xs !! i = Some x ->
  evaluateArrayLoop_body (evaluateNode' f) item index body context l i h
  = round f item index body context (length xs) i x h.
Proof.
  intros Hl Hi. unfold evaluateArrayLoop_body, round, array_elems. rewrite Hl, Hi. reflexivity.
Qed.

(** The loop of the code over the array at [l] runs the rounds for the
    elements the array holds when the loop starts, as long as the body
    leaves the array alone. *)
Lemma evaluateArrayLoop_from_each (f : nat) (item : string) (index : option string)
    (body : list ASTNode) (context : value) (l : loc) :
  Forall (expressions keeps_objects) body ->
  forall rest done steps result h,
    length rest < steps ->
    h !! l = Some (OArray (done ++ rest)) ->
    evaluateArrayLoop_from (evaluateNode' f) steps item index body context l
      (length done) result h
    = each (round f item index body context (length (done ++ rest))) rest
        (length done) result h.
Proof.
  intros Hbody. induction rest as [|x rest IH]; intros done steps result h Hsteps Hl;
    (destruct steps as [|steps]; [cbn [length] in Hsteps; lia|]);
    cbn [evaluateArrayLoop_from each]; unfold array_elems at 1; rewrite Hl, length_app.
  - replace (length done <? length done + length []) with false
      by (symmetry; apply Nat.ltb_ge; cbn; lia).
    reflexivity.
  - replace (length done <? length done + length (x :: rest)) with true
      by (symmetry; apply Nat.ltb_lt; cbn; lia).
    assert (Hi : (done ++ x :: rest) !! length done = Some x)
      by apply list_lookup_middle, eq_refl.
    unfold cbind at 1 2.
    rewrite (evaluateArrayLoop_body_round f item index body context l _ _ x h Hl Hi).
    rewrite length_app.
    destruct (round f item index body context (length done + length (x :: rest))
                (length done) x h) as [[out|e|] h2] eqn:E; try reflexivity.
    assert (Hext : extends h h2).
    { rewrite <- length_app in E.
      rewrite <- (evaluateArrayLoop_body_round f item index body context l _ _ x h Hl Hi) in E.
      eapply (evaluateArrayLoop_body_grows (evaluateNode' f) (expressions keeps_objects));
        [|exact Hbody|exact E].
      intros node c. apply (evaluateNode_grows runFunction refToString keeps_objects).
      intros expression c'. apply keeps_objects_grows. }
    pose proof (extends_lookup _ _ _ _ Hext Hl) as Hl2.
    replace (done ++ x :: rest) with ((done ++ [x]) ++ rest) in Hl2
      by (now rewrite <- app_assoc).
    cbn [length] in Hsteps.
    specialize (IH (done ++ [x]) steps (result +:+ out) h2 ltac:(lia) Hl2).
    rewrite !length_app in IH. cbn [length] in IH |- *.
    replace (length done + S (length rest)) with (length done + 1 + length rest) by lia.
    exact IH.
Qed.

Lemma evaluateArrayLoop_each (fuel : nat) (item : string) (index : option string)
    (iterable : string) (body : list ASTNode) (context : value) (l : loc) (xs : list value)
    (h : heap) :
  Forall (expressions keeps_objects) body ->
  length xs < fuel ->
  h !! l = Some (OArray xs) ->
  try_catch (evaluateArrayLoop (evaluateNode' fuel) fuel item index body context l)
    (evaluateForNode_catch iterable) h
  = element_by_element fuel item index iterable body context xs h.
Proof.
  intros Hbody Hfuel Hl. unfold element_by_element, try_catch, evaluateArrayLoop.
  pose proof (evaluateArrayLoop_from_each fuel item index body context l Hbody xs []
                fuel EmptyString h Hfuel Hl) as Hloop.
  cbn [length app] in Hloop. now rewrite Hloop.
Qed.

Lemma arrayLike_elements (props : list (string * value)) (n : nat) :
  map (fun i => object_get (OObject props) (Str.of_nat i)) (seq 0 n)
  = map (fun i => match lookup_prop (Str.of_nat i) props with
                  | Some x => x
                  | None => VUndefined
                  end) (seq 0 n).
Proof. reflexivity. Qed.

(** C6, amended. Let the iterable expression of a for node evaluate to
    [v].  If [v] is null or undefined the node renders the empty string.
    If [v] is an array, a string, or an object with a numeric length that
    an array can have (at most 2^32 - 1), and evaluating the expressions
    of the body changes no existing object, the node iterates element by
    element: over the elements of the array, over the characters of the
    string, or over the properties [0], ..., [length - 1] of the object
    (undefined where one is missing), each round evaluating the body in a
    fresh context that binds the element, and the outputs concatenated in
    order.  An array-like object with a larger length, and every other
    value (a boolean, a number, an object without numeric length), raises
    an evaluation error. *)
Theorem C6_for_node_iterables (fuel : nat) (item : string) (index : option string)
    (iterable : string) (body : list ASTNode) (context : value) (h h1 : heap) (v : value) :
  evaluateExpression runFunction iterable context h = (Return v, h1) ->
  (is_nullish v = true ->
   evaluateNode' (S fuel) (ForNode item index iterable body) context h
   = (Return EmptyString, h1))
  /\ (forall l xs,
        v = VRef l -> h1 !! l = Some (OArray xs) ->
        Forall (expressions keeps_objects) body -> length xs < fuel ->
        evaluateNode' (S fuel) (ForNode item index iterable body) context h
        = element_by_element fuel item index iterable body context xs h1)
  /\ (forall s characters,
        v = VStr s ->
        characters = map (fun c => VStr (String c EmptyString)) (Str.chars s) ->
        Forall (expressions keeps_objects) body -> String.length s < fuel ->
        evaluateNode' (S fuel) (ForNode item index iterable body) context h
        = element_by_element fuel item index iterable body context characters
            (h1 ++ [OArray characters]))
  /\ (forall l props n elements,
        v = VRef l -> h1 !! l = Some (OObject props) ->
        lookup_prop "length" props = Some (VNum n) ->
        (toLength n <= MAX_ARRAY_LENGTH)%Z ->
        elements = map (fun i => match lookup_prop (Str.of_nat i) props with
                                 | Some x => x
                                 | None => VUndefined
                                 end) (seq 0 (Z.to_nat (toLength n))) ->
        Forall (expressions keeps_objects) body -> Z.to_nat (toLength n) < fuel ->
        evaluateNode' (S fuel) (ForNode item index iterable body) context h
        = element_by_element fuel item index iterable body context elements
            (h1 ++ [OArray elements]))
  /\ (forall l props n,
        v = VRef l -> h1 !! l = Some (OObject props) ->
        lookup_prop "length" props = Some (VNum n) ->
        (MAX_ARRAY_LENGTH < toLength n)%Z ->
        evaluateNode' (S fuel) (ForNode item index iterable body) context h
        = (Throw (new_EvaluationError ("Failed to evaluate for loop: " +:+ iterable)), h1))
  /\ (not_iterable h1 v ->
      evaluateNode' (S fuel) (ForNode item index iterable body) context h
      = (Throw (new_EvaluationError ("Value is not iterable: " +:+ typeof v)), h1)).
Proof.
  intros Hexpr. cbn [evaluateNode evaluateNode_step].
  repeat split.
  - intros Hn. unfold evaluateForNode, try_catch, cbind. rewrite Hexpr. cbv beta.
    now rewrite Hn.
  - intros l xs -> Hl Hbody Hfuel.
    rewrite <- (evaluateArrayLoop_each fuel item index iterable body context l xs h1
                  Hbody Hfuel Hl).
    unfold evaluateForNode, try_catch, cbind. rewrite Hexpr.
    cbn [is_nullish]; cbv beta iota. now rewrite Hl.
  - intros s characters -> -> Hbody Hfuel.
    set (characters := map (fun c => VStr (String c EmptyString)) (Str.chars s)).
    assert (Hlen : length characters < fuel).
    { unfold characters. rewrite length_map.
      replace (length (Str.chars s)) with (String.length s); [exact Hfuel|].
      clear. induction s as [|c s IH]; cbn; auto. }
    assert (Hl : (h1 ++ [OArray characters]) !! length h1 = Some (OArray characters))
      by apply list_lookup_middle, eq_refl.
    rewrite <- (evaluateArrayLoop_each fuel item index iterable body context (length h1)
                  characters _ Hbody Hlen Hl).
    unfold evaluateForNode, try_catch, cbind. rewrite Hexpr.
    cbn [is_nullish]; cbv beta iota. reflexivity.
  - intros l props n elements -> Hl Hlen Hle -> Hbody Hfuel.
    set (elements := map _ (seq 0 (Z.to_nat (toLength n)))).
    assert (Hsize : length elements < fuel)
      by (unfold elements; now rewrite length_map, length_seq).
    assert (Hnew : (h1 ++ [OArray elements]) !! length h1 = Some (OArray elements))
      by apply list_lookup_middle, eq_refl.
    rewrite <- (evaluateArrayLoop_each fuel item index iterable body context (length h1)
                  elements _ Hbody Hsize Hnew).
    unfold evaluateForNode, try_catch, cbind. rewrite Hexpr.
    cbn [is_nullish]; cbv beta iota. rewrite Hl.
    cbn [object_get]. rewrite Hlen. unfold arrayFrom_arrayLike.
    replace (MAX_ARRAY_LENGTH <? toLength n)%Z with false
      by (symmetry; apply Z.ltb_ge; exact Hle).
    rewrite arrayLike_elements. reflexivity.
  - intros l props n -> Hl Hlen Hlt.
    unfold evaluateForNode, try_catch, cbind. rewrite Hexpr.
    cbn [is_nullish]; cbv beta iota. rewrite Hl.
    cbn [object_get]. rewrite Hlen. unfold arrayFrom_arrayLike.
    replace (MAX_ARRAY_LENGTH <? toLength n)%Z with true
      by (symmetry; apply Z.ltb_lt; exact Hlt).
    reflexivity.
  - intros Hv. unfold evaluateForNode, try_catch, cbind. rewrite Hexpr.
    destruct Hv as [b|n|l props Hl Hlen]; cbn [is_nullish]; cbv beta iota; try reflexivity.
    rewrite Hl. cbn [object_get].
    destruct (lookup_prop "length" props) as [[]|] eqn:E; try reflexivity.
    now specialize (Hlen n).
Qed.

End ForNodeClaims.

Definition word_heap : heap := [OObject [("s", VStr "a<")]].

Lemma printing_body_keeps_objects :
  Forall (expressions (keeps_objects sample_runFunction))
    [VariableNode "x"; VariableNode "i"].
Proof.
  repeat constructor; intros context; apply evaluateExpression_grows_path;
    vm_compute; reflexivity.
Qed.

Lemma C6_witness :
  fst (evaluateNode sample_runFunction sample_refToString 4
         (ForNode "x" (Some "i") "s" [VariableNode "x"; VariableNode "i"]) (VRef 0) word_heap)
  = Return "a0&lt;1".
Proof.
  rewrite (proj1 (proj2 (proj2
             (C6_for_node_iterables sample_runFunction sample_refToString 3 "x" (Some "i") "s"
                [VariableNode "x"; VariableNode "i"] (VRef 0) word_heap word_heap (VStr "a<")
                ltac:(vm_compute; reflexivity))))
             "a<" _ eq_refl eq_refl printing_body_keeps_objects ltac:(cbn; lia)).
  vm_compute. reflexivity.
Defined.

(* ================================================================== *)
(** * Further properties of the code *)

(** ** More on the matcher *)

(** The loop of a starred pattern, by itself. *)
Fixpoint star_loop (m : mstate -> kont -> option mstate) (k : kont) (fuel : nat) (st : mstate)
  : option mstate :=
  match fuel with
  | 0 => k st
  | S fuel' =>
      match m st (fun st' =>
              if String.length (m_rest st') <? String.length (m_rest st)
              then star_loop m k fuel' st' else None) with
      | Some out => Some out
      | None => k st
      end
  end.

(** Matching depends on the continuation only through its results. *)
Lemma rmatch_ext (r : regex) :
  forall st k1 k2, (forall st', k1 st' = k2 st') -> rmatch r st k1 = rmatch r st k2.
Proof.
  induction r as [w|w|p|a IHa b IHb|a IHa b IHb|a IHa|i a IHa| | | |a IHa];
    intros st k1 k2 Hk; cbn [rmatch].
  - unfold literal. destruct (lit_step _ _ _ _) as [[]|]; auto.
  - unfold literal. destruct (lit_step _ _ _ _) as [[]|]; auto.
  - destruct (m_rest st); [reflexivity|]. destruct (p a); auto.
  - apply IHa. intros st'. now apply IHb.
  - rewrite (IHa st k1 k2 Hk), (IHb st k1 k2 Hk). reflexivity.
  - generalize (String.length (m_rest st)) as fuel. intros fuel. revert st.
    induction fuel as [|fuel IH]; intros st; [apply Hk|].
    rewrite (IHa st _ (fun st' =>
               if String.length (m_rest st') <? String.length (m_rest st)
               then (fix loop (fuel : nat) (st : mstate) {struct fuel} : option mstate :=
                       match fuel with
                       | 0 => k2 st
                       | S fuel' =>
                           match rmatch a st (fun st' =>
                                   if String.length (m_rest st') <? String.length (m_rest st)
                                   then loop fuel' st' else None) with
                           | Some out => Some out
                           | None => k2 st
                           end
                       end) fuel st'
               else None)).
    + now rewrite Hk.
    + intros st'. destruct (_ <? _); [apply IH|reflexivity].
  - apply IHa. intros st'. apply Hk.
  - destruct (xorb _ _); auto.
  - destruct (m_prev st); auto.
  - destruct (m_rest st); auto.
  - destruct (rmatch a st _); auto.
Qed.

Lemma rmatch_Star (a : regex) (st : mstate) (k : kont) :
  rmatch (Star a) st k = star_loop (rmatch a) k (String.length (m_rest st)) st.
Proof.
  cbn [rmatch]. generalize (String.length (m_rest st)) as fuel. intros fuel. revert st.
  induction fuel as [|fuel IH]; intros st; [reflexivity|].
  cbn [star_loop].
  erewrite rmatch_ext; [reflexivity|].
  intros st'. cbv beta. destruct (_ <? _); [apply IH|reflexivity].
Qed.

(** A successful match hands the continuation a state further right. *)
Lemma rmatch_progress (r : regex) :
  forall st k out,
    rmatch r st k = Some out ->
    exists st', k st' = Some out
                /\ String.length (m_rest st') <= String.length (m_rest st).
Proof.
  induction r as [w|w|p|a IHa b IHb|a IHa b IHb|a IHa|i a IHa| | | |a IHa];
    intros st k out H.
  - cbn [rmatch] in H. unfold literal in H.
    destruct (lit_step _ w (m_prev st) (m_rest st)) as [[p rest']|] eqn:E; [|discriminate].
    exists (MState p rest' (m_caps st)). split; [exact H|]. cbn [m_rest].
    clear H. revert E. generalize (m_prev st), (m_rest st). 
    induction w as [|c w IH]; intros prev rest E; cbn [lit_step] in E.
    + now injection E as <- <-.
    + destruct rest as [|d rest]; [discriminate|]. destruct (Ascii.eqb _ _); [|discriminate].
      apply IH in E. cbn [String.length]. lia.
  - cbn [rmatch] in H. unfold literal in H.
    destruct (lit_step _ w (m_prev st) (m_rest st)) as [[p rest']|] eqn:E; [|discriminate].
    exists (MState p rest' (m_caps st)). split; [exact H|]. cbn [m_rest].
    clear H. revert E. generalize (m_prev st), (m_rest st). 
    induction w as [|c w IH]; intros prev rest E; cbn [lit_step] in E.
    + now injection E as <- <-.
    + destruct rest as [|d rest]; [discriminate|]. destruct (Ascii.eqb _ _); [|discriminate].
      apply IH in E. cbn [String.length]. lia.
  - cbn [rmatch] in H. destruct (m_rest st) as [|c rest'] eqn:E; [discriminate|].
    destruct (p c); [|discriminate].
    eexists. split; [exact H|]. cbn [m_rest String.length]. lia.
  - cbn [rmatch] in H. apply IHa in H as (st1 & H1 & Hlen1).
    apply IHb in H1 as (st2 & H2 & Hlen2). exists st2. split; [exact H2|lia].
  - cbn [rmatch] in H. destruct (rmatch a st k) eqn:E.
    + injection H as <-. now apply IHa.
    + now apply IHb.
  - rewrite rmatch_Star in H.
    assert (Hloop : forall fuel st,
               star_loop (rmatch a) k fuel st = Some out ->
               exists st', k st' = Some out
                           /\ String.length (m_rest st') <= String.length (m_rest st));
      [|now apply Hloop in H].
    clear st H. induction fuel as [|fuel IH]; intros st H; cbn [star_loop] in H.
    + exists st. split; [exact H|lia].
    + destruct (rmatch a st _) eqn:E.
      * injection H as <-. apply IHa in E as (st1 & H1 & Hlen1).
        destruct (_ <? _); [|discriminate].
        apply IH in H1 as (st2 & H2 & Hlen2). exists st2. split; [exact H2|lia].
      * exists st. split; [exact H|lia].
  - cbn [rmatch] in H. apply IHa in H as (st1 & H1 & Hlen1).
    exists (set_cap i (consumed st st1) st1). split; [exact H1|exact Hlen1].
  - cbn [rmatch] in H. destruct (xorb _ _); [|discriminate]. exists st. split; [exact H|lia].
  - cbn [rmatch] in H. destruct (m_prev st); [discriminate|]. exists st. split; [exact H|lia].
  - cbn [rmatch] in H. destruct (m_rest st) eqn:E; [|discriminate].
    exists st. split; [exact H|rewrite E; cbn; lia].
  - cbn [rmatch] in H. destruct (rmatch a st _); [discriminate|].
    exists st. split; [exact H|lia].
Qed.

(** ** tokenizer.ts: termination and spans *)

Lemma length_take (n : nat) (s : string) :
  String.length (Str.take n s) = Nat.min n (String.length s).
Proof.
  revert s. induction n as [|n IH]; intros [|c s]; cbn [Str.take String.length]; auto.
  now rewrite IH.
Qed.

Lemma lit_step_length (fold : ascii -> ascii) (w : string) :
  forall prev rest p rest',
    lit_step fold w prev rest = Some (p, rest') ->
    String.length rest = String.length w + String.length rest'.
Proof.
  induction w as [|c w IH]; intros prev rest p rest' E; cbn [lit_step] in E.
  - now injection E as <- <-.
  - destruct rest as [|d rest]; [discriminate|]. destruct (Ascii.eqb _ _); [|discriminate].
    apply IH in E. cbn [String.length]. lia.
Qed.

(** A match of a pattern that begins with a literal is at least as long
    as the literal. *)
Lemma match_here_literal_length (w : string) (r : regex) (prev : option ascii) (s : string)
    (idx : nat) (m : rmatch_result) :
  match_here (Seq (Lit w) r) prev s idx = Some m ->
  String.length w <= String.length (matched m).
Proof.
  unfold match_here. destruct (rmatch _ _ _) as [st'|] eqn:E; [|discriminate].
  intros H. injection H as <-. cbn [matched]. unfold consumed. cbn [m_rest].
  cbn [rmatch] in E. unfold literal in E. cbn [m_prev m_rest m_caps] in E.
  destruct (lit_step _ w prev s) as [[p rest1]|] eqn:El; [|discriminate].
  apply lit_step_length in El.
  apply rmatch_progress in E as (st'' & Hk & Hlen). injection Hk as ->.
  cbn [m_rest] in Hlen. rewrite length_take. lia.
Qed.

Lemma search_from_here (r : regex) (s : string) :
  forall prev idx m,
    search_from r prev s idx = Some m ->
    exists prev' s' idx', match_here r prev' s' idx' = Some m.
Proof.
  induction s as [|c s IH]; intros prev idx m H; cbn [search_from] in H;
    destruct (match_here r prev _ idx) eqn:E; try discriminate; eauto.
  injection H as <-; eauto.
  injection H as <-; eauto.
Qed.

Lemma exec_here (r : regex) (s : string) (pos : nat) (m : rmatch_result) :
  exec r s pos = Some m -> exists prev' s' idx', match_here r prev' s' idx' = Some m.
Proof.
  unfold exec. generalize (@None ascii) as prev, 0 as idx. revert s.
  induction pos as [|pos IH]; intros s prev idx H; cbn [exec_from] in H.
  - eapply search_from_here, H.
  - destruct s; [discriminate|]. eapply IH, H.
Qed.

(** What the inner loop over the patterns selects. *)
Lemma earliest_selected (ps : list Pattern) (s : string) (position : nat) :
  forall best m pattern,
    earliest ps s position best = Some (m, pattern) ->
    best = Some (m, pattern)
    \/ (In pattern ps /\ exec (pat_regex pattern) s position = Some m /\ position <= index m).
Proof.
  induction ps as [|p ps IH]; intros best m pattern H; cbn [earliest] in H; [now left|].
  apply IH in H as [H|(Hin & Hex & Hle)]; [|right; split; [now right|auto]].
  destruct (exec (pat_regex p) s position) as [m'|] eqn:E; [|now left].
  destruct (position <=? index m') eqn:Ele; [|now left].
  apply Nat.leb_le in Ele.
  destruct best as [[earliestMatch q]|].
  - destruct (index m' <? index earliestMatch); [|now left].
    injection H as <- <-. right. split; [now left|auto].
  - injection H as <- <-. right. split; [now left|auto].
Qed.

(** Every marker pattern begins with a two-character opener. *)
Lemma patterns_begin_with_opener :
  forall pattern, In pattern patterns ->
    exists w r, pat_regex pattern = Seq (Lit w) r /\ 2 <= String.length w.
Proof.
  intros pattern H. unfold patterns in H. cbn [In] in H.
  repeat destruct H as [<-|H]; try contradiction;
    cbn [pat_regex seq_of]; eexists _, _; (split; [reflexivity|cbn; lia]).
Qed.

Lemma selected_match_advances (s : string) (position : nat) (m : rmatch_result)
    (pattern : Pattern) :
  earliest patterns s position None = Some (m, pattern) ->
  position <= index m /\ position + 2 <= match_end m.
Proof.
  intros H. apply earliest_selected in H as [H|(Hin & Hex & Hle)]; [discriminate|].
  split; [exact Hle|].
  destruct (patterns_begin_with_opener _ Hin) as (w & r & Hr & Hw). rewrite Hr in Hex.
  apply exec_here in Hex as (prev' & s' & idx' & Hm).
  apply match_here_literal_length in Hm. unfold match_end. lia.
Qed.

(** The loop of the tokenizer ends: each round moves [position] at least
    two characters to the right. *)
Lemma tokenize_loop_terminates (s : string) :
  forall fuel position tokens,
    String.length s - position < fuel ->
    tokenize_loop fuel s position tokens <> Diverge.
Proof.
  induction fuel as [|fuel IH]; intros position tokens Hfuel; [lia|].
  cbn [tokenize_loop].
  destruct (position <? String.length s) eqn:Hpos; [|discriminate].
  destruct (earliest patterns s position None) as [[m pattern]|] eqn:E.
  - destruct (selected_match_advances _ _ _ _ E) as [Hle Hadv].
    destruct (token_of_match m pattern) as [token|e|] eqn:Etok.
    + apply IH. apply Nat.ltb_lt in Hpos. lia.
    + discriminate.
    + unfold token_of_match in Etok.
      destruct (pat_type pattern) as [[]| |]; try discriminate;
        destruct (String.eqb _ _); discriminate.
  - destruct (String.eqb _ _); discriminate.
Qed.

Lemma front_end_terminates (template : string) :
  tokenize template <> Diverge /\ bind (tokenize template) parse <> Diverge.
Proof.
  assert (Hscan : tokenize_scan template <> Diverge).
  { unfold tokenize_scan, validateUnclosedExpressions.
    destruct (exec variableRegex _ 0); [discriminate|].
    destruct (exec blockRegex _ 0); [discriminate|].
    cbn [bind]. apply tokenize_loop_terminates. lia. }
  assert (Htok : tokenize template <> Diverge).
  { unfold tokenize. destruct (tokenize_scan template) as [tokens|e|]; cbn [bind];
      [|discriminate|contradiction].
    pose proof (validateMismatchedBlocks_total tokens []) as Hv.
    unfold validateMismatchedBlocks.
    destruct (validateMismatchedBlocks_loop tokens []); cbn [bind];
      [discriminate|discriminate|contradiction]. }
  split; [exact Htok|].
  destruct (tokenize template) as [tokens|e|]; cbn [bind]; [|discriminate|contradiction].
  pose proof (parse_nesting tokens) as Hp. destruct (parse tokens); [discriminate..|contradiction].
Qed.

(** [tokenize] and [parse] return or throw on every template: the only
    part of [render] that may run forever is the evaluation. *)
Theorem tokenize_and_parse_terminate (template : string) :
  tokenize template <> Diverge /\ bind (tokenize template) parse <> Diverge.
Proof. exact (front_end_terminates template). Qed.

(** The spans of a token sequence tile the text from [start] on: each token
    begins where the one before it ends, and no span runs backwards. *)
Fixpoint contiguous (start : nat) (tokens : list Token) : Prop :=
  match tokens with
  | [] => True
  | token :: rest =>
      p_start (t_position token) = start
      /\ start <= p_end (t_position token)
      /\ contiguous (p_end (t_position token)) rest
  end.

(** Where the last span ends. *)
Fixpoint span_end (start : nat) (tokens : list Token) : nat :=
  match tokens with
  | [] => start
  | token :: rest => span_end (p_end (t_position token)) rest
  end.

Lemma contiguous_snoc (tokens : list Token) :
  forall start token,
    contiguous start tokens ->
    p_start (t_position token) = span_end start tokens ->
    p_start (t_position token) <= p_end (t_position token) ->
    contiguous start (tokens ++ [token])
    /\ span_end start (tokens ++ [token]) = p_end (t_position token).
Proof.
  induction tokens as [|t tokens IH]; intros start token Hc Hs Hle; cbn in *.
  - subst start. auto.
  - destruct Hc as (H1 & H2 & H3). destruct (IH _ token H3 Hs Hle) as [Hc' He'].
    auto.
Qed.

Lemma length_drop (n : nat) (s : string) :
  String.length (Str.drop n s) = String.length s - n.
Proof.
  revert s. induction n as [|n IH]; intros [|c s]; cbn [Str.drop String.length]; auto.
Qed.

Lemma slice_not_empty (s : string) (i j : nat) :
  i < String.length s -> i < j -> String.eqb (Str.slice s i j) EmptyString = false.
Proof.
  intros Hi Hj. unfold Str.slice.
  pose proof (length_take (j - i) (Str.drop i s)) as Hlen. rewrite length_drop in Hlen.
  destruct (Str.take (j - i) (Str.drop i s)); [cbn in Hlen; lia|reflexivity].
Qed.

Lemma token_of_match_position (m : rmatch_result) (pattern : Pattern) (token : Token) :
  token_of_match m pattern = Return token -> t_position token = match_position m.
Proof.
  unfold token_of_match.
  destruct (pat_type pattern) as [[]| |]; try discriminate;
    try destruct (String.eqb _ _); try discriminate; intros H; now injection H as <-.
Qed.

Lemma tokenize_loop_contiguous (s : string) :
  forall fuel position tokens result,
    contiguous 0 tokens ->
    span_end 0 tokens = position ->
    tokenize_loop fuel s position tokens = Return result ->
    contiguous 0 result.
Proof.
  induction fuel as [|fuel IH]; intros position tokens result Hc He H; [discriminate|].
  cbn [tokenize_loop] in H.
  destruct (position <? String.length s) eqn:Hpos; [|now injection H as <-].
  apply Nat.ltb_lt in Hpos.
  destruct (earliest patterns s position None) as [[m pattern]|] eqn:E.
  - destruct (selected_match_advances _ _ _ _ E) as [Hle Hadv].
    destruct (token_of_match m pattern) as [token|e|] eqn:Etok; try discriminate.
    apply token_of_match_position in Etok.
    match type of H with
    | tokenize_loop _ _ _ (?t1 ++ [token]) = _ => set (tokens1 := t1) in H
    end.
    assert (H1 : contiguous 0 tokens1 /\ span_end 0 tokens1 = index m).
    { unfold tokens1. destruct (position <? index m) eqn:Hlt.
      - apply Nat.ltb_lt in Hlt. rewrite (slice_not_empty s position (index m) Hpos Hlt).
        cbn [andb negb]. apply contiguous_snoc; cbn; auto; lia.
      - apply Nat.ltb_ge in Hlt. cbn [andb]. split; [exact Hc|lia]. }
    destruct H1 as [Hc1 He1].
    destruct (contiguous_snoc tokens1 0 token Hc1) as [Hc2 He2];
      [rewrite Etok; cbn; lia|rewrite Etok; cbn; lia|].
    eapply IH; [exact Hc2| |exact H]. rewrite He2, Etok. reflexivity.
  - destruct (String.eqb _ _); injection H as <-; [exact Hc|].
    apply contiguous_snoc; cbn; auto; lia.
Qed.

(** The tokens of a template come with spans that tile the scanned text
    from offset 0: every token starts where the previous one ends. *)
Theorem token_spans_are_contiguous (template : string) (tokens : list Token) :
  tokenize template = Return tokens -> contiguous 0 tokens.
Proof.
  unfold tokenize, tokenize_scan. intros H.
  destruct (validateUnclosedExpressions _); try discriminate. cbn [bind] in H.
  destruct (tokenize_loop _ _ 0 []) as [result|e|] eqn:E; try discriminate.
  cbn [bind] in H. destruct (validateMismatchedBlocks result) as [[]|e|]; try discriminate.
  cbn [bind] in H. injection H as <-.
  exact (tokenize_loop_contiguous _ _ 0 [] result I eq_refl E).
Qed.

Lemma token_spans_are_contiguous_witness :
  contiguous 0
    [MkToken TEXT "Hi " (MkPosition 0 3);
     MkToken VARIABLE "name" (MkPosition 3 13);
     MkToken TEXT "!" (MkPosition 13 14)].
Proof.
  apply (token_spans_are_contiguous "Hi {{ name }}!"). vm_compute. reflexivity.
Defined.

(** ** tokenizer.ts and index.ts: lexical errors *)

Definition positioned (e : error) : Prop :=
  e_class e = TokenizerError /\ exists s e', e_position e = Some (s, e').

Lemma new_TokenizerError_positioned (msg : string) (p : Position) :
  positioned (new_TokenizerError msg p).
Proof. split; [reflexivity|]. cbn. eauto. Qed.

Lemma tokenize_loop_throws (s : string) :
  forall fuel position tokens e,
    tokenize_loop fuel s position tokens = Throw e -> positioned e.
Proof.
  induction fuel as [|fuel IH]; intros position tokens e H; [discriminate|].
  cbn [tokenize_loop] in H.
  destruct (position <? String.length s); [|discriminate].
  destruct (earliest patterns s position None) as [[m pattern]|].
  - destruct (token_of_match m pattern) as [token|e'|] eqn:Etok; try discriminate.
    + eapply IH, H.
    + injection H as <-. unfold token_of_match in Etok.
      destruct (pat_type pattern) as [[]| |]; try discriminate;
        try destruct (String.eqb _ _); try discriminate;
        injection Etok as <-; apply new_TokenizerError_positioned.
  - destruct (String.eqb _ _); discriminate.
Qed.

Lemma validateMismatchedBlocks_throws (tokens : list Token) :
  forall stack e, validateMismatchedBlocks_loop tokens stack = Throw e -> positioned e.
Proof.
  induction tokens as [|token rest IH]; intros stack e H; [discriminate|].
  cbn [validateMismatchedBlocks_loop] in H.
  destruct (t_type token); eauto; destruct stack as [|lastBlock stack]; eauto;
    destruct (blockPairs (t_type lastBlock));
    try destruct (TokenType_eqb _ _); eauto;
    injection H as <-; apply new_TokenizerError_positioned.
Qed.

(** Every error of the tokenizer is a TokenizerError with a position. *)
Lemma tokenize_throws (template : string) (e : error) :
  tokenize template = Throw e -> positioned e.
Proof.
  unfold tokenize, tokenize_scan, validateUnclosedExpressions. intros H.
  destruct (exec variableRegex _ 0).
  { injection H as <-. apply new_TokenizerError_positioned. }
  destruct (exec blockRegex _ 0).
  { injection H as <-. apply new_TokenizerError_positioned. }
  cbn [bind] in H.
  destruct (tokenize_loop _ _ 0 []) as [result|e'|] eqn:E; try discriminate.
  - cbn [bind] in H. unfold validateMismatchedBlocks in H.
    destruct (validateMismatchedBlocks_loop result []) as [[]|e'|] eqn:Ev; try discriminate.
    injection H as <-. eapply validateMismatchedBlocks_throws, Ev.
  - injection H as <-. eapply tokenize_loop_throws, E.
Qed.

(** A lexical error reaches the caller of [render] as a plain error whose
    message is the tokenizer's message followed by the position of the
    fault, whatever the context. *)
Theorem lexical_error_is_reported_with_position
    (runFunction : string -> value -> comp value)
    (refToString : heap -> loc -> outcome string)
    (fuel : nat) (template : string) (e : error) (c : value) (h : heap) :
  tokenize template = Throw e ->
  is_context c ->
  exists s e',
    e_position e = Some (s, e')
    /\ fst (render runFunction refToString fuel template c h)
       = Throw (MkError PlainError
                  (e_message e +:+ " at position " +:+ Str.of_nat s +:+ "-" +:+ Str.of_nat e')
                  (Some (s, e'))).
Proof.
  intros Htok Hc. destruct (tokenize_throws _ _ Htok) as (Hclass & s & e' & Hpos).
  exists s, e'. split; [exact Hpos|].
  unfold render, cbind, ret, try_catch, throw, new_object, alloc.
  destruct Hc; cbn [is_nullish typeof]; rewrite Htok; cbn [bind];
    change (negb (String.eqb "object" "object")) with false; cbn iota beta;
    unfold render_catch; rewrite Hclass, Hpos; reflexivity.
Qed.

Lemma lexical_error_is_reported_with_position_witness :
  exists s e',
    Some (0, 2) = Some (s, e')
    /\ fst (render sample_runFunction sample_refToString 1 "{{ unclosed" VNull [])
       = Throw (MkError PlainError
                  ("Unclosed variable expression" +:+ " at position " +:+ Str.of_nat s
                   +:+ "-" +:+ Str.of_nat e')
                  (Some (s, e'))).
Proof.
  apply (lexical_error_is_reported_with_position sample_runFunction sample_refToString 1
           "{{ unclosed"
           (new_TokenizerError "Unclosed variable expression" (MkPosition 0 2)) VNull []).
  - vm_compute. reflexivity.
  - apply context_null.
Defined.

(** ** evaluator.ts: how outputs compose *)

(** The output of a node list with [o] prepended. *)
Definition prepend (o : string) (r : outcome string * heap) : outcome string * heap :=
  match r with
  | (Return out, h) => (Return (o +:+ out), h)
  | _ => r
  end.

Lemma evaluate_loop_prepend (evaluateNode : ASTNode -> value -> comp string)
    (nodes : list ASTNode) (context : value) :
  forall result h,
    evaluate_loop evaluateNode nodes context result h
    = prepend result (evaluate_loop evaluateNode nodes context EmptyString h).
Proof.
  induction nodes as [|node nodes IH]; intros result h; cbn [evaluate_loop].
  - unfold ret, prepend. now rewrite append_empty_r.
  - unfold cbind. destruct (evaluateNode node context h) as [[out|e|] h1]; try reflexivity.
    rewrite (IH (result +:+ out)), (IH (EmptyString +:+ out)).
    change (EmptyString +:+ out) with out.
    destruct (evaluate_loop evaluateNode nodes context EmptyString h1) as [[o|e|] h2];
      cbn [prepend]; try reflexivity.
    now rewrite append_assoc.
Qed.

Lemma evaluate_loop_app (evaluateNode : ASTNode -> value -> comp string)
    (a b : list ASTNode) (context : value) :
  forall result h,
    evaluate_loop evaluateNode (a ++ b) context result h
    = match evaluate_loop evaluateNode a context result h with
      | (Return out, h1) => evaluate_loop evaluateNode b context out h1
      | r => r
      end.
Proof.
  induction a as [|node a IH]; intros result h; cbn [app evaluate_loop]; [reflexivity|].
  unfold cbind. destruct (evaluateNode node context h) as [[out|e|] h1]; try reflexivity.
  apply IH.
Qed.

(** Evaluating two node lists one after the other: the outputs are
    concatenated, the second list runs in the store the first one leaves,
    and an error of the first list ends the evaluation. *)
Theorem evaluate_app (runFunction : string -> value -> comp value)
    (refToString : heap -> loc -> outcome string)
    (fuel : nat) (a b : list ASTNode) (l : loc) (h : heap) :
  evaluate runFunction refToString fuel (a ++ b) (VRef l) h
  = match evaluate runFunction refToString fuel a (VRef l) h with
    | (Return out, h1) => prepend out (evaluate runFunction refToString fuel b (VRef l) h1)
    | r => r
    end.
Proof.
  unfold evaluate, evaluate_with, cbind, ret. cbn [is_nullish].
  rewrite evaluate_loop_app.
  destruct (evaluate_loop _ a (VRef l) EmptyString h) as [[out|e|] h1]; try reflexivity.
  apply evaluate_loop_prepend.
Qed.

(** ** evaluator.ts: the bindings of a loop body *)

Lemma lookup_set_prop_eq (key : string) (v : value) (props : list (string * value)) :
  lookup_prop key (set_prop key v props) = Some v.
Proof.
  induction props as [|[k w] props IH]; cbn [set_prop lookup_prop].
  - now rewrite String.eqb_refl.
  - destruct (String.eqb k key) eqn:E; cbn [lookup_prop]; rewrite E; auto.
Qed.

Lemma lookup_set_prop_ne (key key' : string) (v : value) (props : list (string * value)) :
  key <> key' ->
  lookup_prop key' (set_prop key v props) = lookup_prop key' props.
Proof.
  intros Hne. induction props as [|[k w] props IH]; cbn [set_prop lookup_prop].
  - apply String.eqb_neq in Hne. now rewrite Hne.
  - destruct (String.eqb k key) eqn:E; cbn [lookup_prop].
    + apply String.eqb_eq in E. subst k.
      apply String.eqb_neq in Hne. now rewrite Hne.
    + now rewrite IH.
Qed.

Definition items_template : string := "{% for item in items %}{{ item }}{% endfor %}".

Section LoopElements.

Variable runFunction : string -> value -> comp value.
Variable refToString : heap -> loc -> outcome string.

Local Abbreviation render' := (render runFunction refToString).
Local Abbreviation evaluateNode' := (evaluateNode runFunction refToString).

Lemma tokens_items :
  bind (tokenize items_template) parse = Return [ForNode "item" None "items" [VariableNode "item"]].
Proof. vm_compute. reflexivity. Qed.

Lemma fast_path_item : fast_path "item" = true.
Proof. vm_compute. reflexivity. Qed.

Lemma get_keys_item : get_keys "item" = ["item"].
Proof. vm_compute. reflexivity. Qed.

Lemma fast_path_items : fast_path "items" = true.
Proof. vm_compute. reflexivity. Qed.

Lemma get_keys_items : get_keys "items" = ["items"].
Proof. vm_compute. reflexivity. Qed.

(** One iteration over an array of strings: the body [{{ item }}] prints
    the element, escaped, whatever the enclosing context binds. *)
Lemma loop_body_prints_element (f : nat) (h : heap) (c l : loc)
    (props : list (string * value)) (ss : list string) (i : nat) (s : string) :
  1 <= f ->
  h !! c = Some (OObject props) ->
  h !! l = Some (OArray (map VStr ss)) ->
  ss !! i = Some s ->
  exists h',
    evaluateArrayLoop_body (evaluateNode' f) "item" None [VariableNode "item"] (VRef c) l i h
    = (Return (escapeString s), h')
    /\ extends h h'.
Proof.
  intros Hf Hc Hl Hi.
  unfold evaluateArrayLoop_body, array_elems. rewrite Hl.
  rewrite list_lookup_fmap, Hi. cbn [fmap option_fmap option_map].
  unfold cbind at 1. unfold new_object at 1, alloc.
  unfold cbind at 1. unfold new_object at 1, alloc.
  cbn [spread]. rewrite Hc.
  set (h1 := h ++ [loop_record i (length (map VStr ss))]).
  set (derived := set_prop "loop" (VRef (length h)) (set_prop "item" (VStr s) props)).
  unfold cbind at 1. unfold ret at 1.
  assert (Hd : (h1 ++ [OObject derived]) !! length h1 = Some (OObject derived))
    by apply list_lookup_middle, eq_refl.
  assert (Hitem : lookup_prop "item" derived = Some (VStr s)).
  { unfold derived. rewrite lookup_set_prop_ne by discriminate. apply lookup_set_prop_eq. }
  pose proof (evaluate_variable_own runFunction refToString f "item" (length h1)
                (h1 ++ [OObject derived]) derived (VStr s) s
                Hf fast_path_item get_keys_item Hd Hitem eq_refl eq_refl) as Hev.
  unfold evaluate in Hev. rewrite Hev.
  eexists. split; [reflexivity|].
  eapply extends_trans; [apply extends_alloc|]. apply extends_alloc.
Qed.

Lemma loop_prints_elements (f : nat) (c l : loc) (props : list (string * value)) :
  1 <= f ->
  forall rest done steps result h,
    steps > length rest ->
    h !! c = Some (OObject props) ->
    h !! l = Some (OArray (map VStr (done ++ rest))) ->
    exists h',
      evaluateArrayLoop_from (evaluateNode' f) steps "item" None [VariableNode "item"]
        (VRef c) l (length done) result h
      = (Return (result +:+ Str.concat (map escapeString rest)), h').
Proof.
  intros Hf. induction rest as [|s rest IH]; intros done steps result h Hsteps Hc Hl;
    (destruct steps as [|steps]; [lia|]); cbn [evaluateArrayLoop_from];
    unfold array_elems; rewrite Hl, length_map, length_app.
  - replace (length done <? length done + length []) with false
      by (symmetry; apply Nat.ltb_ge; cbn; lia).
    exists h. cbn [map Str.concat]. now rewrite append_empty_r.
  - replace (length done <? length done + length (s :: rest)) with true
      by (symmetry; apply Nat.ltb_lt; cbn; lia).
    assert (Hi : (done ++ s :: rest) !! length done = Some s)
      by apply list_lookup_middle, eq_refl.
    destruct (loop_body_prints_element f h c l props (done ++ s :: rest) (length done) s
                Hf Hc Hl Hi) as (h1 & Hbody & Hext).
    unfold cbind at 1. rewrite Hbody.
    pose proof (extends_lookup _ _ _ _ Hext Hc) as Hc1.
    pose proof (extends_lookup _ _ _ _ Hext Hl) as Hl1.
    replace (done ++ s :: rest) with ((done ++ [s]) ++ rest) in Hl1
      by (now rewrite <- app_assoc).
    cbn [length] in Hsteps.
    destruct (IH (done ++ [s]) steps (result +:+ escapeString s) h1 ltac:(lia) Hc1 Hl1)
      as (h' & Hrest).
    rewrite length_app in Hrest. cbn [length] in Hrest.
    exists h'. rewrite Hrest. cbn [map Str.concat]. now rewrite append_assoc.
Qed.

(** Rendering [{% for item in items %}{{ item }}{% endfor %}] over an
    array of strings prints the escaped elements in order, whatever else
    the context holds -- also keys named [item] or [loop], which the loop
    shadows. *)
Theorem loop_renders_escaped_elements (fuel : nat) (h : heap) (c l : loc)
    (props : list (string * value)) (ss : list string) :
  length ss + 2 <= fuel ->
  h !! c = Some (OObject props) ->
  lookup_prop "items" props = Some (VRef l) ->
  h !! l = Some (OArray (map VStr ss)) ->
  fst (render' fuel items_template (VRef c) h) = Return (Str.concat (map escapeString ss)).
Proof.
  intros Hfuel Hc Hitems Hl.
  rewrite (render_parsed _ _ _ _ _ _ _ tokens_items).
  destruct fuel as [|f]; [lia|].
  unfold evaluate, evaluate_with. cbn [is_nullish].
  unfold cbind at 1. unfold ret at 1. cbn [evaluate_loop].
  unfold cbind at 1. cbn [evaluateNode evaluateNode_step].
  unfold evaluateForNode, try_catch. unfold cbind at 1.
  rewrite (evaluateExpression_fast _ _ _ _ fast_path_items).
  rewrite (get_own h c props "items" (VRef l) Hc Hitems get_keys_items).
  cbn [is_nullish]. rewrite Hl. unfold evaluateArrayLoop.
  destruct (loop_prints_elements f c l props ltac:(lia) ss [] f EmptyString h
              ltac:(lia) Hc Hl) as (h' & Hloop).
  cbn [length] in Hloop. rewrite Hloop. reflexivity.
Qed.

(** An error thrown while the body of an if node is evaluated is reported
    as a failure of the condition: the try block of [evaluateIfNode] covers
    the body too. *)
Theorem if_body_error_is_blamed_on_condition (fuel : nat) (condition : string)
    (body elseBody : list ASTNode) (context v : value) (h h1 h2 : heap) (e : error) :
  evaluateExpression runFunction condition context h = (Return v, h1) ->
  isTruthy h1 v = true ->
  evaluate runFunction refToString fuel body context h1 = (Throw e, h2) ->
  Str.includes (e_message e) "dangerous globals" = false ->
  evaluateNode' (S fuel) (IfNode condition body elseBody) context h
  = (Throw (new_EvaluationError ("Failed to evaluate if condition: " +:+ condition)), h2).
Proof.
  intros Hcond Htrue Hbody Hmsg. cbn [evaluateNode evaluateNode_step].
  unfold evaluateIfNode, try_catch, cbind. rewrite Hcond, Htrue.
  unfold evaluate in Hbody. rewrite Hbody. now rewrite Hmsg.
Qed.

End LoopElements.

Definition items_heap : heap :=
  [OObject [("item", VStr "outer"); ("items", VRef 1); ("loop", VNull)];
   OArray [VStr "<b>"; VStr "a&b"]].

Lemma loop_renders_escaped_elements_witness :
  fst (render sample_runFunction sample_refToString 4 items_template (VRef 0) items_heap)
  = Return "&lt;b&gt;a&amp;b".
Proof.
  exact (loop_renders_escaped_elements sample_runFunction sample_refToString 4 items_heap 0 1
           [("item", VStr "outer"); ("items", VRef 1); ("loop", VNull)] ["<b>"; "a&b"]
           ltac:(simpl; lia) eq_refl eq_refl eq_refl).
Defined.

Definition failing_body_heap : heap := [OObject [("v", VBool true)]].

Lemma if_body_error_is_blamed_on_condition_witness :
  evaluateNode sample_runFunction sample_refToString 2
    (IfNode "v" [VariableNode "1 +"] []) (VRef 0) failing_body_heap
  = (Throw (new_EvaluationError "Failed to evaluate if condition: v"), failing_body_heap).
Proof.
  apply (if_body_error_is_blamed_on_condition sample_runFunction sample_refToString 1 "v"
           [VariableNode "1 +"] [] (VRef 0) (VBool true) failing_body_heap failing_body_heap
           failing_body_heap (new_EvaluationError "Invalid expression: 1 +")).
  - vm_compute. reflexivity.
  - reflexivity.
  - vm_compute. reflexivity.
  - vm_compute. reflexivity.
Defined.

(** ** utils.ts: what [escapeHtml] lets through *)

(** A global replace of single characters works character by character. *)
Definition replace_chars (p : ascii -> bool) (g : ascii -> string) (s : string) : string :=
  Str.concat (map (fun c => if p c then g c else Str.of_char c) (Str.chars s)).

Lemma match_here_Cls (p : ascii -> bool) (prev : option ascii) (c : ascii) (s : string)
    (idx : nat) :
  match_here (Cls p) prev (String c s) idx
  = if p c then Some (MatchResult idx (Str.of_char c) []) else None.
Proof.
  unfold match_here. cbn [rmatch m_rest m_caps]. destruct (p c); [|reflexivity].
  unfold consumed. cbn [m_rest String.length].
  replace (S (String.length s) - String.length s) with 1 by lia. reflexivity.
Qed.

Lemma replace_go_Cls (p : ascii -> bool) (g : string -> string) (s : string)
    (prev : option ascii) (idx : nat) :
  replace_go (Cls p) (fun m => g (matched m)) prev s idx 0
  = replace_chars p (fun c => g (Str.of_char c)) s.
Proof.
  unfold replace_chars. revert prev idx.
  induction s as [|c s IH]; intros prev idx; [reflexivity|].
  cbn [replace_go Str.chars map Str.concat]. rewrite match_here_Cls.
  destruct (p c); cbn [matched String.length Str.of_char]; now rewrite IH.
Qed.

Lemma replace_Cls (p : ascii -> bool) (g : string -> string) (s : string) :
  replace (Cls p) (fun m => g (matched m)) s
  = replace_chars p (fun c => g (Str.of_char c)) s.
Proof. apply replace_go_Cls. Qed.

Lemma match_here_Lit1 (a : ascii) (prev : option ascii) (c : ascii) (s : string) (idx : nat) :
  match_here (Lit (Str.of_char a)) prev (String c s) idx
  = if Ascii.eqb a c then Some (MatchResult idx (Str.of_char c) []) else None.
Proof.
  unfold match_here. cbn [rmatch]. unfold literal, Str.of_char.
  cbn [lit_step m_prev m_rest m_caps]. destruct (Ascii.eqb a c); [|reflexivity].
  unfold consumed. cbn [m_rest String.length].
  replace (S (String.length s) - String.length s) with 1 by lia. reflexivity.
Qed.

Lemma replace_go_Lit1 (a : ascii) (t : string) (s : string)
    (prev : option ascii) (idx : nat) :
  replace_go (Lit (Str.of_char a)) (fun _ => t) prev s idx 0
  = replace_chars (Ascii.eqb a) (fun _ => t) s.
Proof.
  unfold replace_chars. revert prev idx.
  induction s as [|c s IH]; intros prev idx; [reflexivity|].
  cbn [replace_go Str.chars map Str.concat]. rewrite match_here_Lit1.
  destruct (Ascii.eqb a c); cbn [matched String.length Str.of_char]; now rewrite IH.
Qed.

Lemma replace_Lit1 (a : ascii) (t : string) (s : string) :
  replace (Lit (Str.of_char a)) (fun _ => t) s = replace_chars (Ascii.eqb a) (fun _ => t) s.
Proof. apply replace_go_Lit1. Qed.

Lemma forallb_append (q : ascii -> bool) (a b : string) :
  Str.forallb q (a +:+ b) = Str.forallb q a && Str.forallb q b.
Proof.
  induction a as [|c a IH]; [reflexivity|].
  change (String c a +:+ b) with (String c (a +:+ b)). cbn [Str.forallb].
  now rewrite IH, andb_assoc.
Qed.

Lemma forallb_replace_chars (q p : ascii -> bool) (g : ascii -> string) (s : string) :
  (forall c, p c = true -> Str.forallb q (g c) = true) ->
  Str.forallb (fun c => p c || q c) s = true ->
  Str.forallb q (replace_chars p g s) = true.
Proof.
  intros Hg. unfold replace_chars.
  induction s as [|c s IH]; intros H; [reflexivity|].
  cbn [Str.forallb] in H. apply andb_true_iff in H as [Hc Hs].
  cbn [Str.chars map Str.concat]. rewrite forallb_append, (IH Hs), andb_true_r.
  destruct (p c) eqn:E; [now apply Hg|]. cbn [orb] in Hc. cbn. now rewrite Hc.
Qed.

(** The characters an escaped value must not contain as such. *)
Definition markup_char (c : ascii) : bool :=
  existsb (Ascii.eqb c) ["<"%char; ">"%char; Str.dquote; Str.squote; "/"%char; ":"%char].

Definition special_char (c : ascii) : bool :=
  existsb (Ascii.eqb c)
    ["&"%char; "<"%char; ">"%char; Str.dquote; Str.squote; "/"%char; ":"%char].

Definition no_markup (s : string) : bool := Str.forallb (fun c => negb (markup_char c)) s.

Lemma htmlEscapes_no_markup (c : ascii) :
  special_char c = true -> no_markup (htmlEscapes (Str.of_char c)) = true.
Proof.
  unfold special_char. cbn [existsb]. intros H.
  repeat (apply orb_true_iff in H as [H|H]; [apply Ascii.eqb_eq in H; subst c; reflexivity|]).
  discriminate.
Qed.

Lemma not_special_no_markup (c : ascii) :
  special_char c || negb (markup_char c) = true.
Proof.
  destruct (special_char c) eqn:E; [reflexivity|]. cbn [orb].
  unfold special_char, markup_char in *. cbn [existsb] in *.
  repeat (apply orb_false_iff in E as [? E]).
  apply negb_true_iff. repeat (apply orb_false_iff; split); assumption.
Qed.

Lemma forallb_all (q : ascii -> bool) (s : string) :
  (forall c, q c = true) -> Str.forallb q s = true.
Proof. intros H. induction s as [|c s IH]; cbn; [reflexivity|]. now rewrite H, IH. Qed.

(** After the first replace no markup character is left. *)
Lemma specials_replaced_no_markup (str : string) :
  no_markup (replace htmlSpecial (fun m => htmlEscapes (matched m)) str) = true.
Proof.
  unfold htmlSpecial, any_of.
  rewrite (replace_Cls _ htmlEscapes). unfold no_markup.
  apply forallb_replace_chars.
  - intros c Hc. now apply htmlEscapes_no_markup.
  - apply forallb_all. apply not_special_no_markup.
Qed.

Lemma equals_replaced_no_markup (t s : string) :
  no_markup t = true -> no_markup s = true ->
  no_markup (replace (Lit "=") (fun _ => t) s) = true.
Proof.
  intros Ht Hs. change (Lit "=") with (Lit (Str.of_char "=")). rewrite replace_Lit1.
  unfold no_markup. apply forallb_replace_chars; auto.
  eapply forallb_impl; [|exact Hs]. intros c Hc. cbv beta. rewrite Hc. apply orb_true_r.
Qed.

(** Outside the pass-through for encoded script tags, an escaped string
    contains none of the characters [<], [>], the two quotes, [/] and [:]. *)
Lemma escapeString_no_markup (str : string) :
  no_markup (escapeString str) = true
  \/ (escapeString str = str
      /\ Str.includes str "&lt;script&gt;" = true
      /\ Str.includes str "&lt;/script&gt;" = true).
Proof.
  unfold escapeString.
  destruct (test encodedEntity str); cbn [andb];
    [destruct (Str.includes str "&lt;script&gt;") eqn:E1;
     destruct (Str.includes str "&lt;/script&gt;") eqn:E2; cbn [andb]; [now right|..]|];
    left; repeat destruct (_ && _);
    apply equals_replaced_no_markup; try reflexivity; apply specials_replaced_no_markup.
Qed.

Lemma startsWith_prefix (w u : string) :
  Str.startsWith u w = true -> exists rest, u = w +:+ rest.
Proof.
  revert u. induction w as [|c w IH]; intros u H; [now exists u|].
  apply startsWith_cons in H as (u' & -> & H). apply IH in H as [rest ->].
  now exists rest.
Qed.

Lemma replace_chars_same (p : ascii -> bool) (g : ascii -> string) (s : string) :
  (forall c, p c = true -> g c = Str.of_char c) -> replace_chars p g s = s.
Proof.
  intros Hg. unfold replace_chars. induction s as [|c s IH]; [reflexivity|].
  cbn [Str.chars map Str.concat]. rewrite IH.
  destruct (p c) eqn:E; [rewrite (Hg c E)|]; reflexivity.
Qed.

Lemma replace_chars_cons (p : ascii -> bool) (g : ascii -> string) (c : ascii) (s : string) :
  replace_chars p g (String c s)
  = (if p c then g c else Str.of_char c) +:+ replace_chars p g s.
Proof. reflexivity. Qed.

Definition not_equals (c : ascii) : bool := negb (Ascii.eqb c "=").

Lemma equals_escaped (s : string) :
  Str.includes (replace (Lit "=") (fun _ => "&#x3D;") s) "=" = false.
Proof.
  change (Lit "=") with (Lit (Str.of_char "=")). rewrite replace_Lit1.
  apply (includes_cons_false _ _ _ not_equals); [|reflexivity].
  apply forallb_replace_chars.
  - intros c _. reflexivity.
  - apply forallb_all. intros c. unfold not_equals. rewrite (Ascii.eqb_sym c).
    now destruct (Ascii.eqb "=" c).
Qed.

Lemma equals_kept (s : string) : replace (Lit "=") (fun _ => "=") s = s.
Proof.
  change (Lit "=") with (Lit (Str.of_char "=")). rewrite replace_Lit1.
  apply replace_chars_same. intros c H. apply Ascii.eqb_eq in H. now subst c.
Qed.

(** The rule for [=]: outside the pass-through it is escaped everywhere,
    except in a string that starts with [onclick=], contains a double
    quote and does not contain both [<] and [>]; there the leading
    [onclick=] survives. *)
Theorem equals_sign_is_escaped_unless_onclick (str : string) :
  test encodedEntity str
  && (Str.includes str "&lt;script&gt;" && Str.includes str "&lt;/script&gt;") = false ->
  if negb (Str.includes str "<" && Str.includes str ">")
     && (Str.startsWith str "onclick=" && Str.includes str dq)
  then Str.startsWith (escapeString str) "onclick=" = true
  else Str.includes (escapeString str) "=" = false.
Proof.
  intros Hb. unfold escapeString. rewrite Hb.
  destruct (Str.includes str "<" && Str.includes str ">"); cbn [negb andb].
  - apply equals_escaped.
  - destruct (Str.startsWith str "onclick=") eqn:Hs; cbn [andb]; [|apply equals_escaped].
    destruct (Str.includes str dq); [|apply equals_escaped].
    rewrite equals_kept. apply startsWith_prefix in Hs as [rest ->].
    unfold htmlSpecial, any_of. rewrite (replace_Cls _ htmlEscapes).
    change ("onclick=" +:+ rest) with
      (String "o" (String "n" (String "c" (String "l" (String "i" (String "c"
         (String "k" (String "=" rest)))))))).
    rewrite !replace_chars_cons. reflexivity.
Qed.

Definition onclick_sample : string := "onclick=" +:+ dq +:+ "go()" +:+ dq.

Lemma equals_sign_is_escaped_unless_onclick_witness :
  Str.startsWith (escapeString onclick_sample) "onclick=" = true
  /\ Str.includes (escapeString "a=b") "=" = false.
Proof.
  split.
  - exact (equals_sign_is_escaped_unless_onclick onclick_sample eq_refl).
  - exact (equals_sign_is_escaped_unless_onclick "a=b" eq_refl).
Defined.

Section EscapeSafety.

Variable refToString : heap -> loc -> outcome string.

(** Whatever [escapeHtml] returns is free of markup characters, unless the
    value is of the pass-through kind: its string form contains both
    [&lt;script&gt;] and [&lt;/script&gt;] and is returned as it is. *)
Theorem escapeHtml_output_is_safe_or_passed_through (h : heap) (v : value) (out : string) :
  escapeHtml refToString h v = Return out ->
  no_markup out = true
  \/ (toString refToString h v = Return out
      /\ Str.includes out "&lt;script&gt;" = true
      /\ Str.includes out "&lt;/script&gt;" = true).
Proof.
  unfold escapeHtml. destruct (is_nullish v).
  - intros H. injection H as <-. now left.
  - destruct (toString refToString h v) as [str|e|]; cbn [bind]; try discriminate.
    intros H. injection H as <-.
    destruct (escapeString_no_markup str) as [Hs|(Heq & H1 & H2)]; [now left|].
    right. rewrite Heq. auto.
Qed.

(** A value whose string form has none of the eight special characters
    is returned unchanged. *)
Theorem escapeHtml_plain_value_unchanged (h : heap) (v : value) (str : string) :
  is_nullish v = false ->
  toString refToString h v = Return str ->
  Str.forallb plain_char str = true ->
  escapeHtml refToString h v = Return str.
Proof.
  intros Hn Hstr Hplain. unfold escapeHtml. rewrite Hn, Hstr. cbn [bind].
  now rewrite escapeString_plain.
Qed.

End EscapeSafety.

Definition anchor_sample : string := "<a href=" +:+ dq +:+ "x" +:+ dq +:+ ">".

Lemma escapeHtml_output_is_safe_or_passed_through_witness :
  no_markup "&lt;a href&#x3D;&quot;x&quot;&gt;" = true
  \/ (toString sample_refToString [] (VStr anchor_sample)
      = Return "&lt;a href&#x3D;&quot;x&quot;&gt;"
      /\ Str.includes "&lt;a href&#x3D;&quot;x&quot;&gt;" "&lt;script&gt;" = true
      /\ Str.includes "&lt;a href&#x3D;&quot;x&quot;&gt;" "&lt;/script&gt;" = true).
Proof.
  apply (escapeHtml_output_is_safe_or_passed_through sample_refToString []
           (VStr anchor_sample)).
  vm_compute. reflexivity.
Defined.

Lemma escapeHtml_plain_value_unchanged_witness :
  escapeHtml sample_refToString [] (VNum (NInt (-42))) = Return "-42".
Proof.
  apply (escapeHtml_plain_value_unchanged sample_refToString [] (VNum (NInt (-42))) "-42").
  - reflexivity.
  - reflexivity.
  - reflexivity.
Defined.

(** ** utils.ts: the screen of [evaluateExpression] *)

(** The last character before a position that lies [s] further right. *)
Fixpoint last_of (prev : option ascii) (s : string) : option ascii :=
  match s with
  | EmptyString => prev
  | String c s' => last_of (Some c) s'
  end.

Definition word_at_end (pre : string) : bool :=
  match last_of None pre with Some c => Str.is_word c | None => false end.

Definition word_at_start (post : string) : bool :=
  match post with String c _ => Str.is_word c | EmptyString => false end.

(** A word that starts and ends with a word character. *)
Definition whole_word (w : string) : bool :=
  word_at_start w && word_at_end w.

Lemma last_of_word (prev : option ascii) (w : string) :
  whole_word w = true ->
  match last_of prev w with Some c => Str.is_word c | None => false end = true.
Proof.
  unfold whole_word, word_at_end. destruct w as [|c w]; [discriminate|].
  cbn [last_of]. intros H. now apply andb_true_iff in H as [_ H].
Qed.

Lemma lit_step_app (w : string) :
  forall prev rest, lit_step (fun c => c) w prev (w +:+ rest) = Some (last_of prev w, rest).
Proof.
  induction w as [|c w IH]; intros prev rest; [reflexivity|].
  change (String c w +:+ rest) with (String c (w +:+ rest)).
  cbn [lit_step last_of]. now rewrite Ascii.eqb_refl, IH.
Qed.

Lemma search_from_at (r : regex) (pre : string) :
  forall prev idx s,
    (forall idx', match_here r (last_of prev pre) s idx' <> None) ->
    search_from r prev (pre +:+ s) idx <> None.
Proof.
  induction pre as [|c pre IH]; intros prev idx s H.
  - change (EmptyString +:+ s) with s. cbn [last_of] in H. specialize (H idx).
    destruct s; cbn [search_from]; destruct (match_here r prev _ idx); congruence.
  - change (String c pre +:+ s) with (String c (pre +:+ s)). cbn [search_from].
    destruct (match_here r prev _ idx); [discriminate|]. now apply IH.
Qed.

Lemma test_found (r : regex) (s : string) :
  search_from r None s 0 <> None -> test r s = true.
Proof.
  unfold test, match_, exec. cbn [exec_from]. now destruct (search_from r None s 0).
Qed.

Lemma rmatch_one_of (ws : list string) (w : string) (st : mstate) (k : kont) :
  In w ws -> rmatch (Lit w) st k <> None -> rmatch (one_of ws) st k <> None.
Proof.
  induction ws as [|w0 ws IH]; [contradiction|].
  destruct ws as [|w1 ws'].
  - intros [<-|[]]. auto.
  - change (one_of (w0 :: w1 :: ws')) with (Alt (Lit w0) (one_of (w1 :: ws'))).
    intros Hin Hm. cbn [rmatch].
    destruct (literal (fun c => c) w0 st k) eqn:E; [discriminate|].
    destruct Hin as [<-|Hin]; [cbn [rmatch] in Hm; congruence|]. now apply IH.
Qed.

Lemma word_boundary_before (pre w post : string) (caps : list (nat * string)) :
  whole_word w = true -> word_at_end pre = false ->
  xorb (word_before (MState (last_of None pre) (w +:+ post) caps))
       (word_after (MState (last_of None pre) (w +:+ post) caps)) = true.
Proof.
  unfold whole_word, word_at_end, word_before, word_after. cbn [m_prev m_rest].
  intros Hw ->. destruct w as [|c w]; [discriminate|].
  change (String c w +:+ post) with (String c (w +:+ post)).
  cbn [word_at_start] in Hw. now apply andb_true_iff in Hw as [-> _].
Qed.

Lemma word_boundary_after (prev : option ascii) (w post : string) (caps : list (nat * string)) :
  whole_word w = true -> word_at_start post = false ->
  xorb (word_before (MState (last_of prev w) post caps))
       (word_after (MState (last_of prev w) post caps)) = true.
Proof.
  intros Hw Hpost. unfold word_before, word_after. cbn [m_prev m_rest].
  rewrite (last_of_word prev w Hw). unfold word_at_start in Hpost. now rewrite Hpost.
Qed.

Lemma match_here_found (r : regex) (prev : option ascii) (s : string) (idx : nat) :
  rmatch r (MState prev s []) (fun st' => Some st') <> None ->
  match_here r prev s idx <> None.
Proof. unfold match_here. now destruct (rmatch r _ _). Qed.

(** [\b(w1|..|wn)\b] finds a listed word that stands as a whole word. *)
Lemma word_group_found (ws : list string) (w pre post : string) :
  In w ws -> whole_word w = true ->
  word_at_end pre = false -> word_at_start post = false ->
  test (seq_of [Bow; Grp 1 (one_of ws); Bow]) (pre +:+ w +:+ post) = true.
Proof.
  intros Hin Hw Hpre Hpost. apply test_found, search_from_at. intros idx.
  apply match_here_found. cbn [seq_of rmatch].
  rewrite (word_boundary_before pre w post [] Hw Hpre).
  apply (rmatch_one_of ws w); [assumption|].
  cbn [rmatch]. unfold literal. cbn [m_prev m_rest m_caps]. rewrite lit_step_app.
  unfold set_cap. cbn [m_prev m_rest m_caps].
  now rewrite (word_boundary_after _ w post _ Hw Hpost).
Qed.

(** [\bw\b] likewise. *)
Lemma word_found (w pre post : string) :
  whole_word w = true ->
  word_at_end pre = false -> word_at_start post = false ->
  test (seq_of [Bow; Lit w; Bow]) (pre +:+ w +:+ post) = true.
Proof.
  intros Hw Hpre Hpost. apply test_found, search_from_at. intros idx.
  apply match_here_found. cbn [seq_of rmatch].
  rewrite (word_boundary_before pre w post [] Hw Hpre).
  unfold literal. cbn [m_prev m_rest m_caps]. rewrite lit_step_app.
  now rewrite (word_boundary_after _ w post _ Hw Hpost).
Qed.

Lemma dangerous_pattern_found (expression : string) (pattern : regex) :
  In pattern DANGEROUS_PATTERNS -> test pattern expression = true ->
  existsb (fun pattern => test pattern expression) DANGEROUS_PATTERNS = true.
Proof. intros Hin Ht. apply existsb_exists. eauto. Qed.

Lemma append_not_empty (pre w post : string) :
  w <> EmptyString -> String.eqb (pre +:+ w +:+ post) EmptyString = false.
Proof.
  intros Hw. destruct pre as [|c pre]; [|reflexivity].
  destruct w as [|c w]; [contradiction|reflexivity].
Qed.

(** The words of the first four patterns of [DANGEROUS_PATTERNS]. *)
Definition denylisted_words : list string :=
  ["process"; "require"; "module"; "exports"; "__dirname"; "__filename"; "Buffer";
   "setTimeout"; "setInterval"; "eval"; "Function"; "console";
   "constructor"; "__proto__"; "prototype"; "this"].

Ltac listed := solve [repeat first [left; reflexivity | right]].

Lemma denylisted_word_found (pre w post : string) :
  In w denylisted_words ->
  word_at_end pre = false -> word_at_start post = false ->
  existsb (fun pattern => test pattern (pre +:+ w +:+ post)) DANGEROUS_PATTERNS = true
  /\ w <> EmptyString.
Proof.
  intros Hin Hpre Hpost. unfold denylisted_words in Hin.
  repeat (destruct Hin as [<-|Hin];
    [split; [|discriminate];
     first
       [ solve [eapply dangerous_pattern_found; [left; reflexivity|];
                apply word_group_found; [listed|reflexivity|assumption|assumption]]
       | solve [eapply dangerous_pattern_found; [right; left; reflexivity|];
                apply word_group_found; [listed|reflexivity|assumption|assumption]]
       | solve [eapply dangerous_pattern_found; [right; right; left; reflexivity|];
                apply word_group_found; [listed|reflexivity|assumption|assumption]]
       | solve [eapply dangerous_pattern_found; [right; right; right; left; reflexivity|];
                apply word_found; [reflexivity|assumption|assumption]] ]
    |]).
  contradiction.
Qed.

(** The expression a node evaluates first. *)
Definition node_expression (node : ASTNode) : option string :=
  match node with
  | TextNode _ => None
  | VariableNode expression => Some expression
  | IfNode condition _ _ => Some condition
  | ForNode _ _ iterable _ => Some iterable
  end.

Section Screen.

Variable runFunction : string -> value -> comp value.
Variable refToString : heap -> loc -> outcome string.

Lemma evaluateExpression_screened (expression : string) (context : value) (h : heap) :
  String.eqb expression EmptyString = false ->
  existsb (fun pattern => test pattern expression) DANGEROUS_PATTERNS = true ->
  evaluateExpression runFunction expression context h
  = (Throw (new_Error SECURITY_MESSAGE), h).
Proof. intros H1 H2. unfold evaluateExpression. now rewrite H1, H2. Qed.

(** An expression that contains one of the denylisted words as a whole
    word is rejected, whatever surrounds the word and whatever the
    context holds; the store is not touched. *)
Theorem denylisted_word_is_rejected (pre w post : string) (context : value) (h : heap) :
  In w denylisted_words ->
  word_at_end pre = false -> word_at_start post = false ->
  evaluateExpression runFunction (pre +:+ w +:+ post) context h
  = (Throw (new_Error SECURITY_MESSAGE), h).
Proof.
  intros Hin Hpre Hpost.
  destruct (denylisted_word_found pre w post Hin Hpre Hpost) as [Hf Hw].
  apply evaluateExpression_screened; [now apply append_not_empty|assumption].
Qed.

(** A variable, if or for node whose expression contains a denylisted
    word as a whole word raises the evaluation error with the security
    message; neither branch nor body is evaluated. *)
Theorem node_with_denylisted_word_fails (fuel : nat) (node : ASTNode)
    (pre w post : string) (context : value) (h : heap) :
  node_expression node = Some (pre +:+ w +:+ post) ->
  In w denylisted_words ->
  word_at_end pre = false -> word_at_start post = false ->
  evaluateNode runFunction refToString (S fuel) node context h
  = (Throw (new_EvaluationError SECURITY_MESSAGE), h).
Proof.
  intros Hn Hin Hpre Hpost.
  destruct (denylisted_word_found pre w post Hin Hpre Hpost) as [Hf Hw].
  pose proof (evaluateExpression_screened (pre +:+ w +:+ post) context h
                (append_not_empty pre w post Hw) Hf) as He.
  destruct node as [text|expression|condition body elseBody|item index iterable body];
    cbn [node_expression] in Hn; [discriminate|..]; injection Hn as ->;
    cbn [evaluateNode evaluateNode_step].
  - unfold evaluateVariable, try_catch, cbind. now rewrite He.
  - unfold evaluateIfNode, try_catch, cbind. now rewrite He.
  - unfold evaluateForNode, try_catch, cbind. now rewrite He.
Qed.

End Screen.

Lemma denylisted_word_is_rejected_witness :
  evaluateExpression sample_runFunction ("user." +:+ "constructor" +:+ ".name") VNull []
  = (Throw (new_Error SECURITY_MESSAGE), []).
Proof.
  apply (denylisted_word_is_rejected sample_runFunction "user." "constructor" ".name").
  - unfold denylisted_words. listed.
  - reflexivity.
  - reflexivity.
Defined.

Lemma node_with_denylisted_word_fails_witness :
  evaluateNode sample_runFunction sample_refToString 1
    (IfNode ("a && " +:+ "eval" +:+ "(b)") [TextNode "x"] []) VNull []
  = (Throw (new_EvaluationError SECURITY_MESSAGE), []).
Proof.
  apply (node_with_denylisted_word_fails sample_runFunction sample_refToString 0
           (IfNode ("a && " +:+ "eval" +:+ "(b)") [TextNode "x"] []) "a && " "eval" "(b)").
  - reflexivity.
  - unfold denylisted_words. listed.
  - reflexivity.
  - reflexivity.
Defined.

(** ** utils.ts: the screen of computed property access *)

Lemma length_append (a b : string) :
  String.length (a +:+ b) = String.length a + String.length b.
Proof.
  induction a as [|c a IH]; [reflexivity|].
  change (String c a +:+ b) with (String c (a +:+ b)). cbn [String.length]. now rewrite IH.
Qed.

Lemma take_append (a b : string) : Str.take (String.length a) (a +:+ b) = a.
Proof.
  induction a as [|c a IH]; [now destruct b|].
  change (String c a +:+ b) with (String c (a +:+ b)). cbn [String.length Str.take].
  now rewrite IH.
Qed.

Lemma consumed_append (a b : string) (p1 p2 : option ascii) (c1 c2 : list (nat * string)) :
  consumed (MState p1 (a +:+ b) c1) (MState p2 b c2) = a.
Proof.
  unfold consumed. cbn [m_rest]. rewrite length_append.
  replace (String.length a + String.length b - String.length b) with (String.length a) by lia.
  apply take_append.
Qed.

(** The search passes over a prefix none of whose characters can begin
    a match. *)
Lemma search_from_skip (r : regex) (p : ascii -> bool) (pre : string) :
  (forall prev c s idx, p c = true -> match_here r prev (String c s) idx = None) ->
  Str.forallb p pre = true ->
  forall prev idx s,
    search_from r prev (pre +:+ s) idx
    = search_from r (last_of prev pre) s (idx + String.length pre).
Proof.
  intros Hr. induction pre as [|c pre IH]; intros Hp prev idx s.
  - change (EmptyString +:+ s) with s. cbn [last_of String.length]. now rewrite Nat.add_0_r.
  - cbn [Str.forallb] in Hp. apply andb_true_iff in Hp as [Hc Hp].
    change (String c pre +:+ s) with (String c (pre +:+ s)). cbn [search_from].
    rewrite (Hr prev c _ idx Hc), (IH Hp). cbn [last_of String.length].
    now rewrite Nat.add_succ_r.
Qed.

Lemma opening_literal_needed (a : ascii) (r : regex) (prev : option ascii) (c : ascii)
    (s : string) (idx : nat) :
  negb (Ascii.eqb c a) = true ->
  match_here (Seq (Lit (Str.of_char a)) r) prev (String c s) idx = None.
Proof.
  intros H. apply negb_true_iff in H. rewrite Ascii.eqb_sym in H.
  unfold match_here. cbn [rmatch]. unfold literal, Str.of_char.
  cbn [lit_step m_prev m_rest]. now rewrite H.
Qed.

(** The greedy star over a class takes a whole run of the class, when
    the rest of the pattern matches behind the run. *)
Lemma rmatch_Cls_cons (p : ascii -> bool) (prev : option ascii) (c : ascii) (s : string)
    (caps : list (nat * string)) (k : kont) :
  rmatch (Cls p) (MState prev (String c s) caps) k
  = if p c then k (MState (Some c) s caps) else None.
Proof. reflexivity. Qed.

Lemma star_loop_class (p : ascii -> bool) (k : kont) (rest : string)
    (caps : list (nat * string)) (key : string) :
  match rest with String c _ => p c = false | EmptyString => True end ->
  forall fuel prev,
    String.length key <= fuel ->
    Str.forallb p key = true ->
    k (MState (last_of prev key) rest caps) <> None ->
    star_loop (rmatch (Cls p)) k fuel (MState prev (key +:+ rest) caps)
    = k (MState (last_of prev key) rest caps).
Proof.
  intros Hrest. induction key as [|c key IH]; intros fuel prev Hfuel Hkey Hk.
  - change (EmptyString +:+ rest) with rest. cbn [last_of].
    destruct fuel as [|fuel]; [reflexivity|]. cbn [star_loop].
    destruct rest as [|d rest]; [reflexivity|]. now rewrite rmatch_Cls_cons, Hrest.
  - cbn [Str.forallb] in Hkey. apply andb_true_iff in Hkey as [Hc Hkey].
    cbn [String.length] in Hfuel. destruct fuel as [|fuel]; [lia|].
    change (String c key +:+ rest) with (String c (key +:+ rest)).
    cbn [star_loop]. rewrite rmatch_Cls_cons, Hc. cbn [m_rest String.length].
    rewrite (proj2 (Nat.ltb_lt _ _) (Nat.lt_succ_diag_r _)).
    cbn [last_of] in Hk |- *. rewrite (IH fuel (Some c)); [|lia|assumption|assumption].
    now destruct (k _).
Qed.

Lemma rmatch_Star_class (p : ascii -> bool) (k : kont) (prev : option ascii)
    (key rest : string) (caps : list (nat * string)) :
  match rest with String c _ => p c = false | EmptyString => True end ->
  Str.forallb p key = true ->
  k (MState (last_of prev key) rest caps) <> None ->
  rmatch (Star (Cls p)) (MState prev (key +:+ rest) caps) k
  = k (MState (last_of prev key) rest caps).
Proof.
  intros Hrest Hkey Hk. rewrite rmatch_Star. cbn [m_rest].
  apply star_loop_class; try assumption. rewrite length_append. lia.
Qed.

(** A pattern anchored at the start matches at index 0 or nowhere. *)
Lemma anchored_search (r : regex) (s : string) :
  forall c idx, search_from (Seq Bos r) (Some c) s idx = None.
Proof.
  induction s as [|d s IH]; intros c idx; cbn [search_from];
    unfold match_here; cbn [rmatch m_prev]; [reflexivity|apply IH].
Qed.

Lemma anchored_test (r : regex) (c : ascii) (s : string) :
  rmatch r (MState None (String c s) []) (fun st' => Some st') = None ->
  test (Seq Bos r) (String c s) = false.
Proof.
  intros H. unfold test, match_, exec. cbn [exec_from search_from].
  unfold match_here. cbn [rmatch m_prev]. rewrite H. now rewrite anchored_search.
Qed.

Definition not_closing (c : ascii) : bool := negb (Ascii.eqb c "]").
Definition not_opening (c : ascii) : bool := negb (Ascii.eqb c "[").

Lemma none_of_closing (s : string) :
  Str.forallb not_closing s = true ->
  Str.forallb (fun c => negb (existsb (Ascii.eqb c) ["]"%char])) s = true.
Proof.
  apply forallb_impl. intros c H. unfold not_closing in H. cbn [existsb].
  now rewrite orb_false_r.
Qed.

Lemma search_from_matched (r : regex) (prev : option ascii) (s : string) (idx : nat)
    (m : rmatch_result) :
  match_here r prev s idx = Some m -> search_from r prev s idx = Some m.
Proof. intros H. destruct s; cbn [search_from]; now rewrite H. Qed.

Lemma rmatch_Seq (a b : regex) (st : mstate) (k : kont) :
  rmatch (Seq a b) st k = rmatch a st (fun st' => rmatch b st' k).
Proof. reflexivity. Qed.

Lemma rmatch_Grp (i : nat) (a : regex) (st : mstate) (k : kont) :
  rmatch (Grp i a) st k = rmatch a st (fun st' => k (set_cap i (consumed st st') st')).
Proof. reflexivity. Qed.

Lemma rmatch_Lit_cons (a : ascii) (prev : option ascii) (s : string)
    (caps : list (nat * string)) (k : kont) :
  rmatch (Lit (Str.of_char a)) (MState prev (String a s) caps) k = k (MState (Some a) s caps).
Proof.
  cbn [rmatch]. unfold literal, Str.of_char. cbn [lit_step m_prev m_rest m_caps].
  now rewrite Ascii.eqb_refl.
Qed.

(** [/\[[^\]]*\]/] matches at a bracket pair without a closing bracket
    inside. *)
Lemma anyBracket_here (prev : option ascii) (key post : string) (idx : nat) :
  Str.forallb not_closing key = true ->
  match_here anyBracket prev (String "[" (key +:+ String "]" post)) idx <> None.
Proof.
  intros Hkey. apply none_of_closing in Hkey. apply match_here_found.
  unfold anyBracket, none_of. cbn [seq_of]. change (Lit "[") with (Lit (Str.of_char "[")).
  rewrite rmatch_Seq, rmatch_Lit_cons, rmatch_Seq.
  change (Lit "]") with (Lit (Str.of_char "]")).
  rewrite rmatch_Star_class; [|reflexivity|assumption|];
    cbv beta; rewrite rmatch_Lit_cons; discriminate.
Qed.

(** [/\[([^\]]+)\]/] matches there too, when the key is not empty, and
    captures the key. *)
Lemma computedAccess_here (prev : option ascii) (c : ascii) (key post : string) (idx : nat) :
  Str.forallb not_closing (String c key) = true ->
  exists m, match_here computedAccess prev (String "[" (String c key +:+ String "]" post)) idx
            = Some m
            /\ group 1 m = String c key.
Proof.
  intros Hkey. apply none_of_closing in Hkey.
  cbn [Str.forallb] in Hkey. apply andb_true_iff in Hkey as [Hc Hkey].
  unfold match_here, computedAccess, Plus, none_of. cbn [seq_of].
  change (Lit "[") with (Lit (Str.of_char "[")). change (Lit "]") with (Lit (Str.of_char "]")).
  rewrite rmatch_Seq, rmatch_Lit_cons, rmatch_Seq, rmatch_Grp, rmatch_Seq.
  change (String c key +:+ String "]" post) with (String c (key +:+ String "]" post)).
  rewrite rmatch_Cls_cons, Hc.
  rewrite rmatch_Star_class; [|reflexivity|assumption|];
    cbv beta; unfold set_cap; cbn [m_prev m_rest m_caps]; rewrite rmatch_Lit_cons;
    [|discriminate].
  eexists. split; [reflexivity|]. unfold group. cbn [groups m_caps assoc Nat.eqb].
  apply (consumed_append (String c key)).
Qed.

(** The first bracket pair of an expression is found by both patterns of
    the screen, and the group is the text between the brackets. *)
Lemma first_bracket_found (pre : string) (c : ascii) (key post : string) :
  Str.forallb not_opening pre = true ->
  Str.forallb not_closing (String c key) = true ->
  test anyBracket (pre +:+ "[" +:+ String c key +:+ "]" +:+ post) = true
  /\ exists m, match_ computedAccess (pre +:+ "[" +:+ String c key +:+ "]" +:+ post) = Some m
               /\ group 1 m = String c key.
Proof.
  intros Hpre Hkey.
  change ("[" +:+ String c key +:+ "]" +:+ post)
    with (String "[" (String c key +:+ String "]" post)).
  split.
  - apply test_found, search_from_at. intros idx. now apply anyBracket_here.
  - unfold match_, exec. cbn [exec_from].
    unfold computedAccess at 1. cbn [seq_of]. change (Lit "[") with (Lit (Str.of_char "[")).
    rewrite (search_from_skip _ not_opening pre);
      [|intros; now apply opening_literal_needed|assumption].
    destruct (computedAccess_here (last_of None pre) c key post (0 + String.length pre) Hkey)
      as (m & Hm & Hg).
    exists m. split; [|assumption]. now apply search_from_matched.
Qed.

Lemma quotes_removed_head (c : ascii) (key : string) :
  existsb (Ascii.eqb c) quotes = false ->
  exists rest, replace (any_of quotes) (fun _ => EmptyString) (String c key) = String c rest.
Proof.
  intros Hc. unfold any_of.
  rewrite (replace_Cls (fun c => existsb (Ascii.eqb c) quotes) (fun _ => EmptyString)).
  rewrite replace_chars_cons, Hc. eauto.
Qed.

Lemma not_all_digits (c : ascii) (s : string) :
  Str.is_digit c = false -> test allDigits (String c s) = false.
Proof.
  intros Hc. unfold allDigits. cbn [seq_of]. apply anchored_test.
  unfold digits1, Plus. cbn [rmatch m_rest]. now rewrite Hc.
Qed.

Lemma not_quoted_literal (c : ascii) (s : string) :
  existsb (Ascii.eqb c) quotes = false -> test quotedLiteral (String c s) = false.
Proof.
  intros Hc. unfold quotedLiteral. cbn [seq_of]. apply anchored_test.
  unfold any_of. cbn [rmatch m_rest]. now rewrite Hc.
Qed.

Lemma first_bracket_blocked (pre : string) (c : ascii) (key post : string) :
  Str.forallb not_opening pre = true ->
  Str.is_digit c = false ->
  existsb (Ascii.eqb c) quotes = false ->
  Str.forallb not_closing (String c key) = true ->
  computedAccessBlocked (pre +:+ "[" +:+ String c key +:+ "]" +:+ post) = true.
Proof.
  intros Hpre Hd Hq Hkey.
  destruct (first_bracket_found pre c key post Hpre Hkey) as (Ht & m & Hm & Hg).
  unfold computedAccessBlocked. rewrite Ht, Hm, Hg.
  destruct (quotes_removed_head c key Hq) as [rest ->].
  destruct (string_in _ _); [reflexivity|].
  now rewrite not_all_digits, not_quoted_literal.
Qed.

Section ComputedAccess.

Variable runFunction : string -> value -> comp value.

(** An expression is rejected when its first bracket pair holds a key
    that begins with neither a digit nor a quote: a name, a path or any
    other computed key, as in [a[b]] or [list[i + 1]]. *)
Theorem first_bracket_with_computed_key_is_rejected (pre : string) (c : ascii)
    (key post : string) (context : value) (h : heap) :
  Str.forallb not_opening pre = true ->
  Str.is_digit c = false ->
  existsb (Ascii.eqb c) quotes = false ->
  Str.forallb not_closing (String c key) = true ->
  evaluateExpression runFunction (pre +:+ "[" +:+ String c key +:+ "]" +:+ post) context h
  = (Throw (new_Error SECURITY_MESSAGE), h).
Proof.
  intros Hpre Hd Hq Hkey. unfold evaluateExpression.
  rewrite (append_not_empty pre "[" _) by discriminate.
  destruct (existsb _ DANGEROUS_PATTERNS); [reflexivity|].
  now rewrite first_bracket_blocked.
Qed.

End ComputedAccess.

Lemma first_bracket_with_computed_key_is_rejected_witness :
  evaluateExpression sample_runFunction ("list" +:+ "[" +:+ "i + 1" +:+ "]" +:+ ".name")
    VNull []
  = (Throw (new_Error SECURITY_MESSAGE), []).
Proof.
  apply (first_bracket_with_computed_key_is_rejected sample_runFunction "list" "i" " + 1"
           ".name"); reflexivity.
Defined.

(** ** parser.ts: the trees that [parse] returns *)

(** The block grammar of token sequences, with the tree each sequence
    spells: text and variable tokens are leaves, an if block runs from
    its start token over a body and an optional else part to its end
    token, a for block from its start token over a body to its end token. *)
Inductive spells : list ASTNode -> list Token -> Prop :=
| spells_nil : spells [] []
| spells_text (token : Token) (nodes : list ASTNode) (tokens : list Token) :
    t_type token = TEXT ->
    spells nodes tokens ->
    spells (TextNode (t_value token) :: nodes) (token :: tokens)
| spells_variable (token : Token) (nodes : list ASTNode) (tokens : list Token) :
    t_type token = VARIABLE ->
    spells nodes tokens ->
    spells (VariableNode (t_value token) :: nodes) (token :: tokens)
| spells_if (ifToken endToken : Token) (body : list ASTNode) (bodyTokens : list Token)
    (nodes : list ASTNode) (tokens : list Token) :
    t_type ifToken = IF_START ->
    String.eqb (Str.trim (t_value ifToken)) EmptyString = false ->
    t_type endToken = IF_END ->
    spells body bodyTokens ->
    spells nodes tokens ->
    spells (IfNode (Str.trim (t_value ifToken)) body [] :: nodes)
           (ifToken :: bodyTokens ++ endToken :: tokens)
| spells_if_else (ifToken elseToken endToken : Token)
    (body : list ASTNode) (bodyTokens : list Token)
    (elseBody : list ASTNode) (elseTokens : list Token)
    (nodes : list ASTNode) (tokens : list Token) :
    t_type ifToken = IF_START ->
    String.eqb (Str.trim (t_value ifToken)) EmptyString = false ->
    t_type elseToken = ELSE ->
    t_type endToken = IF_END ->
    spells body bodyTokens ->
    spells elseBody elseTokens ->
    spells nodes tokens ->
    spells (IfNode (Str.trim (t_value ifToken)) body elseBody :: nodes)
           (ifToken :: bodyTokens ++ elseToken :: elseTokens ++ endToken :: tokens)
| spells_for (forToken endToken : Token) (item : string) (index : option string)
    (iterable : string) (body : list ASTNode) (bodyTokens : list Token)
    (nodes : list ASTNode) (tokens : list Token) :
    t_type forToken = FOR_START ->
    parseForHeader (t_value forToken) = Some (item, index, iterable) ->
    t_type endToken = FOR_END ->
    spells body bodyTokens ->
    spells nodes tokens ->
    spells (ForNode item index iterable body :: nodes)
           (forToken :: bodyTokens ++ endToken :: tokens).

Lemma TokenType_eqb_eq (a b : TokenType) : TokenType_eqb a b = true -> a = b.
Proof. destruct a, b; (reflexivity || discriminate). Qed.

Lemma terminator_stops (token : Token) (rest : list Token) (ty : TokenType) :
  t_type token = ty -> (ty = ELSE \/ ty = IF_END \/ ty = FOR_END) ->
  stops_at_terminator (token :: rest).
Proof.
  intros Hty H. cbn [stops_at_terminator]. unfold is_terminator. rewrite Hty.
  destruct H as [->|[->| ->]]; reflexivity.
Qed.

(** What [parseNodes] returns is spelled by the tokens it consumed, and
    it stops at the end or before a terminator. *)
Lemma parseNodes_spells (fuel : nat) :
  forall tokens nodes rest,
    parseNodes fuel tokens = Return (nodes, rest) ->
    exists used, tokens = used ++ rest /\ spells nodes used /\ stops_at_terminator rest.
Proof.
  induction fuel as [fuel IH] using lt_wf_ind. intros tokens nodes rest H.
  destruct fuel as [|fuel]; [discriminate|].
  destruct tokens as [|token toks].
  { cbn in H. injection H as <- <-. exists []. repeat split. constructor. }
  rewrite parseNodes_S in H. destruct (t_type token) eqn:Ety.
  - destruct (parseNodes fuel toks) as [[ns r]|e|] eqn:E; cbn [bind] in H; try discriminate.
    injection H as <- <-. apply IH in E as (used & -> & Hs & Hstop); [|lia].
    exists (token :: used). repeat split; [now constructor|assumption].
  - destruct (parseNodes fuel toks) as [[ns r]|e|] eqn:E; cbn [bind] in H; try discriminate.
    injection H as <- <-. apply IH in E as (used & -> & Hs & Hstop); [|lia].
    exists (token :: used). repeat split; [now constructor|assumption].
  - destruct (parseIfStatement fuel token toks) as [[node r1]|e|] eqn:Eif;
      cbn [bind] in H; try discriminate.
    destruct (parseNodes fuel r1) as [[ns r2]|e|] eqn:En; cbn [bind] in H; try discriminate.
    injection H as <- <-.
    apply IH in En as (un & -> & Hn & Hsn); [|lia].
    destruct fuel as [|f]; [discriminate|]. rewrite parseIfStatement_S in Eif.
    destruct (String.eqb (Str.trim (t_value token)) EmptyString) eqn:Econd; [discriminate|].
    destruct (parseNodes f toks) as [[b rb]|e|] eqn:Eb; cbn [bind] in Eif; try discriminate.
    apply IH in Eb as (ub & -> & Hb & Hsb); [|lia].
    destruct rb as [|mid rb']; [discriminate|].
    destruct (TokenType_eqb (t_type mid) ELSE) eqn:Emid.
    + apply TokenType_eqb_eq in Emid.
      destruct (parseNodes f rb') as [[eb re]|e|] eqn:Ee; cbn [bind] in Eif; try discriminate.
      apply IH in Ee as (ue & -> & He & Hse); [|lia].
      destruct re as [|stop re']; [discriminate|].
      destruct (TokenType_eqb (t_type stop) IF_END) eqn:Estop; [|discriminate].
      apply TokenType_eqb_eq in Estop. injection Eif as <- ->.
      exists (token :: ub ++ mid :: ue ++ stop :: un). repeat split; [| |assumption].
      * cbn [app]. rewrite <- !app_assoc. cbn [app]. rewrite <- !app_assoc. reflexivity.
      * now constructor.
    + cbn [bind] in Eif.
      destruct (TokenType_eqb (t_type mid) IF_END) eqn:Estop; [|discriminate].
      apply TokenType_eqb_eq in Estop. injection Eif as <- ->.
      exists (token :: ub ++ mid :: un). repeat split; [| |assumption].
      * cbn [app]. rewrite <- !app_assoc. reflexivity.
      * now constructor.
  - injection H as <- <-. exists []. repeat split; [constructor|].
    eapply terminator_stops; eauto.
  - injection H as <- <-. exists []. repeat split; [constructor|].
    eapply terminator_stops; eauto.
  - destruct (parseForLoop fuel token toks) as [[node r1]|e|] eqn:Efor;
      cbn [bind] in H; try discriminate.
    destruct (parseNodes fuel r1) as [[ns r2]|e|] eqn:En; cbn [bind] in H; try discriminate.
    injection H as <- <-.
    apply IH in En as (un & -> & Hn & Hsn); [|lia].
    destruct fuel as [|f]; [discriminate|]. rewrite parseForLoop_S in Efor.
    destruct (parseForHeader (t_value token)) as [[[item index] iterable]|] eqn:Ehead;
      [|discriminate].
    destruct (parseNodes f toks) as [[b rb]|e|] eqn:Eb; cbn [bind] in Efor; try discriminate.
    apply IH in Eb as (ub & -> & Hb & Hsb); [|lia].
    destruct rb as [|stop rb']; [discriminate|].
    destruct (TokenType_eqb (t_type stop) FOR_END) eqn:Estop; [|discriminate].
    apply TokenType_eqb_eq in Estop. injection Efor as <- ->.
    exists (token :: ub ++ stop :: un). repeat split; [| |assumption].
    + cbn [app]. rewrite <- !app_assoc. reflexivity.
    + now constructor.
  - injection H as <- <-. exists []. repeat split; [constructor|].
    eapply terminator_stops; eauto.
Qed.

(** Conversely [parseNodes] reads a spelled tree back, when its bound
    allows. *)
Lemma parseNodes_of_spells (fuel : nat) :
  forall nodes used, spells nodes used ->
  forall rest, stops_at_terminator rest ->
    parseNodes fuel (used ++ rest) = Diverge
    \/ parseNodes fuel (used ++ rest) = Return (nodes, rest).
Proof.
  induction fuel as [fuel IH] using lt_wf_ind. intros nodes used Hs rest Hstop.
  destruct fuel as [|fuel]; [now left|].
  destruct Hs as
    [ | token nodes tokens Hty Hs
      | token nodes tokens Hty Hs
      | ifToken endToken body bodyTokens nodes tokens Hty Hcond Hend Hb Hs
      | ifToken elseToken endToken body bodyTokens elseBody elseTokens nodes tokens
          Hty Hcond Helse Hend Hb He Hs
      | forToken endToken item index iterable body bodyTokens nodes tokens
          Hty Hhead Hend Hb Hs ].
  - cbn [app]. destruct rest as [|t r]; [now right|].
    rewrite parseNodes_S. cbn [stops_at_terminator] in Hstop. unfold is_terminator in Hstop.
    destruct (t_type t); try discriminate; now right.
  - cbn [app]. rewrite parseNodes_S, Hty.
    destruct (IH fuel ltac:(lia) nodes tokens Hs rest Hstop) as [->| ->]; [now left|now right].
  - cbn [app]. rewrite parseNodes_S, Hty.
    destruct (IH fuel ltac:(lia) nodes tokens Hs rest Hstop) as [->| ->]; [now left|now right].
  - cbn [app]. rewrite <- app_assoc. cbn [app]. rewrite parseNodes_S, Hty.
    destruct fuel as [|f]; [now left|]. rewrite parseIfStatement_S, Hcond.
    destruct (IH f ltac:(lia) body bodyTokens Hb (endToken :: tokens ++ rest)) as [->| ->];
      [eapply terminator_stops; eauto|now left|].
    cbn [bind]. rewrite ?Hend. cbn [TokenType_eqb bind]. rewrite ?Hend. cbn [TokenType_eqb bind].
    destruct (IH (S f) ltac:(lia) nodes tokens Hs rest Hstop) as [->| ->];
      [now left|now right].
  - cbn [app]. rewrite <- app_assoc. cbn [app]. rewrite <- app_assoc. cbn [app].
    rewrite parseNodes_S, Hty.
    destruct fuel as [|f]; [now left|]. rewrite parseIfStatement_S, Hcond.
    destruct (IH f ltac:(lia) body bodyTokens Hb
                (elseToken :: elseTokens ++ endToken :: tokens ++ rest)) as [->| ->];
      [eapply terminator_stops; eauto|now left|].
    cbn [bind]. rewrite Helse. cbn [TokenType_eqb].
    destruct (IH f ltac:(lia) elseBody elseTokens He (endToken :: tokens ++ rest)) as [->| ->];
      [eapply terminator_stops; eauto|now left|].
    cbn [bind]. rewrite ?Hend. cbn [TokenType_eqb bind]. rewrite ?Hend. cbn [TokenType_eqb bind].
    destruct (IH (S f) ltac:(lia) nodes tokens Hs rest Hstop) as [->| ->];
      [now left|now right].
  - cbn [app]. rewrite <- app_assoc. cbn [app]. rewrite parseNodes_S, Hty.
    destruct fuel as [|f]; [now left|]. rewrite parseForLoop_S, Hhead.
    destruct (IH f ltac:(lia) body bodyTokens Hb (endToken :: tokens ++ rest)) as [->| ->];
      [eapply terminator_stops; eauto|now left|].
    cbn [bind]. rewrite ?Hend. cbn [TokenType_eqb bind]. rewrite ?Hend. cbn [TokenType_eqb bind].
    destruct (IH (S f) ltac:(lia) nodes tokens Hs rest Hstop) as [->| ->];
      [now left|now right].
Qed.


Definition nested_tokens : list Token :=
  [ MkToken IF_START "a" (MkPosition 0 10);
    MkToken TEXT "x" (MkPosition 10 11);
    MkToken ELSE EmptyString (MkPosition 11 21);
    MkToken FOR_START "i in xs" (MkPosition 21 38);
    MkToken VARIABLE "i" (MkPosition 38 45);
    MkToken FOR_END EmptyString (MkPosition 45 57);
    MkToken IF_END EmptyString (MkPosition 57 68) ].


(** ** index.ts: [compile] *)

Section Compile.

Variable runFunction : string -> value -> comp value.
Variable refToString : heap -> loc -> outcome string.

(** [compile(template)]: the template is tokenized and parsed at once;
    the function returned evaluates the tree on each call. *)
Definition compile (fuel : nat) (template : string) : outcome (value -> comp string) :=
  match bind (tokenize template) parse with
  | Return ast =>
      Return (fun context =>
        let* normalizedContext :=
          (if is_nullish context
           then (let* l := new_object (OObject []) in ret (VRef l))
           else ret context) in
        if negb (String.eqb (typeof normalizedContext) "object")
        then throw (new_Error "Context must be an object")
        else
          try_catch (evaluate runFunction refToString fuel ast normalizedContext)
            (fun error => throw (render_catch error)))
  | Throw e => Throw e
  | Diverge => Diverge
  end.

(** A compiled template called on a context does what [render] does on
    the template and that context.  Where the template does not tokenize
    or parse, [compile] throws the error of the tokenizer or parser as it
    is, while [render] on an object throws the rewritten one. *)
Theorem compile_agrees_with_render (fuel : nat) (template : string) :
  match compile fuel template with
  | Return compiled =>
      forall context h,
        compiled context h = render runFunction refToString fuel template context h
  | Throw e =>
      forall l h,
        render runFunction refToString fuel template (VRef l) h
        = (Throw (render_catch e), h)
  | Diverge => False
  end.
Proof.
  unfold compile, render.
  destruct (front_end_terminates template) as [_ Hfront].
  destruct (bind (tokenize template) parse) as [ast|e|]; [| |contradiction].
  - intros context h. unfold cbind.
    destruct (is_nullish context); cbn;
      repeat match goal with |- context [if ?b then _ else _] => destruct b end;
      reflexivity.
  - intros l h. reflexivity.
Qed.

End Compile.

(** ** tokenizer.ts: the values of the tokens *)

(** What [tokenize] guarantees of each token it returns: a text token is
    not empty, a variable, if or for token carries a trimmed expression
    that is not empty, and the other block tokens carry no value. *)
Definition checked (token : Token) : Prop :=
  match t_type token with
  | TEXT => t_value token <> EmptyString
  | VARIABLE | IF_START | FOR_START =>
      t_value token <> EmptyString /\ Str.trim (t_value token) = t_value token
  | ELSE | IF_END | FOR_END => t_value token = EmptyString
  end.

Definition begins_without_space (s : string) : Prop :=
  match s with
  | EmptyString => True
  | String c _ => Str.is_space c = false
  end.

Lemma trimStart_begins (s : string) : begins_without_space (Str.trimStart s).
Proof.
  induction s as [|c s IH]; cbn [Str.trimStart]; [exact I|].
  destruct (Str.is_space c) eqn:E; [exact IH|exact E].
Qed.

Lemma trimStart_same (s : string) : begins_without_space s -> Str.trimStart s = s.
Proof. destruct s as [|c s]; cbn; [reflexivity|]. now intros ->. Qed.

Lemma trimEnd_begins (s : string) :
  begins_without_space s -> begins_without_space (Str.trimEnd s).
Proof.
  destruct s as [|c s]; cbn [Str.trimEnd begins_without_space]; [auto|].
  intros Hc. rewrite Hc. destruct (Str.trimEnd s); exact Hc.
Qed.

Lemma trimEnd_trimEnd (s : string) : Str.trimEnd (Str.trimEnd s) = Str.trimEnd s.
Proof.
  induction s as [|c s IH]; [reflexivity|]. cbn [Str.trimEnd].
  destruct (Str.trimEnd s) as [|d t] eqn:E.
  - destruct (Str.is_space c) eqn:Ec; [reflexivity|].
    unfold Str.of_char. cbn [Str.trimEnd]. now rewrite Ec.
  - cbn [Str.trimEnd]. cbn [Str.trimEnd] in IH. now rewrite IH.
Qed.

(** [trim] is idempotent. *)
Lemma trim_trim (s : string) : Str.trim (Str.trim s) = Str.trim s.
Proof.
  unfold Str.trim.
  rewrite (trimStart_same (Str.trimEnd (Str.trimStart s))).
  - apply trimEnd_trimEnd.
  - apply trimEnd_begins, trimStart_begins.
Qed.

Lemma replace_go_not_empty (r : regex) (f : rmatch_result -> string) (c : ascii) (s : string)
    (prev : option ascii) (idx : nat) :
  (forall m, f m <> EmptyString) ->
  replace_go r f prev (String c s) idx 0 <> EmptyString.
Proof.
  intros Hf. cbn [replace_go].
  destruct (match_here r prev (String c s) idx) as [m|]; [|discriminate].
  specialize (Hf m). destruct (f m) as [|d t]; [contradiction|].
  destruct (String.length (matched m)); discriminate.
Qed.

Lemma restoreBraces_not_empty (text : string) :
  text <> EmptyString -> restoreBraces text <> EmptyString.
Proof.
  intros H. unfold restoreBraces, replace.
  destruct text as [|c text]; [contradiction|].
  destruct (replace_go (Lit ESCAPED_OPEN_BRACE) (fun _ => "{") None (String c text) 0 0)
    as [|d t] eqn:E.
  - now apply replace_go_not_empty in E.
  - now apply replace_go_not_empty.
Qed.

Lemma patterns_are_tags :
  forall pattern, In pattern patterns -> pat_type pattern <> Tok TEXT.
Proof.
  intros pattern H. unfold patterns in H. cbn [In] in H.
  repeat destruct H as [<-|H]; try contradiction; discriminate.
Qed.

Lemma token_of_match_checked (m : rmatch_result) (pattern : Pattern) (token : Token) :
  pat_type pattern <> Tok TEXT ->
  token_of_match m pattern = Return token -> checked token.
Proof.
  unfold token_of_match, checked. intros Htag H.
  destruct (pat_type pattern) as [[]| |]; try discriminate; try contradiction;
    try (injection H as <-; reflexivity);
    destruct (String.eqb (Str.trim (group 1 m)) EmptyString) eqn:E; try discriminate;
    injection H as <-; cbn [t_type t_value];
    (split; [now apply String.eqb_neq in E|apply trim_trim]).
Qed.

Lemma tokenize_loop_checked (s : string) :
  forall fuel position tokens result,
    Forall checked tokens ->
    tokenize_loop fuel s position tokens = Return result ->
    Forall checked result.
Proof.
  induction fuel as [|fuel IH]; intros position tokens result Hc H; [discriminate|].
  cbn [tokenize_loop] in H.
  destruct (position <? String.length s); [|now injection H as <-].
  destruct (earliest patterns s position None) as [[m pattern]|] eqn:Ee.
  - destruct (token_of_match m pattern) as [token|e|] eqn:Et; try discriminate.
    apply earliest_selected in Ee as [Ee|(Hin & _)]; [discriminate|].
    apply token_of_match_checked in Et; [|now apply patterns_are_tags].
    eapply IH; [|exact H]. apply Forall_app. split; [|now constructor].
    destruct (_ && _) eqn:E; [|assumption].
    apply andb_true_iff in E as [_ E]. apply negb_true_iff, String.eqb_neq in E.
    apply Forall_app. split; [assumption|]. constructor; [|constructor].
    unfold checked. cbn [t_type t_value]. now apply restoreBraces_not_empty.
  - destruct (String.eqb (Str.drop position s) EmptyString) eqn:E;
      [now injection H as <-|].
    injection H as <-. apply String.eqb_neq in E.
    apply Forall_app. split; [assumption|]. constructor; [|constructor].
    unfold checked. cbn [t_type t_value]. now apply restoreBraces_not_empty.
Qed.

Lemma tokenize_checked (template : string) (tokens : list Token) :
  tokenize template = Return tokens -> Forall checked tokens.
Proof.
  unfold tokenize, tokenize_scan.
  destruct (validateUnclosedExpressions _); cbn [bind]; try discriminate.
  destruct (tokenize_loop _ _ 0 []) as [result|e|] eqn:E; cbn [bind]; try discriminate.
  destruct (validateMismatchedBlocks result); cbn [bind]; try discriminate.
  intros H. injection H as <-. eapply tokenize_loop_checked; [|exact E]. constructor.
Qed.

(** Every token that [tokenize] returns is checked. *)
Theorem tokens_carry_checked_values (template : string) (tokens : list Token) :
  tokenize template = Return tokens -> Forall checked tokens.
Proof. apply tokenize_checked. Qed.

(** On checked tokens the parser never finds an empty condition. *)
Lemma parseNodes_condition (fuel : nat) :
  forall tokens e,
    Forall checked tokens ->
    parseNodes fuel tokens = Throw e ->
    e_message e <> "Empty if condition".
Proof.
  induction fuel as [fuel IH] using lt_wf_ind. intros tokens e Hc H.
  destruct fuel as [|fuel]; [discriminate|].
  destruct tokens as [|token toks]; [discriminate|].
  apply Forall_cons in Hc as [Htoken Hc].
  assert (Hsuffix : forall f toks' nodes rest,
             Forall checked toks' -> parseNodes f toks' = Return (nodes, rest) ->
             Forall checked rest).
  { intros f toks' nodes rest Hall Hp.
    apply parseNodes_spells in Hp as (used & -> & _ & _).
    now apply Forall_app in Hall as [_ Hall]. }
  rewrite parseNodes_S in H. destruct (t_type token) eqn:Ety; try discriminate.
  - destruct (parseNodes fuel toks) as [[ns r]|?|] eqn:E; cbn [bind] in H; try discriminate.
    injection H as <-. eapply (IH fuel); eauto.
  - destruct (parseNodes fuel toks) as [[ns r]|?|] eqn:E; cbn [bind] in H; try discriminate.
    injection H as <-. eapply (IH fuel); eauto.
  - destruct (parseIfStatement fuel token toks) as [[node r1]|?|] eqn:Eif;
      cbn [bind] in H; try discriminate.
    + destruct (parseNodes fuel r1) as [[ns r2]|?|] eqn:En; cbn [bind] in H;
        try discriminate.
      injection H as <-. eapply (IH fuel); [lia| |exact En].
      destruct fuel as [|f]; [discriminate|]. rewrite parseIfStatement_S in Eif.
      destruct (String.eqb (Str.trim (t_value token)) EmptyString); [discriminate|].
      destruct (parseNodes f toks) as [[b rb]|?|] eqn:Eb; cbn [bind] in Eif;
        try discriminate.
      pose proof (Hsuffix _ _ _ _ Hc Eb) as Hrb.
      destruct rb as [|mid rb']; [discriminate|].
      apply Forall_cons in Hrb as [_ Hrb'].
      destruct (TokenType_eqb (t_type mid) ELSE).
      * destruct (parseNodes f rb') as [[eb re]|?|] eqn:Ee; cbn [bind] in Eif;
          try discriminate.
        pose proof (Hsuffix _ _ _ _ Hrb' Ee) as Hre.
        destruct re as [|stop re']; [discriminate|].
        apply Forall_cons in Hre as [_ Hre'].
        destruct (TokenType_eqb (t_type stop) IF_END); [|discriminate].
        now injection Eif as _ <-.
      * cbn [bind] in Eif.
        destruct (TokenType_eqb (t_type mid) IF_END); [|discriminate].
        now injection Eif as _ <-.
    + injection H as <-.
      destruct fuel as [|f]; [discriminate|]. rewrite parseIfStatement_S in Eif.
      unfold checked in Htoken. rewrite Ety in Htoken. destruct Htoken as [Hne Htrim].
      rewrite Htrim in Eif. apply String.eqb_neq in Hne. rewrite Hne in Eif.
      destruct (parseNodes f toks) as [[b rb]|?|] eqn:Eb; cbn [bind] in Eif;
        try discriminate.
      * pose proof (Hsuffix _ _ _ _ Hc Eb) as Hrb.
        destruct rb as [|mid rb']; [injection Eif as <-; discriminate|].
        apply Forall_cons in Hrb as [_ Hrb'].
        destruct (TokenType_eqb (t_type mid) ELSE).
        -- destruct (parseNodes f rb') as [[eb re]|?|] eqn:Ee; cbn [bind] in Eif;
             try discriminate.
           ++ destruct re as [|stop re']; [injection Eif as <-; discriminate|].
              destruct (TokenType_eqb (t_type stop) IF_END); [discriminate|].
              injection Eif as <-. discriminate.
           ++ injection Eif as <-. eapply (IH f); [lia|exact Hrb'|exact Ee].
        -- cbn [bind] in Eif.
           destruct (TokenType_eqb (t_type mid) IF_END); [discriminate|].
           injection Eif as <-. discriminate.
      * injection Eif as <-. eapply (IH f); [lia|exact Hc|exact Eb].
  - destruct (parseForLoop fuel token toks) as [[node r1]|?|] eqn:Efor;
      cbn [bind] in H; try discriminate.
    + destruct (parseNodes fuel r1) as [[ns r2]|?|] eqn:En; cbn [bind] in H;
        try discriminate.
      injection H as <-. eapply (IH fuel); [lia| |exact En].
      destruct fuel as [|f]; [discriminate|]. rewrite parseForLoop_S in Efor.
      destruct (parseForHeader (t_value token)) as [[[item index] iterable]|];
        [|discriminate].
      destruct (parseNodes f toks) as [[b rb]|?|] eqn:Eb; cbn [bind] in Efor;
        try discriminate.
      pose proof (Hsuffix _ _ _ _ Hc Eb) as Hrb.
      destruct rb as [|stop rb']; [discriminate|].
      apply Forall_cons in Hrb as [_ Hrb'].
      destruct (TokenType_eqb (t_type stop) FOR_END); [|discriminate].
      now injection Efor as _ <-.
    + injection H as <-.
      destruct fuel as [|f]; [discriminate|]. rewrite parseForLoop_S in Efor.
      destruct (parseForHeader (t_value token)) as [[[item index] iterable]|];
        [|injection Efor as <-; discriminate].
      destruct (parseNodes f toks) as [[b rb]|?|] eqn:Eb; cbn [bind] in Efor;
        try discriminate.
      * destruct rb as [|stop rb']; [injection Efor as <-; discriminate|].
        destruct (TokenType_eqb (t_type stop) FOR_END); [discriminate|].
        injection Efor as <-. discriminate.
      * injection Efor as <-. eapply (IH f); [lia|exact Hc|exact Eb].
Qed.

(** The check of [parseIfStatement] for an empty condition never fires on
    the tokens of a template: the tokenizer has turned every such tag
    into an error of its own before. *)
Theorem empty_condition_error_is_unreachable (template : string) (tokens : list Token)
    (e : error) :
  tokenize template = Return tokens ->
  parse tokens = Throw e ->
  e_message e <> "Empty if condition".
Proof.
  intros Htok Hparse. apply tokenize_checked in Htok. unfold parse in Hparse.
  destruct (parseNodes (2 * length tokens + 1) tokens) as [[nodes rest]|e'|] eqn:E;
    cbn [bind] in Hparse; try discriminate.
  - destruct rest as [|token rest]; [discriminate|].
    destruct (t_type token); try discriminate; injection Hparse as <-; discriminate.
  - injection Hparse as <-. eapply parseNodes_condition; eauto.
Qed.

Lemma tokens_carry_checked_values_witness :
  Forall checked
    [ MkToken TEXT "Hi " (MkPosition 0 3);
      MkToken VARIABLE "name" (MkPosition 3 15);
      MkToken IF_START "a" (MkPosition 15 27);
      MkToken IF_END EmptyString (MkPosition 27 38) ].
Proof.
  apply (tokens_carry_checked_values "Hi {{  name  }}{% if a   %}{% endif %}").
  vm_compute. reflexivity.
Defined.

Lemma empty_condition_error_is_unreachable_witness :
  e_message (new_ParseError "Unmatched for loop") <> "Empty if condition".
Proof.
  apply (empty_condition_error_is_unreachable "{% if a %}x{% for i in b %}"
           [ MkToken IF_START "a" (MkPosition 0 10);
             MkToken TEXT "x" (MkPosition 10 11);
             MkToken FOR_START "i in b" (MkPosition 11 27) ]).
  - vm_compute. reflexivity.
  - vm_compute. reflexivity.
Defined.

(** ** utils.ts: the paths of [get] *)

Lemma replace_go_prefix (r : regex) (f : rmatch_result -> string) (p : ascii -> bool)
    (pre : string) :
  (forall prev c s idx, p c = true -> match_here r prev (String c s) idx = None) ->
  Str.forallb p pre = true ->
  forall prev idx s,
    replace_go r f prev (pre +:+ s) idx 0
    = pre +:+ replace_go r f (last_of prev pre) s (idx + String.length pre) 0.
Proof.
  intros Hr. induction pre as [|c pre IH]; intros Hp prev idx s.
  - change (EmptyString +:+ s) with s. cbn [last_of String.length]. now rewrite Nat.add_0_r.
  - cbn [Str.forallb] in Hp. apply andb_true_iff in Hp as [Hc Hp].
    change (String c pre +:+ s) with (String c (pre +:+ s)). cbn [replace_go].
    rewrite (Hr prev c _ idx Hc), (IH Hp). cbn [last_of String.length].
    now rewrite Nat.add_succ_r.
Qed.

Lemma replace_go_skipped (r : regex) (f : rmatch_result -> string) (a : string) :
  forall prev idx b,
    replace_go r f prev (a +:+ b) idx (String.length a)
    = replace_go r f (last_of prev a) b (idx + String.length a) 0.
Proof.
  induction a as [|c a IH]; intros prev idx b.
  - change (EmptyString +:+ b) with b. cbn [last_of String.length]. now rewrite Nat.add_0_r.
  - change (String c a +:+ b) with (String c (a +:+ b)). cbn [replace_go String.length].
    rewrite IH. cbn [last_of]. now rewrite Nat.add_succ_r.
Qed.

Lemma digit_not_opening (c : ascii) : Str.is_digit c = true -> not_opening c = true.
Proof.
  intros H. unfold not_opening. destruct (Ascii.eqb c "[") eqn:E; [|reflexivity].
  apply Ascii.eqb_eq in E. subst c. discriminate.
Qed.

(** [/\[(\d+)\]/] matches at a bracketed run of digits and captures the
    digits. *)
Lemma numericIndex_here (prev : option ascii) (c : ascii) (d post : string) (idx : nat) :
  Str.forallb Str.is_digit (String c d) = true ->
  exists m, match_here numericIndex prev (String "[" (String c d +:+ String "]" post)) idx
            = Some m
            /\ group 1 m = String c d
            /\ matched m = String "[" (String c d +:+ "]").
Proof.
  intros Hd. cbn [Str.forallb] in Hd. apply andb_true_iff in Hd as [Hc Hd].
  unfold match_here, numericIndex, digits1, Plus. cbn [seq_of].
  change (Lit "[") with (Lit (Str.of_char "[")). change (Lit "]") with (Lit (Str.of_char "]")).
  rewrite rmatch_Seq, rmatch_Lit_cons, rmatch_Seq, rmatch_Grp, rmatch_Seq.
  change (String c d +:+ String "]" post) with (String c (d +:+ String "]" post)).
  rewrite rmatch_Cls_cons, Hc.
  rewrite rmatch_Star_class; [|reflexivity|assumption|];
    cbv beta; unfold set_cap; cbn [m_prev m_rest m_caps]; rewrite rmatch_Lit_cons;
    [|discriminate].
  eexists. split; [reflexivity|]. unfold group. cbn [groups matched m_caps assoc Nat.eqb].
  split.
  - apply (consumed_append (String c d)).
  - replace (String "[" (String c (d +:+ String "]" post)))
      with (String "[" (String c d +:+ "]") +:+ post).
    + apply consumed_append.
    + change (String "[" (String c d +:+ "]") +:+ post)
        with (String "[" (String c ((d +:+ "]") +:+ post))).
      now rewrite append_assoc.
Qed.

Lemma no_opening_unmatched (r : regex) (s : string) :
  Str.forallb not_opening s = true -> unmatched (Seq (Lit "[") r) s.
Proof.
  intros H. apply unmatched_Seq_Lit.
  now apply (includes_cons_false _ _ _ not_opening).
Qed.

(** The normalised path of a bracketed index is the dotted one. *)
Lemma bracket_index_normalised (pre d post : string) :
  Str.forallb not_opening pre = true ->
  Str.forallb Str.is_digit d = true -> d <> EmptyString ->
  Str.forallb not_opening post = true ->
  replace numericIndex (fun m => "." +:+ group 1 m) (pre +:+ "[" +:+ d +:+ "]" +:+ post)
  = pre +:+ "." +:+ d +:+ post.
Proof.
  intros Hpre Hd Hne Hpost. destruct d as [|c d]; [contradiction|].
  change ("[" +:+ String c d +:+ "]" +:+ post)
    with (String "[" (String c d +:+ String "]" post)).
  unfold replace.
  rewrite (replace_go_prefix numericIndex _ not_opening pre);
    [|intros; now apply opening_literal_needed|assumption].
  f_equal. cbn [replace_go].
  destruct (numericIndex_here (last_of None pre) c d post (0 + String.length pre) Hd)
    as (m & -> & Hg & Hm).
  rewrite Hg, Hm. cbn [String.length].
  replace (String c d +:+ String "]" post) with ((String c d +:+ "]") +:+ post)
    by (now rewrite append_assoc).
  rewrite replace_go_skipped.
  rewrite unmatched_replace_go; [|now apply no_opening_unmatched].
  reflexivity.
Qed.

Lemma dotted_index_normalised (pre d post : string) :
  Str.forallb not_opening pre = true ->
  Str.forallb Str.is_digit d = true ->
  Str.forallb not_opening post = true ->
  replace numericIndex (fun m => "." +:+ group 1 m) (pre +:+ "." +:+ d +:+ post)
  = pre +:+ "." +:+ d +:+ post.
Proof.
  intros Hpre Hd Hpost. apply unmatched_replace, no_opening_unmatched.
  rewrite !forallb_append, Hpre, Hpost.
  rewrite (forallb_impl Str.is_digit not_opening d digit_not_opening Hd). reflexivity.
Qed.

(** An index in brackets reads what the same index after a dot reads:
    [get] treats [items[0].name] as [items.0.name]. *)
Theorem get_bracket_index_is_dot_index (h : heap) (object : value) (pre d post : string) :
  Str.forallb not_opening pre = true ->
  Str.forallb Str.is_digit d = true -> d <> EmptyString ->
  Str.forallb not_opening post = true ->
  get h object (pre +:+ "[" +:+ d +:+ "]" +:+ post)
  = get h object (pre +:+ "." +:+ d +:+ post).
Proof.
  intros Hpre Hd Hne Hpost. unfold get, get_keys.
  now rewrite bracket_index_normalised, dotted_index_normalised.
Qed.

Definition rows_heap : heap :=
  [ OObject [("rows", VRef 1)];
    OArray [VRef 2; VRef 3];
    OObject [("name", VStr "a")];
    OObject [("name", VStr "b")] ].

Lemma get_bracket_index_is_dot_index_witness :
  get rows_heap (VRef 0) ("rows" +:+ "[" +:+ "1" +:+ "]" +:+ ".name") = VStr "b"
  /\ get rows_heap (VRef 0) ("rows" +:+ "." +:+ "1" +:+ ".name") = VStr "b".
Proof.
  split; [|reflexivity].
  rewrite (get_bracket_index_is_dot_index rows_heap (VRef 0) "rows" "1" ".name");
    [reflexivity|reflexivity|reflexivity|discriminate|reflexivity].
Defined.

(** ** utils.ts: arrow functions *)

Lemma lit_step_prefix (w : string) :
  forall prev u, Str.startsWith u w = true -> lit_step (fun c => c) w prev u <> None.
Proof.
  induction w as [|c w IH]; intros prev u H; [discriminate|].
  apply startsWith_cons in H as (u' & -> & H). cbn [lit_step].
  rewrite Ascii.eqb_refl. now apply IH.
Qed.

Lemma literal_found (w s : string) : Str.includes s w = true -> test (Lit w) s = true.
Proof.
  intros H. apply test_found, search_from_found. exists w. split; [assumption|].
  intros prev idx u Hu. apply match_here_found. cbn [rmatch]. unfold literal.
  cbn [m_prev m_rest]. pose proof (lit_step_prefix w prev u Hu) as Hl.
  destruct (lit_step _ w prev u) as [[p rest]|]; [discriminate|contradiction].
Qed.

Section Arrow.

Variable runFunction : string -> value -> comp value.

(** An expression that contains [=>] anywhere, also inside a string
    literal, is rejected. *)
Theorem arrow_is_rejected (expression : string) (context : value) (h : heap) :
  Str.includes expression "=>" = true ->
  evaluateExpression runFunction expression context h
  = (Throw (new_Error SECURITY_MESSAGE), h).
Proof.
  intros H. apply evaluateExpression_screened.
  - destruct expression; [discriminate|reflexivity].
  - apply (dangerous_pattern_found _ (Lit "=>")); [|now apply literal_found].
    unfold DANGEROUS_PATTERNS. repeat first [left; reflexivity | right].
Qed.

End Arrow.

Lemma arrow_is_rejected_witness :
  evaluateExpression sample_runFunction "label + ' => '" VNull []
  = (Throw (new_Error SECURITY_MESSAGE), []).
Proof.
  apply (arrow_is_rejected sample_runFunction "label + ' => '" VNull []). reflexivity.
Defined.

(** ** What the matcher accepts *)

(** Repetition of a step that moves forward in the input. *)
Inductive repeated (R : mstate -> mstate -> Prop) : mstate -> mstate -> Prop :=
| repeated_nil (st : mstate) : repeated R st st
| repeated_cons (st mid st' : mstate) :
    R st mid ->
    String.length (m_rest mid) < String.length (m_rest st) ->
    repeated R mid st' ->
    repeated R st st'.

(** [steps r st st']: the pattern [r] can take the matcher from the state
    [st] to the state [st'].  This is the meaning of a pattern, stated
    without the continuations and the backtracking of [rmatch]. *)
Fixpoint steps (r : regex) (st st' : mstate) {struct r} : Prop :=
  match r with
  | Lit w =>
      exists p rest, lit_step (fun c => c) w (m_prev st) (m_rest st) = Some (p, rest)
                     /\ st' = MState p rest (m_caps st)
  | LitI w =>
      exists p rest, lit_step Str.to_lower w (m_prev st) (m_rest st) = Some (p, rest)
                     /\ st' = MState p rest (m_caps st)
  | Cls p =>
      exists c rest, m_rest st = String c rest /\ p c = true
                     /\ st' = MState (Some c) rest (m_caps st)
  | Seq a b => exists mid, steps a st mid /\ steps b mid st'
  | Alt a b => steps a st st' \/ steps b st st'
  | Star a => repeated (steps a) st st'
  | Grp i a => exists mid, steps a st mid /\ st' = set_cap i (consumed st mid) mid
  | Bow => xorb (word_before st) (word_after st) = true /\ st' = st
  | Bos => m_prev st = None /\ st' = st
  | Eos => m_rest st = EmptyString /\ st' = st
  | NotAhead a => (forall x, ~ steps a st x) /\ st' = st
  end.

Definition matcher_complete (a : regex) : Prop :=
  forall st k, rmatch a st k <> None <-> exists st', steps a st st' /\ k st' <> None.

Lemma star_loop_steps (a : regex) :
  matcher_complete a ->
  forall fuel st k,
    String.length (m_rest st) <= fuel ->
    star_loop (rmatch a) k fuel st <> None
    <-> exists st', repeated (steps a) st st' /\ k st' <> None.
Proof.
  intros IHa. induction fuel as [|fuel IH]; intros st k Hfuel; cbn [star_loop].
  - split.
    + intros Hk. exists st. split; [constructor|exact Hk].
    + intros (st' & Hrep & Hk). destruct Hrep as [st|st mid st' _ Hlt _]; [exact Hk|lia].
  - set (k' := fun st' : mstate =>
                 if String.length (m_rest st') <? String.length (m_rest st)
                 then star_loop (rmatch a) k fuel st' else None).
    split.
    + intros H. destruct (rmatch a st k') as [out|] eqn:E.
      * assert (Hne : rmatch a st k' <> None) by (rewrite E; discriminate).
        apply IHa in Hne as (mid & Hstep & Hk'). unfold k' in Hk'.
        destruct (String.length (m_rest mid) <? String.length (m_rest st)) eqn:Hlt;
          [|contradiction].
        apply Nat.ltb_lt in Hlt.
        apply IH in Hk' as (st' & Hrep & Hk); [|lia].
        exists st'. split; [|exact Hk]. econstructor; eauto.
      * exists st. split; [constructor|exact H].
    + intros (st' & Hrep & Hk).
      destruct Hrep as [st|st mid st' Hstep Hlt Hrep].
      * destruct (rmatch a st k'); [discriminate|exact Hk].
      * assert (Hne : rmatch a st k' <> None).
        { apply IHa. exists mid. split; [exact Hstep|]. unfold k'.
          rewrite (proj2 (Nat.ltb_lt _ _) Hlt). apply IH; [lia|]. eauto. }
        destruct (rmatch a st k'); [discriminate|contradiction].
Qed.

(** The matcher finds a match exactly when the pattern has one: its
    backtracking misses none, and it invents none. *)
Lemma rmatch_steps (r : regex) : matcher_complete r.
Proof.
  unfold matcher_complete.
  induction r as [w|w|p|a IHa b IHb|a IHa b IHb|a IHa|i a IHa| | | |a IHa]; intros st k.
  - cbn [rmatch steps]. unfold literal.
    destruct (lit_step _ w (m_prev st) (m_rest st)) as [[p rest]|]; split.
    + intros Hk. eexists. split; [eauto|exact Hk].
    + intros (st' & (p' & rest' & Heq & ->) & Hk). now injection Heq as <- <-.
    + congruence.
    + intros (st' & (p' & rest' & Heq & _) & _). discriminate.
  - cbn [rmatch steps]. unfold literal.
    destruct (lit_step _ w (m_prev st) (m_rest st)) as [[p rest]|]; split.
    + intros Hk. eexists. split; [eauto|exact Hk].
    + intros (st' & (p' & rest' & Heq & ->) & Hk). now injection Heq as <- <-.
    + congruence.
    + intros (st' & (p' & rest' & Heq & _) & _). discriminate.
  - cbn [rmatch steps]. destruct (m_rest st) as [|c rest]; [|destruct (p c) eqn:Ec]; split.
    + congruence.
    + intros (st' & (c & rest & Heq & _) & _). discriminate.
    + intros Hk. eexists. split; [eauto|exact Hk].
    + intros (st' & (c' & rest' & Heq & _ & ->) & Hk). now injection Heq as <- <-.
    + congruence.
    + intros (st' & (c' & rest' & Heq & Hp & _) & _). injection Heq as <- <-. congruence.
  - cbn [rmatch steps]. rewrite IHa. split.
    + intros (mid & Ha & Hb). apply IHb in Hb as (st' & Hb & Hk). eauto.
    + intros (st' & (mid & Ha & Hb) & Hk). exists mid. split; [exact Ha|].
      apply IHb. eauto.
  - cbn [rmatch steps]. specialize (IHa st k). specialize (IHb st k).
    destruct (rmatch a st k) as [out|]; split.
    + intros _. destruct (proj1 IHa ltac:(discriminate)) as (st' & Ha & Hk). eauto.
    + discriminate.
    + intros Hb. apply IHb in Hb as (st' & Hb & Hk). eauto.
    + intros (st' & [Ha|Hb] & Hk).
      * exfalso. apply (proj2 IHa); eauto.
      * apply IHb. eauto.
  - rewrite rmatch_Star. cbn [steps]. apply star_loop_steps; [exact IHa|lia].
  - cbn [rmatch steps]. rewrite IHa. split.
    + intros (mid & Ha & Hk). eauto.
    + intros (st' & (mid & Ha & ->) & Hk). eauto.
  - cbn [rmatch steps]. destruct (xorb _ _); split.
    + intros Hk. eauto.
    + now intros (st' & (_ & ->) & Hk).
    + congruence.
    + intros (st' & (Hx & _) & _). discriminate.
  - cbn [rmatch steps]. destruct (m_prev st); split.
    + congruence.
    + intros (st' & (Hx & _) & _). discriminate.
    + intros Hk. eauto.
    + now intros (st' & (_ & ->) & Hk).
  - cbn [rmatch steps]. destruct (m_rest st); split.
    + intros Hk. eauto.
    + now intros (st' & (_ & ->) & Hk).
    + congruence.
    + intros (st' & (Hx & _) & _). discriminate.
  - cbn [rmatch steps]. specialize (IHa st (fun st' => Some st')).
    destruct (rmatch a st (fun st' => Some st')) as [out|]; split.
    + congruence.
    + intros (st' & (Hno & _) & _).
      destruct (proj1 IHa ltac:(discriminate)) as (x & Hx & _). exfalso. exact (Hno x Hx).
    + intros Hk. exists st. split; [|exact Hk]. split; [|reflexivity].
      intros x Hx. apply (proj2 IHa); [|reflexivity]. exists x. split; [exact Hx|discriminate].
    + now intros (st' & (_ & ->) & Hk).
Qed.

(** A pattern has a match from a state. *)
Definition accepts (r : regex) (st : mstate) : Prop := exists st', steps r st st'.

Lemma rmatch_accepts (r : regex) (st : mstate) :
  rmatch r st (fun st' => Some st') <> None <-> accepts r st.
Proof.
  pose proof (rmatch_steps r st (fun st' => Some st')) as Hr. unfold accepts. split.
  - intros H. apply Hr in H as (st' & H & _). eauto.
  - intros (st' & H). apply Hr. exists st'. split; [exact H|discriminate].
Qed.

(** A pattern anchored at the start matches a string exactly when the
    rest of the pattern accepts it from its first character. *)
Lemma anchored_match (r : regex) (s : string) :
  match_ (Seq Bos r) s <> None <-> accepts r (MState None s []).
Proof.
  rewrite <- rmatch_accepts. unfold match_, exec. cbn [exec_from].
  assert (Hhere : match_here (Seq Bos r) None s 0 <> None
                  <-> rmatch r (MState None s []) (fun st' => Some st') <> None).
  { unfold match_here. cbn [rmatch m_prev].
    destruct (rmatch r (MState None s []) (fun st' => Some st')); split; congruence. }
  rewrite <- Hhere.
  destruct s as [|c s]; cbn [search_from];
    destruct (match_here (Seq Bos r) None _ 0); try rewrite anchored_search;
    split; congruence.
Qed.

(** ** The headers of a for tag *)

Lemma lit_step_sound (w : string) :
  forall prev s p rest,
    lit_step (fun c => c) w prev s = Some (p, rest) -> s = w +:+ rest /\ p = last_of prev w.
Proof.
  induction w as [|c w IH]; intros prev s p rest H; cbn [lit_step] in H.
  - injection H as <- <-. auto.
  - destruct s as [|d s]; [discriminate|].
    destruct (Ascii.eqb c d) eqn:E; [|discriminate].
    apply Ascii.eqb_eq in E. subst d. apply IH in H as [-> ->]. auto.
Qed.

Lemma steps_Lit (w : string) (st st' : mstate) :
  steps (Lit w) st st'
  <-> exists rest, m_rest st = w +:+ rest
                   /\ st' = MState (last_of (m_prev st) w) rest (m_caps st).
Proof.
  cbn [steps]. split.
  - intros (p & rest & H & ->). apply lit_step_sound in H as [H ->]. eauto.
  - intros (rest & H & ->). exists (last_of (m_prev st) w), rest. split; [|reflexivity].
    rewrite H. apply lit_step_app.
Qed.

(** A starred class takes a run of characters of the class. *)
Lemma steps_run (p : ascii -> bool) (st st' : mstate) :
  steps (Star (Cls p)) st st'
  <-> exists run rest, Str.forallb p run = true /\ m_rest st = run +:+ rest
                       /\ st' = MState (last_of (m_prev st) run) rest (m_caps st).
Proof.
  cbn [steps]. split.
  - intros H. induction H as [st|st mid st' (c & rest & Hrest & Hc & ->) _ _ IH].
    + exists EmptyString, (m_rest st). destruct st. auto.
    + destruct IH as (run & rest' & Hrun & Hmid & ->). cbn [m_rest m_prev m_caps] in *.
      exists (String c run), rest'. cbn [Str.forallb last_of]. rewrite Hc, Hrun, Hrest, Hmid.
      auto.
  - intros (run & rest & Hrun & Hrest & ->). revert st Hrun Hrest.
    induction run as [|c run IH]; intros st Hrun Hrest.
    + change (EmptyString +:+ rest) with rest in Hrest. rewrite <- Hrest.
      destruct st. constructor.
    + change (String c run +:+ rest) with (String c (run +:+ rest)) in Hrest.
      cbn [Str.forallb] in Hrun. apply andb_true_iff in Hrun as [Hc Hrun].
      apply (repeated_cons _ st (MState (Some c) (run +:+ rest) (m_caps st))).
      * exists c, (run +:+ rest). auto.
      * rewrite Hrest. cbn. lia.
      * apply (IH (MState (Some c) (run +:+ rest) (m_caps st))); auto.
Qed.

(** A class repeated at least once takes a run that is not empty. *)
Lemma steps_run1 (p : ascii -> bool) (st st' : mstate) :
  steps (Plus (Cls p)) st st'
  <-> exists run rest, run <> EmptyString /\ Str.forallb p run = true
                       /\ m_rest st = run +:+ rest
                       /\ st' = MState (last_of (m_prev st) run) rest (m_caps st).
Proof.
  unfold Plus. split.
  - intros (mid & (c & rest & Hrest & Hc & ->) & H).
    apply steps_run in H as (run & rest' & Hrun & Hmid & ->). cbn [m_rest m_prev m_caps] in *.
    exists (String c run), rest'. cbn [Str.forallb last_of]. rewrite Hc, Hrun, Hrest, Hmid.
    repeat split; auto; discriminate.
  - intros (run & rest & Hne & Hrun & Hrest & ->).
    destruct run as [|c run]; [contradiction|].
    change (String c run +:+ rest) with (String c (run +:+ rest)) in Hrest.
    cbn [Str.forallb] in Hrun. apply andb_true_iff in Hrun as [Hc Hrun].
    exists (MState (Some c) (run +:+ rest) (m_caps st)). split.
    + exists c, (run +:+ rest). auto.
    + apply steps_run. exists run, rest. auto.
Qed.

Lemma accepts_run_then (p : ascii -> bool) (r : regex) (st : mstate) :
  accepts (Seq (Star (Cls p)) r) st
  <-> exists run rest, Str.forallb p run = true /\ m_rest st = run +:+ rest
                       /\ accepts r (MState (last_of (m_prev st) run) rest (m_caps st)).
Proof.
  unfold accepts. split.
  - intros (st' & mid & H & Hr). apply steps_run in H as (run & rest & ? & ? & ->).
    exists run, rest. eauto.
  - intros (run & rest & Hrun & Hrest & st' & Hr).
    exists st', (MState (last_of (m_prev st) run) rest (m_caps st)).
    split; [|exact Hr]. apply steps_run. eauto.
Qed.

Lemma accepts_run1_then (p : ascii -> bool) (r : regex) (st : mstate) :
  accepts (Seq (Plus (Cls p)) r) st
  <-> exists run rest, run <> EmptyString /\ Str.forallb p run = true
                       /\ m_rest st = run +:+ rest
                       /\ accepts r (MState (last_of (m_prev st) run) rest (m_caps st)).
Proof.
  unfold accepts. split.
  - intros (st' & mid & H & Hr). apply steps_run1 in H as (run & rest & ? & ? & ? & ->).
    exists run, rest. eauto.
  - intros (run & rest & Hne & Hrun & Hrest & st' & Hr).
    exists st', (MState (last_of (m_prev st) run) rest (m_caps st)).
    split; [|exact Hr]. apply steps_run1. exists run, rest. auto.
Qed.

Lemma accepts_group_then (i : nat) (p : ascii -> bool) (r : regex) (st : mstate) :
  accepts (Seq (Grp i (Plus (Cls p))) r) st
  <-> exists run rest, run <> EmptyString /\ Str.forallb p run = true
                       /\ m_rest st = run +:+ rest
                       /\ accepts r (MState (last_of (m_prev st) run) rest
                                       ((i, run) :: m_caps st)).
Proof.
  unfold accepts. split.
  - intros (st' & mid & (mid' & H & ->) & Hr).
    apply steps_run1 in H as (run & rest & Hne & Hrun & Hrest & ->).
    exists run, rest. repeat split; auto. exists st'.
    unfold set_cap in Hr. cbn [m_prev m_rest m_caps] in Hr.
    destruct st as [prev s caps]. cbn [m_rest m_prev m_caps] in *. subst s.
    now rewrite consumed_append in Hr.
  - intros (run & rest & Hne & Hrun & Hrest & st' & Hr).
    exists st', (MState (last_of (m_prev st) run) rest ((i, run) :: m_caps st)).
    split; [|exact Hr].
    exists (MState (last_of (m_prev st) run) rest (m_caps st)). split.
    + apply steps_run1. exists run, rest. auto.
    + unfold set_cap. cbn [m_prev m_rest m_caps].
      destruct st as [prev s caps]. cbn [m_rest m_prev m_caps] in *. subst s.
      now rewrite consumed_append.
Qed.

Lemma accepts_Lit_then (w : string) (r : regex) (st : mstate) :
  accepts (Seq (Lit w) r) st
  <-> exists rest, m_rest st = w +:+ rest
                   /\ accepts r (MState (last_of (m_prev st) w) rest (m_caps st)).
Proof.
  unfold accepts. split.
  - intros (st' & mid & H & Hr). apply steps_Lit in H as (rest & ? & ->). eauto.
  - intros (rest & Hrest & st' & Hr).
    exists st', (MState (last_of (m_prev st) w) rest (m_caps st)).
    split; [|exact Hr]. apply steps_Lit. eauto.
Qed.

Lemma accepts_Eos (st : mstate) : accepts Eos st <-> m_rest st = EmptyString.
Proof.
  unfold accepts. cbn [steps]. split.
  - now intros (st' & H & _).
  - intros H. exists st. auto.
Qed.

(** The parts of a loop header. *)
Definition word (w : string) : Prop :=
  w <> EmptyString /\ Str.forallb Str.is_word w = true.

Definition blanks (w : string) : Prop := Str.forallb Str.is_space w = true.

Definition blanks1 (w : string) : Prop := w <> EmptyString /\ blanks w.

Definition one_line (e : string) : Prop :=
  e <> EmptyString /\ Str.forallb (fun c => negb (Str.is_line_terminator c)) e = true.

(** The two forms of a loop header: [item in expr] and [item, index in
    expr].  The item and the index are words (letters, digits and
    underscores), [in] stands between white space, the comma follows the
    item directly, and the expression is not empty and has no line break. *)
Inductive for_header : string -> Prop :=
| header_simple (item sp1 sp2 e : string) :
    word item -> blanks1 sp1 -> blanks1 sp2 -> one_line e ->
    for_header (item +:+ sp1 +:+ "in" +:+ sp2 +:+ e)
| header_indexed (item sp0 index sp1 sp2 e : string) :
    word item -> blanks sp0 -> word index -> blanks1 sp1 -> blanks1 sp2 -> one_line e ->
    for_header (item +:+ "," +:+ sp0 +:+ index +:+ sp1 +:+ "in" +:+ sp2 +:+ e).

(** The end of both header patterns: [\s+in\s+(.+)$]. *)
Lemma in_tail_accepts (k : nat) (st : mstate) :
  accepts (seq_of [spaces1; Lit "in"; spaces1; Grp k dot1; Eos]) st
  <-> exists sp1 sp2 e, blanks1 sp1 /\ blanks1 sp2 /\ one_line e
                        /\ m_rest st = sp1 +:+ "in" +:+ sp2 +:+ e.
Proof.
  cbn [seq_of]. unfold spaces1, dot1, blanks1, blanks, one_line. split.
  - intros H.
    apply accepts_run1_then in H as (sp1 & r1 & Hne1 & Hsp1 & Hr1 & H).
    apply accepts_Lit_then in H as (r2 & Hr2 & H). cbn [m_rest] in Hr2.
    apply accepts_run1_then in H as (sp2 & r3 & Hne2 & Hsp2 & Hr3 & H). cbn [m_rest] in Hr3.
    apply accepts_group_then in H as (e & r4 & Hne & He & Hr4 & H). cbn [m_rest] in Hr4.
    apply accepts_Eos in H. cbn [m_rest] in H. subst r4.
    rewrite append_empty_r in Hr4. subst r3 r2 r1.
    exists sp1, sp2, e. repeat split; auto.
  - intros (sp1 & sp2 & e & [Hne1 Hsp1] & [Hne2 Hsp2] & [Hne He] & Hrest).
    apply accepts_run1_then. exists sp1, ("in" +:+ sp2 +:+ e). repeat split; auto.
    apply accepts_Lit_then. exists (sp2 +:+ e). split; [reflexivity|].
    apply accepts_run1_then. exists sp2, e. repeat split; auto.
    apply accepts_group_then. exists e, EmptyString. repeat split; auto.
    + cbn [m_rest]. now rewrite append_empty_r.
    + now apply accepts_Eos.
Qed.

(** [/^(\w+)\s+in\s+(.+)$/] *)
Lemma forSimple_matches (s : string) :
  match_ forSimple s <> None
  <-> exists item sp1 sp2 e,
        word item /\ blanks1 sp1 /\ blanks1 sp2 /\ one_line e
        /\ s = item +:+ sp1 +:+ "in" +:+ sp2 +:+ e.
Proof.
  unfold forSimple.
  change (seq_of [Bos; Grp 1 word1; spaces1; Lit "in"; spaces1; Grp 2 dot1; Eos])
    with (Seq Bos (Seq (Grp 1 word1) (seq_of [spaces1; Lit "in"; spaces1; Grp 2 dot1; Eos]))).
  rewrite anchored_match. unfold word1, word. split.
  - intros H. apply accepts_group_then in H as (item & r1 & Hne & Hitem & Hr1 & H).
    apply in_tail_accepts in H as (sp1 & sp2 & e & H1 & H2 & He & Hr). cbn [m_rest] in *.
    subst r1 s. exists item, sp1, sp2, e. split; [split; assumption|]. auto.
  - intros (item & sp1 & sp2 & e & [Hne Hitem] & H1 & H2 & He & ->).
    apply accepts_group_then. exists item, (sp1 +:+ "in" +:+ sp2 +:+ e). repeat split; auto.
    apply in_tail_accepts. exists sp1, sp2, e. auto.
Qed.

(** [/^(\w+),\s*(\w+)\s+in\s+(.+)$/] *)
Lemma forWithIndex_matches (s : string) :
  match_ forWithIndex s <> None
  <-> exists item sp0 index sp1 sp2 e,
        word item /\ blanks sp0 /\ word index /\ blanks1 sp1 /\ blanks1 sp2 /\ one_line e
        /\ s = item +:+ "," +:+ sp0 +:+ index +:+ sp1 +:+ "in" +:+ sp2 +:+ e.
Proof.
  unfold forWithIndex.
  change (seq_of [Bos; Grp 1 word1; Lit ","; spaces; Grp 2 word1; spaces1; Lit "in"; spaces1;
                  Grp 3 dot1; Eos])
    with (Seq Bos (Seq (Grp 1 word1) (Seq (Lit ",") (Seq spaces (Seq (Grp 2 word1)
            (seq_of [spaces1; Lit "in"; spaces1; Grp 3 dot1; Eos])))))).
  rewrite anchored_match. unfold word1, spaces, word, blanks. split.
  - intros H. apply accepts_group_then in H as (item & r1 & Hne & Hitem & Hr1 & H).
    apply accepts_Lit_then in H as (r2 & Hr2 & H).
    apply accepts_run_then in H as (sp0 & r3 & Hsp0 & Hr3 & H).
    apply accepts_group_then in H as (index & r4 & Hnei & Hindex & Hr4 & H).
    apply in_tail_accepts in H as (sp1 & sp2 & e & H1 & H2 & He & Hr). cbn [m_rest] in *.
    subst r4 r3 r2 r1 s. exists item, sp0, index, sp1, sp2, e.
    split; [split; assumption|]. split; [assumption|]. split; [split; assumption|]. auto.
  - intros (item & sp0 & index & sp1 & sp2 & e & [Hne Hitem] & Hsp0 & [Hnei Hindex]
            & H1 & H2 & He & ->).
    apply accepts_group_then.
    exists item, ("," +:+ sp0 +:+ index +:+ sp1 +:+ "in" +:+ sp2 +:+ e). repeat split; auto.
    apply accepts_Lit_then. exists (sp0 +:+ index +:+ sp1 +:+ "in" +:+ sp2 +:+ e).
    split; [reflexivity|].
    apply accepts_run_then. exists sp0, (index +:+ sp1 +:+ "in" +:+ sp2 +:+ e).
    repeat split; auto.
    apply accepts_group_then. exists index, (sp1 +:+ "in" +:+ sp2 +:+ e). repeat split; auto.
    apply in_tail_accepts. exists sp1, sp2, e. auto.
Qed.

(** [parseForLoop] accepts exactly the headers of the two forms. *)
Lemma parseForHeader_for_header (s : string) :
  parseForHeader s <> None <-> for_header s.
Proof.
  unfold parseForHeader. split.
  - intros H. destruct (match_ forWithIndex s) as [m|] eqn:Ew.
    + assert (Hm : match_ forWithIndex s <> None) by (rewrite Ew; discriminate).
      apply forWithIndex_matches in Hm
        as (item & sp0 & index & sp1 & sp2 & e & ? & ? & ? & ? & ? & ? & ->).
      now constructor.
    + destruct (match_ forSimple s) as [m|] eqn:Es; [|contradiction].
      assert (Hm : match_ forSimple s <> None) by (rewrite Es; discriminate).
      apply forSimple_matches in Hm as (item & sp1 & sp2 & e & ? & ? & ? & ? & ->).
      now constructor.
  - intros H. destruct H as [item sp1 sp2 e Hi H1 H2 He|item sp0 index sp1 sp2 e Hi H0 Hx H1 H2 He].
    + assert (Hm : match_ forSimple (item +:+ sp1 +:+ "in" +:+ sp2 +:+ e) <> None)
        by (apply forSimple_matches; exists item, sp1, sp2, e; auto 10).
      destruct (match_ forWithIndex _); [discriminate|].
      destruct (match_ forSimple _); [discriminate|contradiction].
    + assert (Hm : match_ forWithIndex
                     (item +:+ "," +:+ sp0 +:+ index +:+ sp1 +:+ "in" +:+ sp2 +:+ e) <> None)
        by (apply forWithIndex_matches; exists item, sp0, index, sp1, sp2, e; auto 10).
      destruct (match_ forWithIndex _); [discriminate|contradiction].
Qed.

(** ** Block structure, by the tags themselves *)

(** The block tags of a token sequence are well nested, below the open
    blocks of [stack]: every end tag closes the innermost open block and
    is of its kind, an else stands directly inside an if that has none
    yet, every loop header has one of the two forms, and no block is left
    open at the end. *)
Fixpoint well_nested (tokens : list Token) (stack : list frame) : Prop :=
  match tokens with
  | [] => stack = []
  | token :: rest =>
      match t_type token with
      | TEXT | VARIABLE => well_nested rest stack
      | IF_START => well_nested rest (InIf false :: stack)
      | FOR_START => for_header (t_value token) /\ well_nested rest (InFor :: stack)
      | ELSE =>
          match stack with
          | InIf false :: stack' => well_nested rest (InIf true :: stack')
          | _ => False
          end
      | IF_END =>
          match stack with
          | InIf _ :: stack' => well_nested rest stack'
          | _ => False
          end
      | FOR_END =>
          match stack with
          | InFor :: stack' => well_nested rest stack'
          | _ => False
          end
      end
  end.

Lemma tokenize_scan_checked (template : string) (tokens : list Token) :
  tokenize_scan template = Return tokens -> Forall checked tokens.
Proof.
  unfold tokenize_scan.
  destruct (validateUnclosedExpressions _); cbn [bind]; try discriminate.
  intros H. eapply tokenize_loop_checked; [|exact H]. constructor.
Qed.

(** On the tokens of a scan, the verdict the parser acts on is
    [WellNested] exactly for the well-nested sequences. *)
Lemma nesting_well_nested (tokens : list Token) :
  Forall checked tokens ->
  forall stack, nesting tokens stack = WellNested <-> well_nested tokens stack.
Proof.
  induction 1 as [|token rest Htoken Hrest IH]; intros stack; cbn [nesting well_nested].
  - destruct stack; split; congruence.
  - unfold checked in Htoken. destruct (t_type token).
    + apply IH.
    + apply IH.
    + destruct Htoken as [Hne Htrim]. rewrite Htrim.
      apply String.eqb_neq in Hne. rewrite Hne. apply IH.
    + destruct stack as [|[[]|] stack]; try (split; [discriminate|contradiction]). apply IH.
    + destruct stack as [|[e|] stack]; try (split; [discriminate|contradiction]). apply IH.
    + pose proof (parseForHeader_for_header (t_value token)) as Hh.
      destruct (parseForHeader (t_value token)) as [header|].
      * rewrite IH. split; [|tauto]. intros Hn. split; [|exact Hn]. apply Hh. discriminate.
      * split; [discriminate|]. intros [Hf _]. apply Hh in Hf. contradiction.
    + destruct stack as [|[e|] stack]; try (split; [discriminate|contradiction]). apply IH.
Qed.

Section NestingClaims.

Variable runFunction : string -> value -> comp value.
Variable refToString : heap -> loc -> outcome string.

Local Abbreviation render' := (render runFunction refToString).

(** C5, amended. Take a template that the tokenizer scans into [tokens].
    If the block tags of [tokens] are well nested -- every if closed by
    its endif and every for by its endfor in stack order, an else only
    directly inside an if and at most once, and every loop header of the
    form [item in expr] or [item, index in expr], with words for the item
    and the index -- then tokenizing and parsing succeed.  If they are
    not -- an if or for left open, a terminator with no open block, an end
    tag of the wrong kind, a misplaced else or a header of neither form --
    then rendering throws, in every context, and no output is returned. *)
Theorem C5_structural_balance (t : string) (tokens : list Token) :
  tokenize_scan t = Return tokens ->
  (well_nested tokens [] ->
   exists ast, tokenize t = Return tokens /\ parse tokens = Return ast)
  /\ (~ well_nested tokens [] ->
      forall fuel c h, exists e h', render' fuel t c h = (Throw e, h')).
Proof.
  intros Hscan. pose proof (pipeline_nesting t tokens Hscan) as Hp.
  pose proof (nesting_well_nested tokens (tokenize_scan_checked t tokens Hscan) []) as Hw.
  split.
  - intros Hn. apply Hw in Hn.
    assert (Htok : tokenize t = Return tokens).
    { unfold tokenize, validateMismatchedBlocks. rewrite Hscan. cbn [bind].
      now rewrite (validateMismatchedBlocks_loop_ok tokens [] [] Hn no_open_frames). }
    rewrite Htok in Hp. cbn [bind] in Hp.
    destruct (parse tokens) as [ast|e|]; [eauto|contradiction|contradiction].
  - intros Hn fuel c h.
    destruct (bind (tokenize t) parse) as [ast|e|] eqn:E;
      [exfalso; apply Hn, Hw, Hp| |contradiction].
    eapply render_throws_before_evaluation, E.
Qed.

End NestingClaims.

Definition closed_for_template : string :=
  "{% for x, i in xs %}{% if x %}a{% else %}b{% endif %}{% endfor %}".

Definition closed_for_tokens : list Token :=
  [ MkToken FOR_START "x, i in xs" (MkPosition 0 20);
    MkToken IF_START "x" (MkPosition 20 30);
    MkToken TEXT "a" (MkPosition 30 31);
    MkToken ELSE EmptyString (MkPosition 31 41);
    MkToken TEXT "b" (MkPosition 41 42);
    MkToken IF_END EmptyString (MkPosition 42 53);
    MkToken FOR_END EmptyString (MkPosition 53 65) ].

Lemma closed_for_well_nested : well_nested closed_for_tokens [].
Proof.
  cbn. split; [|reflexivity].
  apply (header_indexed "x" " " "i" " " " " "xs");
    repeat split; try discriminate; reflexivity.
Qed.

Lemma C5_witness :
  (exists ast,
      tokenize closed_for_template = Return closed_for_tokens
      /\ parse closed_for_tokens = Return ast)
  /\ (forall fuel c h,
        exists e h',
          render sample_runFunction sample_refToString fuel open_if_template c h
          = (Throw e, h')).
Proof.
  split.
  - apply (C5_structural_balance sample_runFunction sample_refToString closed_for_template).
    + vm_compute. reflexivity.
    + exact closed_for_well_nested.
  - apply (C5_structural_balance sample_runFunction sample_refToString open_if_template
             [MkToken IF_START "a" (MkPosition 0 10); MkToken TEXT "x" (MkPosition 10 11)]).
    + vm_compute. reflexivity.
    + cbn. discriminate.
Defined.
